(** * Recipe recommendation engine: a shallow embedding and its properties

    The development follows [RecipeRecommendationEngine] (the TypeScript
    class with [calculateSimilarity], [getRecommendations] and
    [generateReasons]) and the built-ins of JavaScript it calls.

    - A JavaScript [number] is an IEEE 754 binary64 value: it is modelled by
      Rocq's primitive [float], whose operations are specified by
      [SpecFloat] (round to nearest, ties to even).
    - A [Set<string>] is insertion ordered and free of duplicates: it is
      modelled by the list of its elements in insertion order.
    - [String.prototype.toLowerCase] is a parameter of the development; the
      concrete inputs use [ascii_toLowerCase], which agrees with it on
      ASCII strings.

    It then follows the routes of the server that are computations on
    their inputs: the copy of the scoring in the recommendations route,
    the lists kept as comma-separated text, the favorites, the tokens
    read by [authenticateUser], the statement of the recipe list, and
    [validateImage]. *)

From Stdlib Require Import ZArith String Ascii List Bool Lia.
From Stdlib Require Import Floats Uint63.
From Stdlib Require Import Sorted Permutation.
From Stdlib Require Import Reals Lra.
Import ListNotations.


Local Open Scope list_scope.

(** ** The JavaScript built-ins used by the engine *)

Module JS.

(** *** Numbers *)

(** The decimal literals of the source, as the binary64 values a
    JavaScript engine reads them to. *)
Definition lit_0_4 : float := 0x1.999999999999ap-2%float.
Definition lit_0_3 : float := 0x1.3333333333333p-2%float.
Definition lit_0_2 : float := 0x1.999999999999ap-3%float.
Definition lit_0_1 : float := 0x1.999999999999ap-4%float.

(** [Set.prototype.size] and [Array.prototype.length] are integers; used
    as a [number] they are the binary64 value of that integer. *)
Definition of_size (n : nat) : float :=
  of_uint63 (Uint63.of_Z (Z.of_nat n)).

(** [a > b] on numbers. *)
Definition gt (a b : float) : bool := (b <? a)%float.

(** *** [Set<string>] *)

Definition StrSet := list string.

(** [s.has(x)] *)
Definition has (s : StrSet) (x : string) : bool :=
  existsb (String.eqb x) s.

(** [s.add(x)]: a new element goes last, a known one changes nothing. *)
Definition add (s : StrSet) (x : string) : StrSet :=
  if has s x then s else s ++ [x].

(** [new Set(iterable)] *)
Definition new_Set (l : list string) : StrSet :=
  fold_left add l [].

(** [s.size] *)
Definition size (s : StrSet) : nat := length s.

(** [[...s]]: the elements in insertion order. *)
Definition spread (s : StrSet) : list string := s.

(** *** Arrays *)

(** [l.slice(0, end)] for an integer [end]: a negative [end] counts from
    the end of the array. *)
Definition slice0 {A : Type} (l : list A) (end_ : Z) : list A :=
  let len := Z.of_nat (length l) in
  let final := if (end_ <? 0)%Z then Z.max (len + end_) 0
               else Z.min end_ len in
  firstn (Z.to_nat final) l.

(** [l.slice(0, end)] when [end] is the result of [parseInt]: an integer,
    or [NaN] ([None]), which [slice] reads as 0. *)
Definition slice0_number {A : Type} (l : list A) (end_ : option Z) : list A :=
  match end_ with
  | Some n => slice0 l n
  | None => slice0 l 0
  end.

(** [l.join(sep)] *)
Fixpoint join (sep : string) (l : list string) : string :=
  match l with
  | [] => EmptyString
  | [x] => x
  | x :: rest => (x ++ sep ++ join sep rest)%string
  end.

(** [l.sort(comparefn)].  The sort of ECMAScript is stable, and it moves
    [x] behind [y] only when [comparefn(x, y) > 0] (a [NaN] counts as
    [+0]).  For a consistent comparator that fixes the result, which is
    the one computed here by insertion from the right. *)
Fixpoint insert_by {A : Type} (comparefn : A -> A -> float)
         (x : A) (l : list A) : list A :=
  match l with
  | [] => [x]
  | y :: l' =>
      if gt (comparefn x y) 0%float then y :: insert_by comparefn x l'
      else x :: l
  end.

Definition sort {A : Type} (comparefn : A -> A -> float)
           (l : list A) : list A :=
  fold_right (insert_by comparefn) [] l.

End JS.

(** ** The data model *)

(** [interface Recipe] *)
Record Recipe := {
  id : string;
  name : string;
  ingredients : list string;
  instructions : list string;
  cuisine : string;
  category : string;
  image_url : string;
  youtube : option string;
  source : option string;
  tags : list string
}.

(** [interface RecommendationScore] *)
Record RecommendationScore := {
  recipe : Recipe;
  score : float;
  reasons : list string
}.

(** ** The engine *)

Section Engine.

(** [String.prototype.toLowerCase] *)
Variable toLowerCase : string -> string.

(** The sets both methods build from a list of labels. *)
Definition lowered (l : list string) : JS.StrSet :=
  JS.new_Set (map toLowerCase l).

(** [[...a].filter((x) => b.has(x))] *)
Definition common (a b : JS.StrSet) : list string :=
  filter (JS.has b) (JS.spread a).

(** [new Set([...a, ...b])] *)
Definition union (a b : JS.StrSet) : JS.StrSet :=
  JS.new_Set (JS.spread a ++ JS.spread b).

(** One of the two overlap blocks of [calculateSimilarity]: with the sets
    of target and candidate and the weight, it updates the running
    score. *)
Definition add_overlap (score : float) (target candidate : JS.StrSet)
           (weight : float) : float :=
  let intersection := JS.new_Set (common target candidate) in
  let union_ := union target candidate in
  if (0 <? JS.size union_)%nat then
    let similarity :=
      (JS.of_size (JS.size intersection) / JS.of_size (JS.size union_))%float in
    (score + similarity * weight)%float
  else score.

(** [calculateSimilarity(targetRecipe, candidateRecipe)] *)
Definition calculateSimilarity (targetRecipe candidateRecipe : Recipe) : float :=
  let score := 0%float in
  let score :=
    if (cuisine targetRecipe =? cuisine candidateRecipe)%string
    then (score + JS.lit_0_4)%float else score in
  let score :=
    if (category targetRecipe =? category candidateRecipe)%string
    then (score + JS.lit_0_3)%float else score in
  let targetTags := lowered (tags targetRecipe) in
  let candidateTags := lowered (tags candidateRecipe) in
  let score := add_overlap score targetTags candidateTags JS.lit_0_2 in
  let targetIngredients := lowered (ingredients targetRecipe) in
  let candidateIngredients := lowered (ingredients candidateRecipe) in
  let score :=
    add_overlap score targetIngredients candidateIngredients JS.lit_0_1 in
  score.

(** [reasons.push(r)] *)
Definition push (reasons : list string) (r : string) : list string :=
  reasons ++ [r].

(** [generateReasons(targetRecipe, candidateRecipe)] *)
Definition generateReasons (targetRecipe candidateRecipe : Recipe) : list string :=
  let reasons : list string := [] in
  let reasons :=
    if (cuisine targetRecipe =? cuisine candidateRecipe)%string
    then push reasons ("Same cuisine (" ++ cuisine targetRecipe ++ ")")%string
    else reasons in
  let reasons :=
    if (category targetRecipe =? category candidateRecipe)%string
    then push reasons ("Same category (" ++ category targetRecipe ++ ")")%string
    else reasons in
  let targetTags := lowered (tags targetRecipe) in
  let candidateTags := lowered (tags candidateRecipe) in
  let commonTags := common targetTags candidateTags in
  let reasons :=
    if (0 <? length commonTags)%nat
    then push reasons
           ("Similar tags: " ++ JS.join ", " (JS.slice0 commonTags 3))%string
    else reasons in
  let targetIngredients := lowered (ingredients targetRecipe) in
  let candidateIngredients := lowered (ingredients candidateRecipe) in
  let commonIngredients := common targetIngredients candidateIngredients in
  let reasons :=
    if (0 <? length commonIngredients)%nat
    then push reasons
           ("Similar ingredients: "
              ++ JS.join ", " (JS.slice0 commonIngredients 2))%string
    else reasons in
  if (0 <? length reasons)%nat then reasons else ["Similar recipe"%string].

(** The body of the [forEach] of [getRecommendations]: one candidate is
    scored and, above the threshold, pushed with its reasons. *)
Definition consider (targetRecipe : Recipe)
           (recommendations : list RecommendationScore)
           (candidateRecipe : Recipe) : list RecommendationScore :=
  let score := calculateSimilarity targetRecipe candidateRecipe in
  if JS.gt score JS.lit_0_1 then
    let reasons := generateReasons targetRecipe candidateRecipe in
    recommendations ++
      [{| recipe := candidateRecipe; score := score; reasons := reasons |}]
  else recommendations.

(** [allRecipes.filter((recipe) => recipe.id !== targetRecipe.id)] *)
Definition candidates (targetRecipe : Recipe) (allRecipes : list Recipe)
  : list Recipe :=
  filter (fun recipe => negb (id recipe =? id targetRecipe)%string) allRecipes.

(** The array [recommendations] when the [forEach] is over. *)
Definition scored (targetRecipe : Recipe) (allRecipes : list Recipe)
  : list RecommendationScore :=
  fold_left (consider targetRecipe) (candidates targetRecipe allRecipes) [].

(** [(a, b) => b.score - a.score] *)
Definition by_score (a b : RecommendationScore) : float :=
  (score b - score a)%float.

(** The array after [sort] and before [slice]. *)
Definition ranked (targetRecipe : Recipe) (allRecipes : list Recipe)
  : list RecommendationScore :=
  JS.sort by_score (scored targetRecipe allRecipes).

(** [getRecommendations(targetRecipe, allRecipes, maxRecommendations)] *)
Definition getRecommendations (targetRecipe : Recipe)
           (allRecipes : list Recipe) (maxRecommendations : Z)
  : list RecommendationScore :=
  JS.slice0 (JS.sort by_score (scored targetRecipe allRecipes))
            maxRecommendations.

(** The default of the third parameter. *)
Definition getRecommendations_default (targetRecipe : Recipe)
           (allRecipes : list Recipe) : list RecommendationScore :=
  getRecommendations targetRecipe allRecipes 6.

(** *** The copy of the computation in the server route *)

(** One of the two overlap blocks of the route: it updates the score and
    the reasons together. *)
Definition route_overlap (sr : float * list string)
           (target candidate : JS.StrSet) (weight : float)
           (label : string) (shown : Z) : float * list string :=
  let (score, reasons) := sr in
  let intersection := JS.new_Set (common target candidate) in
  let union_ := union target candidate in
  if (0 <? JS.size union_)%nat then
    let similarity :=
      (JS.of_size (JS.size intersection) / JS.of_size (JS.size union_))%float in
    let score := (score + similarity * weight)%float in
    if (0 <? JS.size intersection)%nat then
      let commonLabels := JS.slice0 (JS.spread intersection) shown in
      (score, push reasons (label ++ JS.join ", " commonLabels)%string)
    else (score, reasons)
  else (score, reasons).

(** The function mapped over [candidateRecipes]. *)
Definition route_entry (processedTarget candidate : Recipe)
  : RecommendationScore :=
  let sr : float * list string := (0%float, []) in
  let sr :=
    if (cuisine processedTarget =? cuisine candidate)%string
    then ((fst sr + JS.lit_0_4)%float,
          push (snd sr) ("Same cuisine (" ++ cuisine candidate ++ ")")%string)
    else sr in
  let sr :=
    if (category processedTarget =? category candidate)%string
    then ((fst sr + JS.lit_0_3)%float,
          push (snd sr) ("Same category (" ++ category candidate ++ ")")%string)
    else sr in
  let sr :=
    route_overlap sr (lowered (tags processedTarget))
                  (lowered (tags candidate)) JS.lit_0_2 "Similar tags: " 3 in
  let sr :=
    route_overlap sr (lowered (ingredients processedTarget))
                  (lowered (ingredients candidate)) JS.lit_0_1
                  "Similar ingredients: " 2 in
  {| recipe := candidate;
     score := fst sr;
     reasons := if (0 <? length (snd sr))%nat then snd sr
                else ["Similar recipe"%string] |}.

(** The chain [map], [filter], [sort], [slice] of the route, on the rows of
    the query and the parsed limit. *)
Definition route (processedTarget : Recipe) (allRows : list Recipe)
           (limit : option Z) : list RecommendationScore :=
  JS.slice0_number
    (JS.sort by_score
       (filter (fun rec => JS.gt (score rec) JS.lit_0_1)
               (map (route_entry processedTarget) allRows)))
    limit.

(** The entry pushed for a candidate above the threshold, and the test of
    the threshold: [scored] is a filter followed by a map (see
    [scored_eq]). *)
Definition entry (targetRecipe candidateRecipe : Recipe) : RecommendationScore :=
  {| recipe := candidateRecipe;
     score := calculateSimilarity targetRecipe candidateRecipe;
     reasons := generateReasons targetRecipe candidateRecipe |}.

Definition passes (targetRecipe candidateRecipe : Recipe) : bool :=
  JS.gt (calculateSimilarity targetRecipe candidateRecipe) JS.lit_0_1.

End Engine.

(** ** Concrete inputs *)

(** [toLowerCase] on ASCII strings. *)
Definition ascii_lower (c : ascii) : ascii :=
  let n := nat_of_ascii c in
  if ((65 <=? n) && (n <=? 90))%nat then ascii_of_nat (n + 32) else c.

Fixpoint ascii_toLowerCase (s : string) : string :=
  match s with
  | EmptyString => EmptyString
  | String c s' => String (ascii_lower c) (ascii_toLowerCase s')
  end.

Definition mkRecipe (i cu ca : string) (tg ing : list string) : Recipe :=
  {| id := i; name := i; ingredients := ing; instructions := [];
     cuisine := cu; category := ca; image_url := EmptyString;
     youtube := None; source := None; tags := tg |}.

Local Open Scope string_scope.

(** The recipes of the concrete statements.  The first two are those of
    the first example scenario of the specification. *)
Definition tiramisu : Recipe :=
  mkRecipe "1" "Italian" "Dessert" ["sweet"; "baked"] ["flour"; "sugar"].

Definition cannoli : Recipe :=
  mkRecipe "2" "Italian" "Dessert" ["sweet"; "quick"] ["flour"; "butter"].

(** Only the category is that of [tiramisu]. *)
Definition flan : Recipe := mkRecipe "3" "Spanish" "Dessert" [] [].

(** Another recipe with the cuisine, the category, the tags and the
    ingredients of [tiramisu]. *)
Definition zuppa : Recipe :=
  mkRecipe "4" "Italian" "Dessert" ["sweet"; "baked"] ["flour"; "sugar"].

(** Two recipes with the same cuisine and category and no label at all. *)
Definition horiatiki : Recipe := mkRecipe "7" "Greek" "Salad" [] [].

Definition dakos : Recipe := mkRecipe "8" "Greek" "Salad" [] [].

(** Only the ingredients are those of [tiramisu]: the score is exactly the
    threshold. *)
Definition shortbread : Recipe :=
  mkRecipe "9" "Scottish" "Biscuit" [] ["flour"; "sugar"].

(** Two recipes that share one tag and one ingredient up to case. *)
Definition cx_target : Recipe :=
  mkRecipe "5" "Thai" "Main" ["Sweet"] ["Flour"].

Definition cx_candidate : Recipe :=
  mkRecipe "6" "French" "Dessert" ["sweet"] ["flour"].

Local Close Scope string_scope.

(** ** The formulas and rules of the specification

    These definitions follow the wording of the specification, not the
    code; the theorems compare them with the engine. *)

Section Spec.

Variable toLowerCase : string -> string.

(** The lower-cased set of a list of labels, as a list without
    duplicates. *)
Definition lower_set (l : list string) : list string :=
  nodup string_dec (map toLowerCase l).

Definition mem (x : string) (l : list string) : bool :=
  if in_dec string_dec x l then true else false.

(** The sizes of the intersection and of the union of two lower-cased
    sets. *)
Definition inter_size (a b : list string) : nat :=
  length (filter (fun x => mem x (lower_set b)) (lower_set a)).

Definition union_size (a b : list string) : nat :=
  length (nodup string_dec (lower_set a ++ lower_set b)).

(** The Jaccard ratio: intersection size over union size, 0 when the
    union is empty. *)
Definition jaccard (a b : list string) : float :=
  if (union_size a b =? 0)%nat then 0%float
  else (JS.of_size (inter_size a b) / JS.of_size (union_size a b))%float.

(** The score of section 4.1: the sum of the four contributions. *)
Definition score_spec (target candidate : Recipe) : float :=
  ((if (cuisine target =? cuisine candidate)%string then JS.lit_0_4 else 0)
   + (if (category target =? category candidate)%string then JS.lit_0_3 else 0)
   + JS.lit_0_2 * jaccard (tags target) (tags candidate)
   + JS.lit_0_1 * jaccard (ingredients target) (ingredients candidate))%float.

(** The case-insensitive intersection of two label lists is non-empty. *)
Definition overlap (a b : list string) : bool :=
  existsb (fun x =>
    existsb (fun y => (toLowerCase x =? toLowerCase y)%string) b) a.

(** A reason that is present exactly when its factor matches. *)
Definition when (factor : bool) (reason : string) : list string :=
  if factor then [reason] else [].

(** Rule 5: the fallback replaces an empty list of reasons. *)
Definition or_fallback (l : list string) : list string :=
  match l with
  | [] => ["Similar recipe"%string]
  | _ :: _ => l
  end.

(** The labels of the target, in the target's spelling, that the candidate
    has up to case. *)
Definition intersecting_original (a b : list string) : list string :=
  filter (fun x =>
    existsb (fun y => (toLowerCase x =? toLowerCase y)%string) b) a.

(** Rules 3 and 4 as the specification words them: the first labels of the
    intersection, in the target's casing. *)
Definition tags_reason_spec (target candidate : Recipe) : string :=
  ("Similar tags: "
     ++ JS.join ", " (firstn 3 (intersecting_original (tags target)
                                                       (tags candidate))))%string.

Definition ingredients_reason_spec (target candidate : Recipe) : string :=
  ("Similar ingredients: "
     ++ JS.join ", " (firstn 2 (intersecting_original (ingredients target)
                                                       (ingredients candidate))))%string.

(** Rules 3 and 4 as the engine applies them: the same labels, but
    lower-cased and without repeats. *)
Definition tags_reason (target candidate : Recipe) : string :=
  ("Similar tags: "
     ++ JS.join ", "
          (firstn 3 (lowered toLowerCase
                       (intersecting_original (tags target)
                                              (tags candidate)))))%string.

Definition ingredients_reason (target candidate : Recipe) : string :=
  ("Similar ingredients: "
     ++ JS.join ", "
          (firstn 2 (lowered toLowerCase
                       (intersecting_original (ingredients target)
                                              (ingredients candidate)))))%string.

(** Rules 1 to 4 in their fixed order, each reason present exactly when
    its factor matches. *)
Definition specific_reasons (target candidate : Recipe) : list string :=
  when (cuisine target =? cuisine candidate)%string
       ("Same cuisine (" ++ cuisine target ++ ")")%string
  ++ when (category target =? category candidate)%string
          ("Same category (" ++ category target ++ ")")%string
  ++ when (overlap (tags target) (tags candidate))
          (tags_reason target candidate)
  ++ when (overlap (ingredients target) (ingredients candidate))
          (ingredients_reason target candidate).

(** The lower-cased label sets are equal and not empty. *)
Definition same_labels (a b : list string) : Prop :=
  a <> [] /\ forall x, In x (map toLowerCase a) <-> In x (map toLowerCase b).

(** Cuisine and category are equal, and the lower-cased tag sets and
    ingredient sets are equal and not empty. *)
Definition full_match (t c : Recipe) : Prop :=
  cuisine t = cuisine c /\ category t = category c
  /\ same_labels (tags t) (tags c)
  /\ same_labels (ingredients t) (ingredients c).

End Spec.

(** *** The score on the two booleans and the four sizes *)

(** The score before the overlaps: one of four constants. *)
Definition base (cu ca : bool) : float :=
  let score := 0%float in
  let score := if cu then (score + JS.lit_0_4)%float else score in
  if ca then (score + JS.lit_0_3)%float else score.

(** One overlap block on the two sizes. *)
Definition overlap_term (s : float) (i u : nat) (w : float) : float :=
  if (u =? 0)%nat then s
  else (s + JS.of_size i / JS.of_size u * w)%float.

(** The whole score on the two booleans and the four sizes. *)
Definition score_of (cu ca : bool) (i1 u1 i2 u2 : nat) : float :=
  overlap_term (overlap_term (base cu ca) i1 u1 JS.lit_0_2) i2 u2 JS.lit_0_1.

(** Cuisine and category match and both Jaccard ratios are full. *)
Definition all_match (cu ca : bool) (i1 u1 i2 u2 : nat) : Prop :=
  cu = true /\ ca = true /\ i1 = u1 /\ (0 < u1)%nat
  /\ i2 = u2 /\ (0 < u2)%nat.

(** The greatest score: [0.4 + 0.3 + 0.2 + 0.1] in binary64, which is
    0.9999999999999999. *)
Definition max_score : float := 0x1.fffffffffffffp-1%float.

(** A JavaScript array holds fewer than [2 ^ 32] elements. *)
Definition array_ok (l : list string) : Prop :=
  (Z.of_nat (length l) < 2 ^ 32)%Z.

(** A recipe whose arrays JavaScript can hold. *)
Definition well_formed (r : Recipe) : Prop :=
  array_ok (tags r) /\ array_ok (ingredients r).

(** ** Binary64: the notions the proofs about numbers use

    The operations themselves are those of [SpecFloat], which specify the
    primitive floats. *)

Module Binary64.

Local Open Scope Z_scope.

(** The sign bit is clear, or the value is [NaN]. *)
Definition sf_nonneg (x : spec_float) : Prop :=
  match x with
  | S754_zero s | S754_infinity s | S754_finite s _ _ => s = false
  | S754_nan => True
  end.

Definition nonneg (x : float) : Prop := sf_nonneg (Prim2SF x).

(** A value that is [+0] or [NaN] is not above the threshold. *)
Definition sf_null (x : spec_float) : Prop :=
  x = S754_zero false \/ x = S754_nan.

Definition sf_null_signed (x : spec_float) : Prop :=
  (exists s, x = S754_zero s) \/ x = S754_nan.

(** After [n] steps from [(m, r0, _)] the mantissa is [m / 2 ^ n]; the
    round bit is set only when the bits shifted out amount to half a unit
    or more (or no step was made and it was set from the start). *)
Definition shifted (m : Z) (r0 : bool) (n : Z) (mrs : shr_record) : Prop :=
  0 <= shr_m mrs /\
  exists rem, m = shr_m mrs * 2 ^ n + rem /\ 0 <= rem < 2 ^ n /\
              (shr_r mrs = true -> (n = 0 /\ r0 = true) \/ 2 ^ n <= 2 * rem).

(** The float made of a sign, a rounded mantissa of at most [2 ^ 53] and
    its exponent. *)
Definition pack (s : bool) (m e : Z) : spec_float :=
  if m =? 0 then S754_zero s
  else if m =? 2 ^ 53 then
         if e + 1 <=? 971 then S754_finite s (Z.to_pos (2 ^ 52)) (e + 1)
         else S754_infinity s
       else if e <=? 971 then S754_finite s (Z.to_pos m) e
            else S754_infinity s.

(** The comparison of two values once both are written with the smaller
    exponent. *)
Definition aligned (m e k : Z) : Z := (m * 2 ^ (e - k))%Z.

(** A float above a positive finite one: finite and positive, or [+oo]. *)
Definition sf_pos (x : spec_float) : Prop :=
  match x with
  | S754_finite false _ _ | S754_infinity false => True
  | _ => False
  end.

Local Open Scope R_scope.

(** [2 ^ e] for an integer [e]. *)
Definition bpow (e : Z) : R := powerRZ 2 e.

(** The value of a mantissa and an exponent. *)
Definition F2R (m e : Z) : R := IZR m * bpow e.

(** A positive mantissa and an exponent in the form binary64 stores
    them. *)
Definition canonic (m e : Z) : Prop :=
  (0 < m < 2 ^ 53 /\ -1074 <= e <= 971 /\ (-1074 < e -> 2 ^ 52 <= m))%Z.

(** A non-negative finite float of value at most [B]. *)
Definition fin_le (x : spec_float) (B : R) : Prop :=
  x = S754_zero false
  \/ exists m e, x = S754_finite false m e /\ canonic (Zpos m) e
                 /\ F2R (Zpos m) e <= B.

End Binary64.

(** The values the bounds of the score are stated with. *)

Module ScoreValues.

Import Binary64.
Local Open Scope R_scope.

(** The floats the bounds are stated with: mantissa and exponent. *)
Definition v_0_1 : R := F2R 7205759403792794 (-56).

Definition v_0_2 : R := F2R 7205759403792794 (-55).

Definition v_0_4 : R := F2R 7205759403792794 (-54).

Definition v_0_7 : R := F2R 6305039478318694 (-53).

Definition v_0_75 : R := F2R 6755399441055744 (-53).

(** [0.7 + 0.2] as binary64 adds them: 0.8999999999999999. *)
Definition v_0_9 : R := F2R 8106479329266892 (-53).

(** The greatest score: 0.9999999999999999. *)
Definition v_max : R := F2R 9007199254740991 (-53).

Definition v_1 : R := F2R 4503599627370496 (-52).

(** [1 - 2 ^ -33]: above every ratio [i / u] with [i < u < 2 ^ 33]. *)
Definition v_ratio : R := F2R (9007199254740992 - 1048576) (-53).

(** Bounds that leave a margin of [2 ^ 18] units in the last place. *)
Definition w_0_1 : R := F2R (7205759403792794 - 262144) (-56).

Definition w_0_2 : R := F2R (7205759403792794 - 262144) (-55).

Definition w_0_9 : R := F2R (8106479329266892 - 32768) (-53).

Definition w_max : R := F2R (9007199254740991 - 16384) (-53).

End ScoreValues.

(** *** The order of the ranked entries *)

(** An entry whose score passed the threshold. *)
Definition above (e : RecommendationScore) : Prop :=
  Binary64.sf_pos (Prim2SF (score e)).

(** [a] may stand before [b]: both passed the threshold and [b] does not
    score more. *)
Definition desc (a b : RecommendationScore) : Prop :=
  above a /\ above b /\ (score b <=? score a)%float = true.

(** ** The server: the string built-ins its routes use

    A string is the sequence of its code units; the development covers
    the code units below 256. *)

Module JSString.

Local Open Scope string_scope.

(** The code units below 256 that [trim] removes (white space and line
    terminators): TAB, LF, VT, FF, CR, SP and NBSP. *)
Definition isWhiteSpace (c : ascii) : bool :=
  let n := nat_of_ascii c in
  ((9 <=? n) && (n <=? 13) || (n =? 32) || (n =? 160))%nat.

(** [s.trimStart()] *)
Fixpoint trimStart (s : string) : string :=
  match s with
  | EmptyString => EmptyString
  | String c s' => if isWhiteSpace c then trimStart s' else s
  end.

(** [s.trimEnd()] *)
Fixpoint trimEnd (s : string) : string :=
  match s with
  | EmptyString => EmptyString
  | String c s' =>
      match trimEnd s' with
      | EmptyString =>
          if isWhiteSpace c then EmptyString else String c EmptyString
      | String _ _ as t => String c t
      end
  end.

(** The first code unit, if any, is not white space. *)
Definition headOk (s : string) : bool :=
  match s with
  | EmptyString => true
  | String c _ => negb (isWhiteSpace c)
  end.

(** [s.trim()] *)
Definition trim (s : string) : string := trimEnd (trimStart s).

(** [s.split(sep)] for a separator of one code unit: the pieces between
    the separators, so one more piece than there are separators. *)
Fixpoint split (sep : ascii) (s : string) : list string :=
  match s with
  | EmptyString => [EmptyString]
  | String c s' =>
      if Ascii.eqb c sep then EmptyString :: split sep s'
      else match split sep s' with
           | [] => [String c EmptyString]
           | piece :: rest => String c piece :: rest
           end
  end.

(** A string used as a condition: every string but the empty one is
    true. *)
Definition truthy (s : string) : bool := negb (s =? "").

(** [s.startsWith(p)] *)
Definition startsWith (s p : string) : bool := String.prefix p s.

(** [s.substring(n)] *)
Fixpoint substring (n : nat) (s : string) : string :=
  match n, s with
  | O, _ => s
  | S n', String _ s' => substring n' s'
  | S _, EmptyString => EmptyString
  end.

(** [l.includes(x)] on an array of strings *)
Definition includes (l : list string) (x : string) : bool :=
  existsb (String.eqb x) l.

(** The number of code units [c] in [s]. *)
Fixpoint occurrences (c : ascii) (s : string) : nat :=
  match s with
  | EmptyString => 0
  | String c' s' =>
      if Ascii.eqb c' c then S (occurrences c s') else occurrences c s'
  end.

End JSString.

(** ** The server: lists kept as comma-separated text *)

Section Columns.

Local Open Scope string_scope.

(** The expression that every route reading a recipe applies to the
    columns [instructions], [ingredients] and [tags], and the favorites
    routes to [favorite_recipes]:
    [text ? text.split(",").map((item) => item.trim()).filter((item) => item) : []].
    The column holds [NULL] ([None]) or a text. *)
Definition splitColumn (text : option string) : list string :=
  match text with
  | None => []
  | Some s =>
      if JSString.truthy s
      then filter JSString.truthy (map JSString.trim (JSString.split "," s))
      else []
  end.

(** The text the routes that create and update a recipe store for an
    array: [items.join(", ")]. *)
Definition joinColumn (items : list string) : string := JS.join ", " items.

(** The items read from a text. *)
Definition items (s : string) : list string :=
  filter JSString.truthy (map JSString.trim (JSString.split "," s)).

(** The separators of the two kinds of column. *)
Definition separator (spaced : bool) : string :=
  if spaced then ", " else ",".

(** An item that the stored text gives back as it is: not empty, without
    a comma and without white space at either end. *)
Definition cleanItem (item : string) : bool :=
  JSString.truthy item
  && (JSString.occurrences "," item =? 0)%nat
  && (JSString.trim item =? item).

(** *** The list of recipes *)

(** The statement and the parameters of [GET /api/recipes]; a parameter
    of the query string that is absent ([None]) or empty adds nothing. *)
Definition recipesQuery (cuisine category search : option string)
  : string * list string :=
  let query := "SELECT * FROM recipes WHERE 1=1" in
  let params : list string := [] in
  let (query, params) :=
    match cuisine with
    | Some c =>
        if JSString.truthy c
        then ((query ++ " AND cuisine = ?")%string, (params ++ [c])%list)
        else (query, params)
    | None => (query, params)
    end in
  let (query, params) :=
    match category with
    | Some c =>
        if JSString.truthy c
        then ((query ++ " AND category = ?")%string, (params ++ [c])%list)
        else (query, params)
    | None => (query, params)
    end in
  let (query, params) :=
    match search with
    | Some s =>
        if JSString.truthy s
        then ((query ++ " AND (name LIKE ? OR tags LIKE ?)")%string,
              (params ++ [("%" ++ s ++ "%")%string;
                          ("%" ++ s ++ "%")%string])%list)
        else (query, params)
    | None => (query, params)
    end in
  (query ++ " ORDER BY name", params).

(** *** The favorites *)

(** [GET /api/favorites] after the user is read: [None] when the route
    answers with the empty list without a second query, else the
    statement and its parameters. *)
Definition favoritesQuery (favorite_recipes : option string)
  : option (string * list string) :=
  match favorite_recipes with
  | None => None
  | Some favoriteRecipeIds =>
      if negb (JSString.truthy favoriteRecipeIds) then None
      else
        let recipeIds :=
          filter JSString.truthy
                 (map JSString.trim (JSString.split "," favoriteRecipeIds)) in
        if (length recipeIds =? 0)%nat then None
        else
          let placeholders := JS.join "," (map (fun _ => "?") recipeIds) in
          Some ("SELECT * FROM recipes WHERE id IN (" ++ placeholders ++ ")",
                recipeIds)
  end.

(** What [POST /api/favorites/:recipeId] does once the recipe is found. *)
Inductive AddOutcome :=
| AlreadyFavorite
| UpdateFavorites (updatedFavorites : string).

Definition addFavorite (favorite_recipes : option string) (recipeId : string)
  : AddOutcome :=
  let currentFavorites := splitColumn favorite_recipes in
  if JSString.includes currentFavorites recipeId then AlreadyFavorite
  else
    let currentFavorites := push currentFavorites recipeId in
    UpdateFavorites (JS.join "," currentFavorites).

(** The value [DELETE /api/favorites/:recipeId] writes to the column. *)
Definition removeFavorite (favorite_recipes : option string)
           (recipeId : string) : option string :=
  let currentFavorites := splitColumn favorite_recipes in
  let updatedFavorites :=
    filter (fun id => negb (id =? recipeId)) currentFavorites in
  if (0 <? length updatedFavorites)%nat
  then Some (JS.join "," updatedFavorites)
  else None.

(** *** The tokens *)

(** The token that the routes [register] and [login] make from the
    user's id and the time, both written in decimal:
    [`mock_token_${id}_${Date.now()}`]. *)
Definition mockToken (id now : string) : string :=
  "mock_token_" ++ id ++ "_" ++ now.

(** The header the client sends with a stored token. *)
Definition bearer (token : string) : string := "Bearer " ++ token.

(** What [authenticateUser] does with the [authorization] header before
    it reads the user. *)
Inductive AuthOutcome :=
| NoToken
| InvalidToken
| FindUser (userId : string).

Definition authenticateUser (authHeader : option string) : AuthOutcome :=
  match authHeader with
  | None => NoToken
  | Some authHeader =>
      if negb (JSString.truthy authHeader)
         || negb (JSString.startsWith authHeader "Bearer ")
      then NoToken
      else
        let token := JSString.substring 7 authHeader in
        let tokenParts := JSString.split "_" token in
        if (length tokenParts <? 3)%nat
           || negb (nth 0 tokenParts "" =? "mock")
           || negb (nth 1 tokenParts "" =? "token")
        then InvalidToken
        else FindUser (nth 2 tokenParts "")
  end.

End Columns.

(** ** The server: the validation of an uploaded image *)

Module Image.

Local Open Scope string_scope.

(** What [sharp(filePath).metadata()] tells of the image. *)
Record Metadata := {
  format : option string;
  width : option Z;
  height : option Z
}.

(** The reasons for which [validateImage] refuses an image. *)
Inductive ImageError :=
| FileTooLarge
| InvalidFormat
| NoDimensions
| TooSmall
| TooLarge
| UnusualAspectRatio.

Inductive Verdict :=
| Invalid (error : ImageError)
| Valid (format : string) (width height size : Z).

Definition ALLOWED_FORMATS : list string := ["jpeg"; "jpg"; "png"; "webp"].

Definition MAX_FILE_SIZE : Z := 5 * 1024 * 1024.

Definition MIN_DIMENSIONS : Z * Z := (100, 100)%Z.

Definition MAX_DIMENSIONS : Z * Z := (4000, 4000)%Z.

(** An integer below [2 ^ 63] as a [number]. *)
Definition number (z : Z) : float := of_uint63 (Uint63.of_Z z).

(** [validateImage(filePath)] on the size [fs.stat] reports and the
    metadata [sharp] reads. *)
Definition validateImage (size : Z) (metadata : Metadata) : Verdict :=
  if (MAX_FILE_SIZE <? size)%Z then Invalid FileTooLarge
  else
    match format metadata with
    | None => Invalid InvalidFormat
    | Some f =>
        if negb (JSString.truthy f)
           || negb (JSString.includes ALLOWED_FORMATS f)
        then Invalid InvalidFormat
        else
          match width metadata, height metadata with
          | Some w, Some h =>
              if (w =? 0)%Z || (h =? 0)%Z then Invalid NoDimensions
              else if (w <? fst MIN_DIMENSIONS)%Z || (h <? snd MIN_DIMENSIONS)%Z
              then Invalid TooSmall
              else if (fst MAX_DIMENSIONS <? w)%Z || (snd MAX_DIMENSIONS <? h)%Z
              then Invalid TooLarge
              else
                let aspectRatio := (number w / number h)%float in
                if JS.gt aspectRatio 10%float
                   || (aspectRatio <? JS.lit_0_1)%float
                then Invalid UnusualAspectRatio
                else Valid f w h size
          | _, _ => Invalid NoDimensions
          end
    end.

End Image.

(** ** Binary64: lower bounds *)

Module Binary64Lower.

Import Binary64.
Local Open Scope R_scope.

(** A positive float of value at least [B]: finite, or [+oo]. *)
Definition fin_ge (x : spec_float) (B : R) : Prop :=
  x = S754_infinity false
  \/ exists m e, x = S754_finite false m e /\ canonic (Zpos m) e
                 /\ B <= F2R (Zpos m) e.

End Binary64Lower.

(** ** More concrete inputs *)

(** [cannoli] with its labels in another order and another case, one of
    them twice. *)
Definition cannoli_again : Recipe :=
  mkRecipe "10" "Italian" "Dessert"
           ["QUICK"; "Sweet"; "sweet"]%string ["Butter"; "flour"]%string.

(** A column of favorites and a header with a token. *)
Definition two_favorites : option string := Some "1, 2"%string.

Definition header_12 : option string :=
  Some (bearer (mockToken "12" "1700000000000")).
(** ** Facts about the ordered sets *)

Module SetFacts.
Import JS.

Lemma has_In (s : StrSet) (x : string) : has s x = true <-> In x s.
Proof.
  unfold has. rewrite existsb_exists. split.
  - intros [y [Hy He]]. apply String.eqb_eq in He. now subst.
  - intros H. exists x. split; [assumption | apply String.eqb_refl].
Qed.

Lemma has_false (s : StrSet) (x : string) : has s x = false <-> ~ In x s.
Proof.
  rewrite <- has_In. destruct (has s x); split; congruence.
Qed.

Lemma In_add (s : StrSet) (x y : string) :
  In y (add s x) <-> In y s \/ y = x.
Proof.
  unfold add. destruct (has s x) eqn:E.
  - apply has_In in E. split; [tauto | intros [H | ->]; assumption].
  - rewrite in_app_iff. simpl. split; intros [H | H]; auto.
    + destruct H as [H | []]; auto.
Qed.

Lemma NoDup_add (s : StrSet) (x : string) : NoDup s -> NoDup (add s x).
Proof.
  intros H. unfold add. destruct (has s x) eqn:E; [assumption |].
  apply has_false in E. apply NoDup_app; [assumption | repeat constructor; auto | ].
  intros a Ha [<- | []]. contradiction.
Qed.

Lemma In_fold_add (l : list string) (acc : StrSet) (x : string) :
  In x (fold_left add l acc) <-> In x acc \/ In x l.
Proof.
  revert acc. induction l as [| a l IH]; intros acc; simpl.
  - tauto.
  - rewrite IH, In_add. split; intros H; intuition.
Qed.

Lemma NoDup_fold_add (l : list string) (acc : StrSet) :
  NoDup acc -> NoDup (fold_left add l acc).
Proof.
  revert acc. induction l as [| a l IH]; intros acc H; simpl.
  - assumption.
  - apply IH, NoDup_add, H.
Qed.

Lemma In_new_Set (l : list string) (x : string) :
  In x (new_Set l) <-> In x l.
Proof.
  unfold new_Set. rewrite In_fold_add. simpl. tauto.
Qed.

Lemma NoDup_new_Set (l : list string) : NoDup (new_Set l).
Proof. apply NoDup_fold_add. constructor. Qed.

(** Adding a list of fresh, pairwise distinct elements appends it. *)
Lemma fold_add_fresh (l : list string) (acc : StrSet) :
  NoDup (acc ++ l) -> fold_left add l acc = acc ++ l.
Proof.
  revert acc. induction l as [| a l IH]; intros acc H; simpl.
  - now rewrite app_nil_r.
  - assert (Ha : has acc a = false).
    { apply has_false. intros Hin.
      apply NoDup_remove_2 in H. apply H. apply in_or_app. now left. }
    unfold add at 2. rewrite Ha.
    rewrite IH; rewrite <- app_assoc; simpl; [reflexivity | assumption].
Qed.

Lemma new_Set_NoDup (l : list string) : NoDup l -> new_Set l = l.
Proof. intros H. unfold new_Set. now rewrite fold_add_fresh. Qed.

Lemma new_Set_app (a b : list string) :
  NoDup a -> new_Set (a ++ b) = fold_left add b a.
Proof.
  intros H. unfold new_Set. rewrite fold_left_app.
  now rewrite (fold_add_fresh a []).
Qed.

(** The size after adding the elements of a duplicate-free list. *)
Lemma length_fold_add (l : list string) (acc : StrSet) :
  NoDup l ->
  length (fold_left add l acc)
  = length acc + length (filter (fun x => negb (has acc x)) l).
Proof.
  revert acc. induction l as [| a l IH]; intros acc H; simpl.
  - lia.
  - inversion H as [| ? ? Hnot Hl]; subst.
    rewrite (IH _ Hl). unfold add. destruct (has acc a) eqn:E; simpl.
    + reflexivity.
    + rewrite length_app. simpl.
      assert (Hf : filter (fun x => negb (has (acc ++ [a]) x)) l
                   = filter (fun x => negb (has acc x)) l).
      { apply filter_ext_in. intros x Hx. f_equal.
        destruct (has acc x) eqn:E1.
        - apply has_In. apply in_or_app. left. now apply has_In.
        - apply has_false. rewrite in_app_iff. simpl.
          apply has_false in E1. intros [H1 | [<- | []]]; contradiction. }
      rewrite Hf. lia.
Qed.

Lemma length_filter_split (f : string -> bool) (l : list string) :
  length (filter f l) + length (filter (fun x => negb (f x)) l) = length l.
Proof.
  induction l as [| a l IH]; simpl; [reflexivity |].
  destruct (f a); simpl; lia.
Qed.

Lemma NoDup_filter_has (a b : StrSet) : NoDup a -> NoDup (filter (has b) a).
Proof. apply NoDup_filter. Qed.

(** The intersection has the same size from both sides. *)
Lemma length_common_sym (a b : StrSet) :
  NoDup a -> NoDup b ->
  length (filter (has b) a) = length (filter (has a) b).
Proof.
  intros Ha Hb. apply Nat.le_antisymm.
  - apply NoDup_incl_length; [now apply NoDup_filter |].
    intros x Hx. apply filter_In in Hx. destruct Hx as [Hx Hh].
    apply filter_In. split; [now apply has_In | now apply has_In].
  - apply NoDup_incl_length; [now apply NoDup_filter |].
    intros x Hx. apply filter_In in Hx. destruct Hx as [Hx Hh].
    apply filter_In. split; [now apply has_In | now apply has_In].
Qed.

(** Inclusion-exclusion for [new Set([...a, ...b])]. *)
Lemma size_union (a b : StrSet) :
  NoDup a -> NoDup b ->
  size (new_Set (a ++ b)) + length (filter (has a) b) = size a + size b.
Proof.
  intros Ha Hb. unfold size. rewrite new_Set_app by assumption.
  rewrite length_fold_add by assumption.
  pose proof (length_filter_split (has a) b). lia.
Qed.

Lemma size_union_sym (a b : StrSet) :
  NoDup a -> NoDup b ->
  size (new_Set (a ++ b)) = size (new_Set (b ++ a)).
Proof.
  intros Ha Hb.
  pose proof (size_union a b Ha Hb). pose proof (size_union b a Hb Ha).
  pose proof (length_common_sym a b Ha Hb). lia.
Qed.

End SetFacts.

(** ** Facts about [slice] and [sort] *)

Module ArrayFacts.
Import JS.

Lemma slice0_firstn (A : Type) (l : list A) (end_ : Z) :
  exists k, slice0 l end_ = firstn k l.
Proof. unfold slice0. eexists. reflexivity. Qed.

Lemma In_slice0 (A : Type) (l : list A) (end_ : Z) (x : A) :
  In x (slice0 l end_) -> In x l.
Proof.
  unfold slice0. intros H.
  rewrite <- (firstn_skipn (Z.to_nat
    (if (end_ <? 0)%Z
     then Z.max (Z.of_nat (length l) + end_) 0
     else Z.min end_ (Z.of_nat (length l)))) l).
  apply in_or_app. now left.
Qed.

Lemma slice0_nonneg (A : Type) (l : list A) (end_ : Z) :
  (0 <= end_)%Z -> slice0 l end_ = firstn (Z.to_nat end_) l.
Proof.
  intros H. unfold slice0.
  destruct (end_ <? 0)%Z eqn:E; [apply Z.ltb_lt in E; lia |].
  destruct (Z.le_ge_cases end_ (Z.of_nat (length l))) as [Hle | Hge].
  - now rewrite Z.min_l.
  - rewrite Z.min_r by assumption. rewrite Nat2Z.id.
    rewrite firstn_all. symmetry. apply firstn_all2. lia.
Qed.

Lemma slice0_neg (A : Type) (l : list A) (end_ : Z) :
  (end_ < 0)%Z ->
  slice0 l end_ = firstn (length l - Z.to_nat (- end_)) l.
Proof.
  intros H. unfold slice0.
  destruct (end_ <? 0)%Z eqn:E; [| apply Z.ltb_ge in E; lia].
  f_equal. lia.
Qed.

Lemma insert_by_perm (A : Type) (cmp : A -> A -> float) (x : A) (l : list A) :
  Permutation (insert_by cmp x l) (x :: l).
Proof.
  induction l as [| y l IH]; simpl.
  - apply Permutation_refl.
  - destruct (gt (cmp x y) 0%float).
    + eapply perm_trans; [apply perm_skip, IH | apply perm_swap].
    + apply Permutation_refl.
Qed.

Lemma sort_perm (A : Type) (cmp : A -> A -> float) (l : list A) :
  Permutation (sort cmp l) l.
Proof.
  induction l as [| x l IH]; simpl.
  - apply perm_nil.
  - eapply perm_trans; [apply insert_by_perm | apply perm_skip, IH].
Qed.

Lemma In_sort (A : Type) (cmp : A -> A -> float) (l : list A) (x : A) :
  In x (sort cmp l) <-> In x l.
Proof.
  split; apply Permutation_in;
    [apply sort_perm | apply Permutation_sym, sort_perm].
Qed.

End ArrayFacts.

(** ** The ranker as a filter and a map *)

Section Ranker.

Variable toLowerCase : string -> string.

Lemma fold_consider (t : Recipe) (l : list Recipe) (acc : list RecommendationScore) :
  fold_left (consider toLowerCase t) l acc
  = acc ++ map (entry toLowerCase t) (filter (passes toLowerCase t) l).
Proof.
  revert acc. induction l as [| c l IH]; intros acc; simpl.
  - now rewrite app_nil_r.
  - rewrite IH. unfold consider, passes.
    destruct (JS.gt (calculateSimilarity toLowerCase t c) JS.lit_0_1); simpl.
    + now rewrite <- app_assoc.
    + reflexivity.
Qed.

Lemma scored_eq (t : Recipe) (pool : list Recipe) :
  scored toLowerCase t pool
  = map (entry toLowerCase t) (filter (passes toLowerCase t) (candidates t pool)).
Proof. unfold scored. now rewrite fold_consider. Qed.

Lemma In_scored (t : Recipe) (pool : list Recipe) (e : RecommendationScore) :
  In e (scored toLowerCase t pool) <->
  exists c, In c pool /\ (id c =? id t)%string = false
            /\ passes toLowerCase t c = true /\ e = entry toLowerCase t c.
Proof.
  rewrite scored_eq, in_map_iff. unfold candidates. split.
  - intros [c [He Hc]]. apply filter_In in Hc. destruct Hc as [Hc Hp].
    apply filter_In in Hc. destruct Hc as [Hc Hi].
    exists c. repeat split; auto. now apply negb_true_iff in Hi.
  - intros [c [Hc [Hi [Hp He]]]]. exists c. split; [now symmetry |].
    apply filter_In. split; [| assumption].
    apply filter_In. split; [assumption | now apply negb_true_iff].
Qed.

Lemma In_getRecommendations (t : Recipe) (pool : list Recipe) (limit : Z)
      (e : RecommendationScore) :
  In e (getRecommendations toLowerCase t pool limit) ->
  exists c, In c pool /\ (id c =? id t)%string = false
            /\ passes toLowerCase t c = true /\ e = entry toLowerCase t c.
Proof.
  unfold getRecommendations. intros H.
  apply ArrayFacts.In_slice0 in H. apply ArrayFacts.In_sort in H.
  now apply In_scored.
Qed.

End Ranker.
(** ** Signs of binary64 results *)

Module FloatSign.

Import Binary64.

Lemma binary_round_aux_nonneg (mx ex : Z) (lx : location) :
  sf_nonneg (binary_round_aux prec emax false mx ex lx).
Proof.
  unfold binary_round_aux.
  destruct (shr_fexp prec emax mx ex lx) as [mrs' e'].
  destruct (shr_fexp prec emax _ e' loc_Exact) as [mrs'' e''].
  destruct (shr_m mrs''); simpl; auto.
  destruct (e'' <=? _)%Z; simpl; auto.
Qed.

Lemma binary_round_nonneg (m : positive) (e : Z) :
  sf_nonneg (binary_round prec emax false m e).
Proof.
  unfold binary_round.
  destruct (shl_align m e _) as [mz ez]. apply binary_round_aux_nonneg.
Qed.

Lemma SFmul_nonneg (x y : spec_float) :
  sf_nonneg x -> sf_nonneg y -> sf_nonneg (SF64mul x y).
Proof.
  unfold SF64mul.
  destruct x as [sx | sx | | sx mx ex], y as [sy | sy | | sy my ey];
    simpl; intros Hx Hy; subst; auto.
  apply binary_round_aux_nonneg.
Qed.

Lemma SFdiv_nonneg (x y : spec_float) :
  sf_nonneg x -> sf_nonneg y -> sf_nonneg (SF64div x y).
Proof.
  unfold SF64div.
  destruct x as [sx | sx | | sx mx ex], y as [sy | sy | | sy my ey];
    simpl; intros Hx Hy; subst; auto.
  destruct (SFdiv_core_binary prec emax (Z.pos mx) ex (Z.pos my) ey)
    as [[mz ez] lz].
  apply binary_round_aux_nonneg.
Qed.

Lemma SFadd_nonneg (x y : spec_float) :
  sf_nonneg x -> sf_nonneg y -> sf_nonneg (SF64add x y).
Proof.
  unfold SF64add.
  destruct x as [sx | sx | | sx mx ex], y as [sy | sy | | sy my ey];
    simpl; intros Hx Hy; subst; simpl; auto.
  apply binary_round_nonneg.
Qed.

Lemma nonneg_mul (x y : float) : nonneg x -> nonneg y -> nonneg (x * y)%float.
Proof. unfold nonneg. rewrite FloatAxioms.mul_spec. apply SFmul_nonneg. Qed.

Lemma nonneg_div (x y : float) : nonneg x -> nonneg y -> nonneg (x / y)%float.
Proof. unfold nonneg. rewrite FloatAxioms.div_spec. apply SFdiv_nonneg. Qed.

Lemma nonneg_add (x y : float) : nonneg x -> nonneg y -> nonneg (x + y)%float.
Proof. unfold nonneg. rewrite FloatAxioms.add_spec. apply SFadd_nonneg. Qed.

Lemma nonneg_of_uint63 (n : int) : nonneg (of_uint63 n).
Proof.
  unfold nonneg. rewrite FloatAxioms.of_uint63_spec.
  pose proof (Uint63.to_Z_bounded n) as Hb.
  destruct (Uint63.to_Z n) as [| p | p]; simpl.
  - reflexivity.
  - apply binary_round_nonneg.
  - lia.
Qed.

Lemma nonneg_of_size (n : nat) : nonneg (JS.of_size n).
Proof. apply nonneg_of_uint63. Qed.

(** Adding [+0] changes nothing, except for [-0]. *)
Lemma add_zero_r (x : float) : nonneg x -> (x + 0)%float = x.
Proof.
  unfold nonneg. intros H. apply Prim2SF_inj. rewrite FloatAxioms.add_spec.
  change (Prim2SF 0%float) with (S754_zero false).
  destruct (Prim2SF x) as [s | s | | s m e]; simpl in *; subst; reflexivity.
Qed.

Lemma SFmul_comm (x y : spec_float) : SF64mul x y = SF64mul y x.
Proof.
  unfold SF64mul.
  destruct x as [sx | sx | | sx mx ex], y as [sy | sy | | sy my ey];
    simpl; try reflexivity; try (now rewrite xorb_comm).
  now rewrite xorb_comm, Pos.mul_comm, Z.add_comm.
Qed.

Lemma mul_comm (x y : float) : (x * y)%float = (y * x)%float.
Proof. apply Prim2SF_inj. rewrite !FloatAxioms.mul_spec. apply SFmul_comm. Qed.

Lemma SFdiv_zero_l (y : spec_float) :
  sf_null_signed (SF64div (S754_zero false) y).
Proof.
  unfold sf_null_signed, SF64div.
  destruct y as [sy | sy | | sy my ey]; simpl; eauto.
Qed.

Lemma SFmul_null (x y : spec_float) (m : positive) (e : Z) :
  sf_null_signed x -> y = S754_finite false m e ->
  sf_null_signed (SF64mul x y).
Proof.
  unfold sf_null_signed, SF64mul.
  intros [[s ->] | ->] ->; simpl; eauto.
Qed.

Lemma SFadd_null (x y : spec_float) :
  sf_null x -> sf_null_signed y -> sf_null (SF64add x y).
Proof.
  unfold sf_null, sf_null_signed, SF64add.
  intros [-> | ->] [[s ->] | ->]; simpl; auto.
  destruct s; auto.
Qed.

Lemma null_not_gt (x : float) :
  sf_null (Prim2SF x) -> JS.gt x JS.lit_0_1 = false.
Proof.
  unfold JS.gt. rewrite FloatAxioms.ltb_spec.
  intros [-> | ->]; reflexivity.
Qed.

End FloatSign.
(** ** Binary64 arithmetic: rounding, values and order *)

Module Binary64Facts.

Import Binary64.
Local Open Scope Z_scope.

(** *** The format *)

Lemma fexp_eq (e : Z) : fexp prec emax e = Z.max (e - 53) (-1074).
Proof. reflexivity. Qed.

(** *** Digits *)

Lemma digits2_pos_bounds (m : positive) :
  2 ^ (Zpos (digits2_pos m) - 1) <= Zpos m < 2 ^ Zpos (digits2_pos m).
Proof.
  induction m as [p IH | p IH |]; simpl digits2_pos.
  - rewrite Pos2Z.inj_succ.
    replace (Z.succ (Zpos (digits2_pos p)) - 1)
      with (Z.succ (Zpos (digits2_pos p) - 1)) by lia.
    rewrite !Z.pow_succ_r by lia. lia.
  - rewrite Pos2Z.inj_succ.
    replace (Z.succ (Zpos (digits2_pos p)) - 1)
      with (Z.succ (Zpos (digits2_pos p) - 1)) by lia.
    rewrite !Z.pow_succ_r by lia. lia.
  - simpl. lia.
Qed.

Lemma Zdigits2_nonneg (m : Z) : 0 <= Zdigits2 m.
Proof. destruct m; simpl; lia. Qed.

Lemma Zdigits2_bounds (m : Z) :
  0 < m -> 2 ^ (Zdigits2 m - 1) <= m < 2 ^ Zdigits2 m.
Proof.
  destruct m as [| p | p]; try lia. intros _. apply digits2_pos_bounds.
Qed.

(** [m] has at most [k] digits exactly when it is below [2 ^ k]. *)
Lemma Zdigits2_le (m k : Z) : 0 <= m -> 0 <= k -> m < 2 ^ k -> Zdigits2 m <= k.
Proof.
  intros Hm Hk H. destruct (Z.eq_dec m 0) as [-> | Hne]; [simpl; lia |].
  pose proof (Zdigits2_bounds m ltac:(lia)) as [Hlo _].
  destruct (Z_le_gt_dec (Zdigits2 m) k) as [Hle | Hgt]; [assumption |].
  exfalso.
  assert (2 ^ k <= 2 ^ (Zdigits2 m - 1)) by (apply Z.pow_le_mono_r; lia).
  lia.
Qed.

Lemma Zdigits2_ge (m k : Z) : 0 <= k -> 2 ^ k <= m -> k + 1 <= Zdigits2 m.
Proof.
  intros Hk H. assert (0 < m) by (pose proof (Z.pow_pos_nonneg 2 k); lia).
  pose proof (Zdigits2_bounds m ltac:(lia)) as [_ Hhi].
  pose proof (Zdigits2_nonneg m).
  destruct (Z_le_gt_dec (k + 1) (Zdigits2 m)) as [Hle | Hgt]; [assumption |].
  exfalso.
  assert (2 ^ Zdigits2 m <= 2 ^ k) by (apply Z.pow_le_mono_r; lia).
  lia.
Qed.

(** *** Shifting right *)

Lemma iter_pos_inv (A : Type) (f : A -> A) (P : Z -> A -> Prop) :
  (forall k x, 0 <= k -> P k x -> P (k + 1) (f x)) ->
  forall p k x, 0 <= k -> P k x -> P (k + Zpos p) (SpecFloat.iter_pos f p x).
Proof.
  intros Hstep. induction p as [p IH | p IH |]; intros k x Hk HP; simpl.
  - replace (k + Zpos p~1) with (k + 1 + Zpos p + Zpos p) by lia.
    apply IH; [lia |]. apply IH; [lia |]. now apply Hstep.
  - replace (k + Zpos p~0) with (k + Zpos p + Zpos p) by lia.
    apply IH; [lia |]. now apply IH.
  - now apply Hstep.
Qed.

Lemma shifted_start (m : Z) (r0 s0 : bool) :
  0 <= m -> shifted m r0 0 {| shr_m := m; shr_r := r0; shr_s := s0 |}.
Proof.
  intros Hm. split; [assumption |]. exists 0. simpl. repeat split; try lia.
  intros ->. now left.
Qed.

Lemma shifted_step (m : Z) (r0 : bool) (k : Z) (mrs : shr_record) :
  0 <= k -> shifted m r0 k mrs -> shifted m r0 (k + 1) (shr_1 mrs).
Proof.
  intros Hk [Hm [rem [Heq [Hrem Hr]]]].
  destruct mrs as [m' r s]. cbn [shr_m shr_r shr_s] in *.
  assert (Hp : 2 ^ (k + 1) = 2 * 2 ^ k) by (rewrite Z.pow_add_r; lia).
  pose proof (Z.pow_pos_nonneg 2 k ltac:(lia) Hk) as Hpos.
  destruct m' as [| [p | p |] | p]; unfold shifted, shr_1;
    cbn [shr_m shr_r shr_s];
    try pose proof (Pos2Z.inj_xI p) as Hx; try pose proof (Pos2Z.inj_xO p) as Hy;
    try lia.
  - split; [lia |]. exists rem. repeat split; try nia; try discriminate.
  - split; [lia |]. exists (rem + 2 ^ k). repeat split; try nia;
      try (intros _; right; lia).
  - split; [lia |]. exists rem. repeat split; try nia; try discriminate.
  - split; [lia |]. exists (rem + 2 ^ k). repeat split; try nia;
      try (intros _; right; lia).
Qed.

Lemma shifted_iter (m : Z) (r0 : bool) (p : positive) (mrs : shr_record) :
  shifted m r0 0 mrs -> shifted m r0 (Zpos p) (SpecFloat.iter_pos shr_1 p mrs).
Proof.
  intros H.
  apply (iter_pos_inv _ shr_1 (shifted m r0) (shifted_step m r0) p 0 mrs
           ltac:(lia) H).

Qed.

(** *** Rounding *)

Lemma round_nearest_even_cases (m : Z) (mrs : shr_record) :
  shr_m mrs = m ->
  round_nearest_even m (loc_of_shr_record mrs) = m
  \/ (round_nearest_even m (loc_of_shr_record mrs) = m + 1
      /\ shr_r mrs = true).
Proof.
  intros <-. destruct mrs as [m r s]. cbn [shr_m shr_r].
  destruct r, s; simpl; auto. destruct (Z.even m); auto.
Qed.

Lemma shr_fexp_shifted (mx ex : Z) (lx : location) :
  0 <= mx -> ex <= fexp prec emax (Zdigits2 mx + ex) ->
  exists mrs,
    shr_fexp prec emax mx ex lx = (mrs, fexp prec emax (Zdigits2 mx + ex))
    /\ shifted mx (shr_r (shr_record_of_loc mx lx))
               (fexp prec emax (Zdigits2 mx + ex) - ex) mrs.
Proof.
  intros Hm He. unfold shr_fexp, shr.
  set (e1 := fexp prec emax (Zdigits2 mx + ex)) in *.
  assert (Hs : shifted mx (shr_r (shr_record_of_loc mx lx)) 0
                       (shr_record_of_loc mx lx)).
  { destruct lx as [| []]; simpl; now apply shifted_start. }
  destruct (e1 - ex) as [| p | p] eqn:En; try lia.
  - exists (shr_record_of_loc mx lx). split; [f_equal; lia | assumption].
  - exists (SpecFloat.iter_pos shr_1 p (shr_record_of_loc mx lx)).
    split; [f_equal; lia | now apply shifted_iter].
Qed.

Lemma shr_fexp_second (m2 e1 : Z) :
  -1074 <= e1 -> 0 <= m2 <= 2 ^ 53 ->
  exists mrs e,
    shr_fexp prec emax m2 e1 loc_Exact = (mrs, e)
    /\ ((m2 = 2 ^ 53 /\ shr_m mrs = 2 ^ 52 /\ e = e1 + 1)
        \/ (m2 < 2 ^ 53 /\ shr_m mrs = m2 /\ e = e1)).
Proof.
  intros He Hm. destruct (Z.eq_dec m2 (2 ^ 53)) as [-> | Hne].
  - unfold shr_fexp. change (Zdigits2 (2 ^ 53)) with 54.
    rewrite fexp_eq.
    replace (Z.max (54 + e1 - 53) (-1074) - e1) with 1 by lia.
    eexists. eexists. split; [reflexivity |].
    left. simpl. repeat split; lia.
  - unfold shr_fexp, shr. rewrite fexp_eq.
    assert (Hd : Zdigits2 m2 <= 53) by (apply Zdigits2_le; lia).
    destruct (Z.max (Zdigits2 m2 + e1 - 53) (-1074) - e1) as [| p | p] eqn:En;
      try lia; eexists; eexists; (split; [reflexivity |]);
      right; simpl; repeat split; lia.
Qed.

Lemma round_aux_spec (sx : bool) (mx ex : Z) (lx : location) :
  0 <= mx -> ex <= fexp prec emax (Zdigits2 mx + ex) ->
  exists m1 m2 rem,
    let e1 := fexp prec emax (Zdigits2 mx + ex) in
    mx = m1 * 2 ^ (e1 - ex) + rem /\ 0 <= rem < 2 ^ (e1 - ex)
    /\ 0 <= m1 < 2 ^ 53 /\ (-1074 < e1 -> 2 ^ 52 <= m1)
    /\ (m2 = m1 \/ (m2 = m1 + 1 /\ (lx = loc_Exact -> 2 ^ (e1 - ex) <= 2 * rem)))
    /\ binary_round_aux prec emax sx mx ex lx = pack sx m2 e1.
Proof.
  intros Hm He.
  destruct (shr_fexp_shifted mx ex lx Hm He) as [mrs [Hshr [Hm1 [rem [Heq [Hrem Hr]]]]]].
  set (e1 := fexp prec emax (Zdigits2 mx + ex)) in *.
  set (n := e1 - ex) in *.
  assert (Hn : 0 <= n) by (unfold n; lia).
  assert (He1 : -1074 <= e1) by (unfold e1; rewrite fexp_eq; lia).
  pose proof (Z.pow_pos_nonneg 2 n ltac:(lia) Hn) as Hpn.
  set (m1 := shr_m mrs) in *.
  (* bounds on the shifted mantissa *)
  assert (Hhi : m1 < 2 ^ 53).
  { destruct (Z.eq_dec mx 0) as [Hz | Hnz]; [nia |].
    pose proof (Zdigits2_bounds mx ltac:(lia)) as [_ Hd].
    pose proof (Zdigits2_nonneg mx).
    assert (Hle : Zdigits2 mx <= 53 + n).
    { unfold n, e1. rewrite fexp_eq. lia. }
    assert (2 ^ Zdigits2 mx <= 2 ^ (53 + n)) by (apply Z.pow_le_mono_r; lia).
    rewrite Z.pow_add_r in * by lia. nia. }
  assert (Hlo : -1074 < e1 -> 2 ^ 52 <= m1).
  { intros Hgt.
    assert (He1' : e1 = Zdigits2 mx + ex - 53)
      by (unfold e1 in *; rewrite fexp_eq in *; lia).
    destruct (Z.eq_dec mx 0) as [Hz | Hnz].
    { assert (Hd0 : Zdigits2 mx = 0) by (rewrite Hz; reflexivity).
      unfold e1 in Hgt, He1'. rewrite fexp_eq in Hgt. lia. }
    pose proof (Zdigits2_bounds mx ltac:(lia)) as [Hd _].
    replace (Zdigits2 mx - 1) with (52 + n) in Hd by (unfold n; lia).
    rewrite Z.pow_add_r in Hd by lia. nia. }
  pose proof (round_nearest_even_cases m1 mrs eq_refl) as Hrne.
  set (m2 := round_nearest_even m1 (loc_of_shr_record mrs)) in *.
  exists m1, m2, rem. cbv zeta. fold e1. fold n.
  repeat split; try lia.
  - destruct Hrne as [H2 | [H2 Hrt]]; [now left | right].
    split; [assumption |]. intros ->.
    destruct (Hr Hrt) as [[_ Hr0] | Hge]; [discriminate | assumption].
  - unfold binary_round_aux. rewrite Hshr. fold m1. fold m2.
    destruct (shr_fexp_second m2 e1 He1 ltac:(lia)) as [mrs2 [e2 [H2e H2]]].
    rewrite H2e. unfold pack.
    destruct H2 as [[Hm2 [Hs He2]] | [Hm2 [Hs He2]]]; rewrite Hs; subst e2.
    + rewrite Hm2. reflexivity.
    + destruct (Z.eqb_spec m2 0) as [-> | Hnz]; [reflexivity |].
      destruct (Z.eqb_spec m2 (2 ^ 53)) as [Hx | _]; [lia |].
      destruct m2 as [| p | p]; try lia. reflexivity.
Qed.

(** *** Real values *)

Local Open Scope R_scope.

Lemma bpow_pos (e : Z) : 0 < bpow e.
Proof. apply powerRZ_lt. lra. Qed.

Lemma bpow_add (a b : Z) : bpow (a + b) = bpow a * bpow b.
Proof. apply powerRZ_add. lra. Qed.

Lemma bpow_IZR (k : Z) : (0 <= k)%Z -> bpow k = IZR (2 ^ k).
Proof.
  intros Hk. unfold bpow. rewrite <- (Z2Nat.id k Hk) at 1.
  rewrite <- pow_powerRZ, pow_IZR. now rewrite Z2Nat.id.
Qed.

Lemma bpow_split (a b : Z) :
  (b <= a)%Z -> bpow a = IZR (2 ^ (a - b)) * bpow b.
Proof.
  intros H. rewrite <- bpow_IZR by lia. rewrite <- bpow_add. f_equal. lia.
Qed.

Lemma bpow_le (a b : Z) : (a <= b)%Z -> bpow a <= bpow b.
Proof.
  intros H. rewrite (bpow_split b a H).
  assert (1 <= 2 ^ (b - a))%Z by (pose proof (Z.pow_pos_nonneg 2 (b - a)); lia).
  apply IZR_le in H0. pose proof (bpow_pos a). nra.
Qed.

Lemma valid_canonic (s : bool) (m : positive) (e : Z) :
  valid_binary (S754_finite s m e) = true -> canonic (Zpos m) e.
Proof.
  unfold SpecFloat.valid_binary, SpecFloat.bounded, SpecFloat.canonical_mantissa.
  rewrite andb_true_iff, Z.eqb_eq, Z.leb_le, fexp_eq.
  change (emax - prec)%Z with 971%Z. intros [Hc He].
  pose proof (digits2_pos_bounds m) as [Hlo Hhi].
  assert (Hd : (Zpos (digits2_pos m) <= 53)%Z) by lia.
  assert (2 ^ Zpos (digits2_pos m) <= 2 ^ 53)%Z
    by (apply Z.pow_le_mono_r; lia).
  repeat split; try lia.
  intros Hgt.
  assert (Hd' : Zpos (digits2_pos m) = 53%Z) by lia.
  rewrite Hd' in Hlo. exact Hlo.
Qed.

(** The packed result stays below a float [mf * 2 ^ ef] as soon as the
    rounded mantissa does when both are written with the exponent [ef]. *)
Lemma pack_fin_le (m1 m2 e1 mf ef : Z) :
  (0 <= m1 < 2 ^ 53)%Z -> (-1074 <= e1)%Z -> (-1074 < e1 -> 2 ^ 52 <= m1)%Z ->
  (m1 <= m2 <= m1 + 1)%Z ->
  canonic mf ef ->
  (ef <= e1 -> m2 * 2 ^ (e1 - ef) <= mf)%Z ->
  fin_le (pack false m2 e1) (F2R mf ef).
Proof.
  intros Hm1 He1 Hlo Hm2 [Hmf [Hef Hnf]] Hle.
  destruct (Z_le_gt_dec ef e1) as [Hc | Hc].
  - (* the exponents agree; a larger one would exceed the bound *)
    specialize (Hle Hc).
    assert (HeqE : e1 = ef).
    { destruct (Z.eq_dec e1 ef) as [E | E]; [assumption | exfalso].
      assert (2 <= 2 ^ (e1 - ef))%Z.
      { change 2%Z with (2 ^ 1)%Z at 1. apply Z.pow_le_mono_r; lia. }
      assert (2 ^ 52 <= m1)%Z by (apply Hlo; lia). nia. }
    rewrite HeqE, Z.sub_diag, Z.pow_0_r, Z.mul_1_r in Hle.
    unfold pack, fin_le.
    destruct (Z.eqb_spec m2 0) as [-> | Hnz]; [now left | right].
    destruct (Z.eqb_spec m2 (2 ^ 53)) as [Hx | _]; [lia |].
    destruct (Z.leb_spec e1 971) as [_ | Hbig]; [| lia].
    destruct m2 as [| p | p]; try lia.
    exists p, e1. split; [reflexivity |]. split; [unfold canonic; lia |].
    unfold F2R. rewrite HeqE.
    apply Rmult_le_compat_r; [pose proof (bpow_pos ef); lra | now apply IZR_le].
  - (* the result's exponent is below that of the bound *)
    assert (Hle' : (e1 <= ef)%Z) by lia.
    pose proof (bpow_split ef e1 Hle') as Hs.
    pose proof (bpow_pos e1) as Hp.
    set (K := (2 ^ (ef - e1))%Z) in *.
    assert (HK : (2 <= K)%Z).
    { unfold K. change 2%Z with (2 ^ 1)%Z at 1.
      apply Z.pow_le_mono_r; lia. }
    assert (Hmf52 : (2 ^ 52 <= mf)%Z) by (apply Hnf; lia).
    assert (Hval : (m2 <= mf * K)%Z).
    { assert (2 ^ 52 * 2 <= mf * K)%Z by (apply Z.mul_le_mono_nonneg; lia).
      lia. }
    unfold pack, fin_le.
    destruct (Z.eqb_spec m2 0) as [-> | Hnz]; [now left | right].
    destruct (Z.eqb_spec m2 (2 ^ 53)) as [Hx | Hx].
    + destruct (Z.leb_spec (e1 + 1) 971) as [_ | Hbig]; [| lia].
      exists (Z.to_pos (2 ^ 52)), (e1 + 1)%Z.
      change (Z.pos (Z.to_pos (2 ^ 52))) with (2 ^ 52)%Z.
      split; [reflexivity |]. split; [unfold canonic; lia |].
      unfold F2R. rewrite Hs, bpow_add.
      replace (bpow 1) with 2 by (unfold bpow; simpl; lra).
      apply IZR_le in Hval. rewrite mult_IZR, Hx in Hval.
      replace (IZR (2 ^ 53)) with (IZR (2 ^ 52) * 2) in Hval
        by (rewrite <- mult_IZR; reflexivity).
      nra.
    + destruct (Z.leb_spec e1 971) as [_ | Hbig]; [| lia].
      destruct m2 as [| p | p]; try lia.
      exists p, e1. split; [reflexivity |]. split; [unfold canonic; lia |].
      unfold F2R. rewrite Hs. apply IZR_le in Hval. rewrite mult_IZR in Hval.
      nra.
Qed.

(** Rounding an exact value that lies below the middle of a float and its
    successor gives at most that float. *)
Lemma round_exact_fin_le (mx ex mf ef : Z) :
  (0 <= mx)%Z -> (ex <= fexp prec emax (Zdigits2 mx + ex))%Z ->
  canonic mf ef ->
  2 * F2R mx ex < (2 * IZR mf + 1) * bpow ef ->
  fin_le (binary_round_aux prec emax false mx ex loc_Exact) (F2R mf ef).
Proof.
  intros Hm He Hc Hlt.
  destruct (round_aux_spec false mx ex loc_Exact Hm He)
    as [m1 [m2 [rem [Heq [Hrem [Hm1 [Hlo [Hm2 ->]]]]]]]].
  set (e1 := fexp prec emax (Zdigits2 mx + ex)) in *.
  assert (He1 : (-1074 <= e1)%Z) by (unfold e1; rewrite fexp_eq; lia).
  apply (pack_fin_le m1 m2 e1 mf ef); auto.
  - destruct Hm2 as [-> | [-> _]]; lia.
  - intros Hle. destruct Hc as [Hmf [Hef Hnf]].
    pose proof (bpow_split e1 ex He) as HB1.
    pose proof (bpow_split e1 ef Hle) as HB2.
    pose proof (bpow_pos ex) as HP. pose proof (bpow_pos ef) as HQ.
    set (N := (2 ^ (e1 - ex))%Z) in *. set (K := (2 ^ (e1 - ef))%Z) in *.
    assert (HK : (1 <= K)%Z)
      by (unfold K; pose proof (Z.pow_pos_nonneg 2 (e1 - ef)); lia).
    unfold F2R in Hlt. rewrite Heq, plus_IZR, mult_IZR in Hlt.
    assert (Hrem0 : 0 <= IZR rem) by (apply IZR_le; lia).
    assert (Hm10 : 0 <= IZR m1) by (apply IZR_le; lia).
    assert (HK0 : 1 <= IZR K) by (apply IZR_le; lia).
    assert (Heq2 : IZR N * bpow ex = IZR K * bpow ef) by congruence.
    destruct Hm2 as [-> | [-> Hhalf]].
    + assert (2 * (m1 * K) < 2 * mf + 1)%Z; [| lia].
      apply lt_IZR. rewrite plus_IZR, !mult_IZR.
      apply (Rmult_lt_reg_r (bpow ef)); [assumption |].
      replace (2 * (IZR m1 * IZR K) * bpow ef)
        with (2 * (IZR m1 * (IZR N * bpow ex))) by (rewrite Heq2; ring).
      nra.
    + specialize (Hhalf eq_refl). apply IZR_le in Hhalf.
      rewrite mult_IZR in Hhalf. fold N in Hhalf.
      assert (H3 : ((2 * m1 + 1) * K < 2 * mf + 1)%Z).
      { apply lt_IZR. rewrite !plus_IZR, !mult_IZR, plus_IZR, mult_IZR.
        apply (Rmult_lt_reg_r (bpow ef)); [assumption |].
        replace ((2 * IZR m1 + 1) * IZR K * bpow ef)
          with ((2 * IZR m1 + 1) * (IZR N * bpow ex)) by (rewrite Heq2; ring).
        nra. }
      destruct (Z.eq_dec e1 ef) as [E | E].
      * assert (HK1 : K = 1%Z)
          by (unfold K; replace (e1 - ef)%Z with 0%Z by lia; reflexivity).
        rewrite HK1 in H3 |- *. lia.
      * exfalso.
        assert (2 <= K)%Z.
        { unfold K. change 2%Z with (2 ^ 1)%Z at 1.
          apply Z.pow_le_mono_r; lia. }
        assert (2 ^ 52 <= m1)%Z by (apply Hlo; lia). nia.
Qed.

(** Rounding a value whose truncation lies strictly below a float gives at
    most that float, whatever was truncated. *)
Lemma round_any_fin_le (mx ex : Z) (lx : location) (mf ef : Z) :
  (0 <= mx)%Z -> (ex <= fexp prec emax (Zdigits2 mx + ex))%Z ->
  canonic mf ef ->
  F2R mx ex < F2R mf ef ->
  fin_le (binary_round_aux prec emax false mx ex lx) (F2R mf ef).
Proof.
  intros Hm He Hc Hlt.
  destruct (round_aux_spec false mx ex lx Hm He)
    as [m1 [m2 [rem [Heq [Hrem [Hm1 [Hlo [Hm2 ->]]]]]]]].
  set (e1 := fexp prec emax (Zdigits2 mx + ex)) in *.
  assert (He1 : (-1074 <= e1)%Z) by (unfold e1; rewrite fexp_eq; lia).
  apply (pack_fin_le m1 m2 e1 mf ef); auto.
  - destruct Hm2 as [-> | [-> _]]; lia.
  - intros Hle. destruct Hc as [Hmf [Hef Hnf]].
    pose proof (bpow_split e1 ex He) as HB1.
    pose proof (bpow_split e1 ef Hle) as HB2.
    pose proof (bpow_pos ex) as HP. pose proof (bpow_pos ef) as HQ.
    set (N := (2 ^ (e1 - ex))%Z) in *. set (K := (2 ^ (e1 - ef))%Z) in *.
    assert (HK : (1 <= K)%Z)
      by (unfold K; pose proof (Z.pow_pos_nonneg 2 (e1 - ef)); lia).
    unfold F2R in Hlt. rewrite Heq, plus_IZR, mult_IZR in Hlt.
    assert (Hrem0 : 0 <= IZR rem) by (apply IZR_le; lia).
    assert (Heq2 : IZR N * bpow ex = IZR K * bpow ef) by congruence.
    assert (H3 : (m1 * K < mf)%Z).
    { apply lt_IZR. rewrite mult_IZR.
      apply (Rmult_lt_reg_r (bpow ef)); [assumption |].
      replace (IZR m1 * IZR K * bpow ef)
        with (IZR m1 * (IZR N * bpow ex)) by (rewrite Heq2; ring).
      nra. }
    destruct (Z.eq_dec e1 ef) as [E | E].
    + assert (HK1 : K = 1%Z)
        by (unfold K; replace (e1 - ef)%Z with 0%Z by lia; reflexivity).
      rewrite HK1 in H3 |- *.
      destruct Hm2 as [-> | [-> _]]; lia.
    + exfalso.
      assert (2 <= K)%Z.
      { unfold K. change 2%Z with (2 ^ 1)%Z at 1.
        apply Z.pow_le_mono_r; lia. }
      assert (2 ^ 52 <= m1)%Z by (apply Hlo; lia). nia.
Qed.

(** *** Aligning *)

Lemma Zdigits2_unique (m d : Z) :
  (0 < d)%Z -> (2 ^ (d - 1) <= m < 2 ^ d)%Z -> Zdigits2 m = d.
Proof.
  intros Hd [Hlo Hhi]. apply Z.le_antisymm.
  - pose proof (Z.pow_pos_nonneg 2 (d - 1)). apply Zdigits2_le; lia.
  - replace d with (d - 1 + 1)%Z at 1 by lia. apply Zdigits2_ge; lia.
Qed.

Lemma Zdigits2_shift (m k : Z) :
  (0 < m)%Z -> (0 <= k)%Z -> Zdigits2 (m * 2 ^ k) = (Zdigits2 m + k)%Z.
Proof.
  intros Hm Hk. pose proof (Zdigits2_bounds m Hm) as [Hlo Hhi].
  assert (Hd : (0 < Zdigits2 m)%Z) by (destruct m; simpl; lia).
  pose proof (Z.pow_pos_nonneg 2 k ltac:(lia) Hk) as Hp.
  apply Zdigits2_unique; [lia |].
  replace (Zdigits2 m + k - 1)%Z with ((Zdigits2 m - 1) + k)%Z by lia.
  rewrite !Z.pow_add_r by lia. nia.
Qed.

Lemma iter_xO (m d : positive) :
  Zpos (Pos.iter xO m d) = (Zpos m * 2 ^ Zpos d)%Z.
Proof.
  apply (Pos.iter_ind _ xO m (fun p a => Zpos a = (Zpos m * 2 ^ Zpos p)%Z)).
  - rewrite Pos2Z.inj_xO. rewrite Z.pow_1_r. lia.
  - intros p a IH. rewrite Pos2Z.inj_xO, IH, Pos2Z.inj_succ.
    rewrite Z.pow_succ_r by lia. lia.
Qed.

Lemma shl_align_spec (m : positive) (e e' : Z) :
  snd (shl_align m e e') = Z.min e e'
  /\ Zpos (fst (shl_align m e e')) = (Zpos m * 2 ^ (e - Z.min e e'))%Z.
Proof.
  unfold shl_align. destruct (e' - e)%Z as [| p | p] eqn:E; simpl fst; simpl snd.
  - rewrite Z.min_l by lia. rewrite Z.sub_diag. simpl. lia.
  - rewrite Z.min_l by lia. rewrite Z.sub_diag. simpl. lia.
  - rewrite Z.min_r by lia. rewrite iter_xO.
    replace (e - e')%Z with (Zpos p) by lia. lia.
Qed.

(** [binary_round] rounds the same value, written with an exponent that
    suits [binary_round_aux]. *)
Lemma binary_round_eq (sx : bool) (m : positive) (e : Z) :
  exists mz ez,
    binary_round prec emax sx m e
    = binary_round_aux prec emax sx mz ez loc_Exact
    /\ (0 < mz)%Z
    /\ ez = Z.min e (fexp prec emax (Zdigits2 (Zpos m) + e))
    /\ mz = (Zpos m * 2 ^ (e - ez))%Z
    /\ (ez <= fexp prec emax (Zdigits2 mz + ez))%Z.
Proof.
  unfold binary_round.
  pose proof (shl_align_spec m e (fexp prec emax (Zpos (digits2_pos m) + e)))
    as [Hs Hf].
  destruct (shl_align m e (fexp prec emax (Zpos (digits2_pos m) + e)))
    as [mz ez]. cbn [fst snd] in Hs, Hf.
  exists (Zpos mz), ez. split; [reflexivity |]. split; [lia |].
  split; [exact Hs |]. rewrite <- Hs in Hf. split; [exact Hf |].
  rewrite Hf, Zdigits2_shift by lia.
  replace (Zdigits2 (Zpos m) + (e - ez) + ez)%Z
    with (Zpos (digits2_pos m) + e)%Z
    by (change (Zdigits2 (Zpos m)) with (Zpos (digits2_pos m)); lia).
  lia.
Qed.

Lemma F2R_shift (m e k : Z) :
  (k <= e)%Z -> F2R (m * 2 ^ (e - k)) k = F2R m e.
Proof.
  intros H. unfold F2R. rewrite mult_IZR, (bpow_split e k H). ring.
Qed.

(** A value that fits the format is rounded to itself. *)
Lemma round_representable (sx : bool) (mx ex : Z) :
  (0 < mx)%Z -> ex = fexp prec emax (Zdigits2 mx + ex) -> (ex <= 971)%Z ->
  binary_round_aux prec emax sx mx ex loc_Exact
  = S754_finite sx (Z.to_pos mx) ex.
Proof.
  intros Hm He Hle.
  destruct (round_aux_spec sx mx ex loc_Exact ltac:(lia) ltac:(lia))
    as [m1 [m2 [rem [Heq [Hrem [Hm1 [Hlo [Hm2 ->]]]]]]]].
  cbv zeta in *. rewrite <- He in *. rewrite Z.sub_diag, Z.pow_0_r in *.
  assert (Hm2' : m2 = mx).
  { destruct Hm2 as [-> | [-> H]]; [lia |]. specialize (H eq_refl). lia. }
  rewrite Hm2'. unfold pack.
  destruct (Z.eqb_spec mx 0) as [| _]; [lia |].
  destruct (Z.eqb_spec mx (2 ^ 53)) as [| _]; [lia |].
  destruct (Z.leb_spec ex 971) as [_ |]; [reflexivity | lia].
Qed.

(** *** Integers as floats *)

Lemma Prim2SF_canonic (x : float) (s : bool) (m : positive) (e : Z) :
  Prim2SF x = S754_finite s m e -> canonic (Zpos m) e.
Proof.
  intros H. apply (valid_canonic s). rewrite <- H. apply Prim2SF_valid.
Qed.

(** An integer below [2 ^ 53] is a float, exactly. *)
Lemma of_Z_value (z : Z) :
  (0 < z < 2 ^ 53)%Z ->
  exists m e,
    Prim2SF (of_uint63 (Uint63.of_Z z)) = S754_finite false m e
    /\ canonic (Zpos m) e /\ (2 ^ 52 <= Zpos m)%Z /\ (-52 <= e <= 0)%Z
    /\ F2R (Zpos m) e = IZR z.
Proof.
  intros Hz. rewrite FloatAxioms.of_uint63_spec, Uint63.of_Z_spec.
  rewrite Z.mod_small
    by (change Uint63.wB with (2 ^ 63)%Z;
        assert (2 ^ 53 < 2 ^ 63)%Z by reflexivity; lia).
  destruct z as [| p | p]; try lia. unfold binary_normalize.
  destruct (binary_round_eq false p 0) as [mz [ez [Hr [Hmz [Hez [Hmz' Hpre]]]]]].
  rewrite Hr. clear Hr.
  pose proof (Zdigits2_bounds (Zpos p) ltac:(lia)) as [Hlo Hhi].
  set (d := Zdigits2 (Zpos p)) in *.
  assert (Hd1 : (1 <= d)%Z) by (unfold d; simpl; lia).
  assert (Hd53 : (d <= 53)%Z) by (apply Zdigits2_le; lia).
  rewrite fexp_eq in Hez.
  assert (Hez' : ez = (d - 53)%Z) by lia.
  assert (Hdz : Zdigits2 mz = 53%Z).
  { rewrite Hmz', Zdigits2_shift by lia. fold d. lia. }
  pose proof (Zdigits2_bounds mz Hmz) as [Hlz Hhz]. rewrite Hdz in Hlz, Hhz.
  rewrite round_representable; try lia.
  - exists (Z.to_pos mz), ez. rewrite Z2Pos.id by lia.
    split; [reflexivity |]. split; [unfold canonic; lia |].
    split; [exact Hlz |]. split; [lia |].
    rewrite Hmz'. rewrite F2R_shift by lia. unfold F2R, bpow. simpl. ring.
  - rewrite Hdz, fexp_eq. lia.
Qed.

(** *** Comparing *)

Lemma SFcompare_canonic (m1 m2 : positive) (e1 e2 : Z) :
  canonic (Zpos m1) e1 -> canonic (Zpos m2) e2 ->
  SFcompare (S754_finite false m1 e1) (S754_finite false m2 e2)
  = Some (aligned (Zpos m1) e1 (Z.min e1 e2)
          ?= aligned (Zpos m2) e2 (Z.min e1 e2))%Z.
Proof.
  intros [Hm1 [He1 Hn1]] [Hm2 [He2 Hn2]]. unfold aligned. simpl SFcompare.
  f_equal. destruct (Z.compare_spec e1 e2) as [E | E | E].
  - subst e2. rewrite Z.min_id, Z.sub_diag, Z.pow_0_r, !Z.mul_1_r.
    rewrite Pos.compare_cont_spec. change (Z.pos m1 ?= Z.pos m2)%Z with (m1 ?= m2)%positive.
    destruct (m1 ?= m2)%positive; reflexivity.
  - rewrite Z.min_l by lia. rewrite Z.sub_diag, Z.pow_0_r, Z.mul_1_r.
    symmetry. apply Z.compare_lt_iff.
    assert (2 <= 2 ^ (e2 - e1))%Z.
    { change 2%Z with (2 ^ 1)%Z at 1. apply Z.pow_le_mono_r; lia. }
    assert (2 ^ 52 <= Zpos m2)%Z by (apply Hn2; lia).
    assert (2 ^ 52 * 2 <= Zpos m2 * 2 ^ (e2 - e1))%Z
      by (apply Z.mul_le_mono_nonneg; lia).
    lia.
  - rewrite Z.min_r by lia. rewrite Z.sub_diag, Z.pow_0_r, Z.mul_1_r.
    symmetry. apply Z.compare_gt_iff.
    assert (2 <= 2 ^ (e1 - e2))%Z.
    { change 2%Z with (2 ^ 1)%Z at 1. apply Z.pow_le_mono_r; lia. }
    assert (2 ^ 52 <= Zpos m1)%Z by (apply Hn1; lia).
    assert (2 ^ 52 * 2 <= Zpos m1 * 2 ^ (e1 - e2))%Z
      by (apply Z.mul_le_mono_nonneg; lia).
    lia.
Qed.

Lemma aligned_F2R (m e k : Z) : (k <= e)%Z -> F2R (aligned m e k) k = F2R m e.
Proof. apply F2R_shift. Qed.

Lemma aligned_le (m1 e1 m2 e2 : Z) :
  F2R m1 e1 <= F2R m2 e2 ->
  (aligned m1 e1 (Z.min e1 e2) <= aligned m2 e2 (Z.min e1 e2))%Z.
Proof.
  intros H.
  rewrite <- (aligned_F2R m1 e1 (Z.min e1 e2)) in H by lia.
  rewrite <- (aligned_F2R m2 e2 (Z.min e1 e2)) in H by lia.
  unfold F2R in H. apply le_IZR.
  apply (Rmult_le_reg_r (bpow (Z.min e1 e2))); [apply bpow_pos | assumption].
Qed.

Lemma aligned_lt (m1 e1 m2 e2 : Z) :
  (aligned m1 e1 (Z.min e1 e2) < aligned m2 e2 (Z.min e1 e2))%Z ->
  F2R m1 e1 < F2R m2 e2.
Proof.
  intros H.
  rewrite <- (aligned_F2R m1 e1 (Z.min e1 e2)) by lia.
  rewrite <- (aligned_F2R m2 e2 (Z.min e1 e2)) by lia.
  unfold F2R. apply Rmult_lt_compat_r; [apply bpow_pos | now apply IZR_lt].
Qed.

(** A value bounded by a float compares below it. *)
Lemma fin_le_leb (x f : float) (mf : positive) (ef : Z) :
  Prim2SF f = S754_finite false mf ef ->
  fin_le (Prim2SF x) (F2R (Zpos mf) ef) ->
  (x <=? f)%float = true.
Proof.
  intros Hf Hx. rewrite FloatAxioms.leb_spec, Hf. unfold SFleb.
  destruct Hx as [-> | [m [e [-> [Hc Hle]]]]]; [reflexivity |].
  rewrite SFcompare_canonic; [| assumption | now apply (Prim2SF_canonic f false)].
  apply aligned_le in Hle. apply Z.compare_le_iff in Hle.
  destruct (_ ?= _)%Z; congruence.
Qed.

Lemma fin_le_nonneg (x : float) (B : R) :
  fin_le (Prim2SF x) B -> (0 <=? x)%float = true.
Proof.
  intros Hx. rewrite FloatAxioms.leb_spec.
  change (Prim2SF 0%float) with (S754_zero false).
  destruct Hx as [-> | [m [e [-> _]]]]; reflexivity.
Qed.

(** *** Bounds through the operations *)

Lemma canonic_below_mid (m e mf ef : Z) :
  canonic m e -> canonic mf ef ->
  2 * F2R m e < (2 * IZR mf + 1) * bpow ef ->
  F2R m e <= F2R mf ef.
Proof.
  intros [Hm [He Hn]] [Hmf [Hef Hnf]] Hlt.
  destruct (Z_le_gt_dec ef e) as [Hc | Hc].
  - rewrite <- (F2R_shift m e ef Hc) in *. unfold F2R in *.
    pose proof (bpow_pos ef) as Hp.
    assert (2 * (m * 2 ^ (e - ef)) < 2 * mf + 1)%Z.
    { apply lt_IZR. rewrite plus_IZR, !mult_IZR.
      rewrite mult_IZR in Hlt. nra. }
    apply Rmult_le_compat_r; [lra |]. apply IZR_le. lia.
  - assert (Hc' : (e <= ef)%Z) by lia.
    rewrite <- (F2R_shift mf ef e Hc'). unfold F2R.
    pose proof (bpow_pos e) as Hp.
    apply Rmult_le_compat_r; [lra |]. apply IZR_le.
    assert (2 <= 2 ^ (ef - e))%Z.
    { change 2%Z with (2 ^ 1)%Z at 1. apply Z.pow_le_mono_r; lia. }
    assert (2 ^ 52 <= mf)%Z by (apply Hnf; lia).
    assert (2 ^ 52 * 2 <= mf * 2 ^ (ef - e))%Z
      by (apply Z.mul_le_mono_nonneg; lia).
    lia.
Qed.

Lemma F2R_mul (m1 e1 m2 e2 : Z) :
  F2R (m1 * m2) (e1 + e2) = F2R m1 e1 * F2R m2 e2.
Proof. unfold F2R. rewrite mult_IZR, bpow_add. ring. Qed.

Lemma F2R_add (m1 m2 e : Z) : F2R (m1 + m2) e = F2R m1 e + F2R m2 e.
Proof. unfold F2R. rewrite plus_IZR. ring. Qed.

Lemma F2R_pos (m e : Z) : (0 < m)%Z -> 0 < F2R m e.
Proof.
  intros H. unfold F2R. apply Rmult_lt_0_compat; [| apply bpow_pos].
  now apply (IZR_lt 0).
Qed.

(** The product with a normal float [w] of a value bounded by [B]. *)
Lemma mul_bound (x w : float) (B : R) (mw : positive) (ew mf ef : Z) :
  fin_le (Prim2SF x) B ->
  Prim2SF w = S754_finite false mw ew -> (2 ^ 52 <= Zpos mw)%Z ->
  canonic mf ef ->
  2 * (B * F2R (Zpos mw) ew) < (2 * IZR mf + 1) * bpow ef ->
  fin_le (Prim2SF (x * w)) (F2R mf ef).
Proof.
  intros Hx Hw Hn Hc Hlt. rewrite FloatAxioms.mul_spec, Hw.
  destruct Hx as [-> | [m [e [-> [Hcm Hle]]]]]; [now left |].
  unfold SF64mul, SFmul. change (xorb false false) with false.
  apply round_exact_fin_le; try assumption.
  - lia.
  - assert (H53 : (52 + 1 <= Zdigits2 (Zpos (m * mw)))%Z).
    { apply Zdigits2_ge; [lia |]. rewrite Pos2Z.inj_mul.
      destruct Hcm as [Hm _]. nia. }
    rewrite fexp_eq. lia.
  - rewrite Pos2Z.inj_mul, F2R_mul.
    pose proof (F2R_pos (Zpos mw) ew ltac:(lia)). nra.
Qed.

(** The sum of two values bounded by [Bx] and [By]. *)
Lemma add_bound (x y : float) (Bx By : R) (mf ef : Z) :
  fin_le (Prim2SF x) Bx -> fin_le (Prim2SF y) By ->
  0 <= Bx -> 0 <= By ->
  canonic mf ef ->
  2 * (Bx + By) < (2 * IZR mf + 1) * bpow ef ->
  fin_le (Prim2SF (x + y)) (F2R mf ef).
Proof.
  intros Hx Hy H0x H0y Hc Hlt. rewrite FloatAxioms.add_spec.
  destruct Hx as [-> | [mx [ex [-> [Hcx Hlx]]]]];
    destruct Hy as [-> | [my [ey [-> [Hcy Hly]]]]].
  - now left.
  - right. exists my, ey. split; [reflexivity |]. split; [assumption |].
    apply canonic_below_mid; try assumption. lra.
  - right. exists mx, ex. split; [reflexivity |]. split; [assumption |].
    apply canonic_below_mid; try assumption. lra.
  - unfold SF64add, SFadd.
    pose proof (shl_align_spec mx ex (Z.min ex ey)) as [_ Hax].
    pose proof (shl_align_spec my ey (Z.min ex ey)) as [_ Hay].
    replace (Z.min ex (Z.min ex ey)) with (Z.min ex ey) in Hax by lia.
    replace (Z.min ey (Z.min ex ey)) with (Z.min ex ey) in Hay by lia.
    set (ax := fst (shl_align mx ex (Z.min ex ey))) in *.
    set (ay := fst (shl_align my ey (Z.min ex ey))) in *.
    change (cond_Zopp false (Zpos ax) + cond_Zopp false (Zpos ay))%Z
      with (Zpos (ax + ay)).
    unfold binary_normalize.
    destruct (binary_round_eq false (ax + ay) (Z.min ex ey))
      as [mz [ez [Hr [Hmz [Hez [Hmz' Hpre]]]]]].
    rewrite Hr. apply round_exact_fin_le; try assumption; [lia |].
    rewrite Hmz', F2R_shift by lia.
    rewrite Pos2Z.inj_add, F2R_add, Hax, Hay, !F2R_shift by lia.
    lra.
Qed.

(** The quotient of two normal floats, before rounding. *)
Lemma div_core_normal (mx ex my ey : Z) :
  (2 ^ 52 <= mx < 2 ^ 53)%Z -> (2 ^ 52 <= my < 2 ^ 53)%Z ->
  (-1021 <= ex - ey)%Z ->
  SFdiv_core_binary prec emax mx ex my ey
  = ((mx * 2 ^ 53) / my, ex - ey - 53,
     new_location my ((mx * 2 ^ 53) mod my))%Z.
Proof.
  intros Hx Hy He. unfold SFdiv_core_binary.
  rewrite (Zdigits2_unique mx 53), (Zdigits2_unique my 53) by lia.
  rewrite fexp_eq.
  replace (Z.min (Z.max (53 + ex - (53 + ey) - 53) (-1074)) (ex - ey))%Z
    with (ex - ey - 53)%Z by lia.
  replace (ex - ey - (ex - ey - 53))%Z with 53%Z by lia.
  rewrite Z.shiftl_mul_pow2 by lia.
  unfold Z.div, Z.modulo.
  destruct (Z.div_eucl (mx * 2 ^ 53) my) as [q r]. reflexivity.
Qed.

(** The quotient of two normal floats stays below a float that the exact
    quotient is strictly below. *)
Lemma div_bound (x y : float) (mx my : positive) (ex ey mf ef : Z) :
  Prim2SF x = S754_finite false mx ex ->
  Prim2SF y = S754_finite false my ey ->
  (2 ^ 52 <= Zpos mx)%Z -> (2 ^ 52 <= Zpos my)%Z -> (-1021 <= ex - ey)%Z ->
  canonic mf ef ->
  F2R (Zpos mx) ex < F2R mf ef * F2R (Zpos my) ey ->
  fin_le (Prim2SF (x / y)) (F2R mf ef).
Proof.
  intros Hx Hy Hnx Hny He Hc Hlt.
  pose proof (Prim2SF_canonic x _ _ _ Hx) as [Hmx _].
  pose proof (Prim2SF_canonic y _ _ _ Hy) as [Hmy _].
  rewrite FloatAxioms.div_spec, Hx, Hy. unfold SF64div, SFdiv.
  rewrite div_core_normal by lia. change (xorb false false) with false.
  set (q := (Zpos mx * 2 ^ 53 / Zpos my)%Z).
  assert (Hq : (2 ^ 52 <= q)%Z).
  { unfold q. apply Z.div_le_lower_bound; [lia |].
    assert (Zpos my * 2 ^ 52 <= 2 ^ 53 * 2 ^ 52)%Z
      by (apply Z.mul_le_mono_nonneg_r; lia).
    assert (2 ^ 52 * 2 ^ 53 <= Zpos mx * 2 ^ 53)%Z
      by (apply Z.mul_le_mono_nonneg_r; lia).
    lia. }
  apply round_any_fin_le; try assumption.
  - lia.
  - assert (H53 : (52 + 1 <= Zdigits2 q)%Z) by (apply Zdigits2_ge; lia).
    rewrite fexp_eq. lia.
  - assert (Hqm : (q * Zpos my <= Zpos mx * 2 ^ 53)%Z).
    { unfold q. rewrite Z.mul_comm. apply Z.mul_div_le. lia. }
    apply IZR_le in Hqm. rewrite !mult_IZR in Hqm.
    unfold F2R in *.
    replace (ex - ey - 53)%Z with ((ex - 53) + - ey)%Z by lia.
    rewrite bpow_add.
    assert (Hex : bpow ex = IZR (2 ^ 53) * bpow (ex - 53)).
    { rewrite (bpow_split ex (ex - 53)) by lia.
      replace (ex - (ex - 53))%Z with 53%Z by lia. reflexivity. }
    assert (Hey : bpow ey * bpow (- ey) = 1).
    { rewrite <- bpow_add. replace (ey + - ey)%Z with 0%Z by lia. reflexivity. }
    pose proof (bpow_pos (ex - 53)) as P1. pose proof (bpow_pos ey) as P2.
    pose proof (bpow_pos (- ey)) as P3. pose proof (bpow_pos ef) as P4.
    assert (Hmy0 : 0 < IZR (Zpos my)) by (apply (IZR_lt 0); lia).
    rewrite Hex in Hlt.
    apply (Rmult_lt_reg_r (IZR (Zpos my) * bpow ey));
      [apply Rmult_lt_0_compat; assumption |].
    replace (IZR q * (bpow (ex - 53) * bpow (- ey)) * (IZR (Zpos my) * bpow ey))
      with (IZR q * IZR (Zpos my) * bpow (ex - 53) * (bpow ey * bpow (- ey)))
      by ring.
    rewrite Hey. nra.
Qed.

(** A normal float divided by itself is [1]. *)
Lemma div_self (x : float) (m : positive) (e : Z) :
  Prim2SF x = S754_finite false m e -> (2 ^ 52 <= Zpos m)%Z ->
  (x / x)%float = 1%float.
Proof.
  intros Hx Hn. pose proof (Prim2SF_canonic x _ _ _ Hx) as [Hm _].
  apply Prim2SF_inj.
  rewrite FloatAxioms.div_spec, Hx. unfold SF64div, SFdiv.
  rewrite div_core_normal by lia.
  rewrite (Z.mul_comm (Zpos m)), Z.div_mul, Z.mod_mul by lia.
  replace (e - e - 53)%Z with (-53)%Z by lia.
  assert (Hl : new_location (Zpos m) 0 = loc_Exact).
  { unfold new_location. destruct (Z.even (Zpos m)); reflexivity. }
  rewrite Hl. reflexivity.
Qed.

(** *** The sign of a difference *)

(** Rounding a non-zero integer multiple of [2 ^ ez], [ez] not below the
    least exponent, never gives zero. *)
Lemma binary_round_nonzero (sx : bool) (D : positive) (ez : Z) :
  (-1074 <= ez)%Z ->
  (exists m e, binary_round prec emax sx D ez = S754_finite sx m e)
  \/ binary_round prec emax sx D ez = S754_infinity sx.
Proof.
  intros Hez.
  destruct (binary_round_eq sx D ez) as [mz [ez' [-> [Hmz [Hez' [_ Hpre]]]]]].
  destruct (round_aux_spec sx mz ez' loc_Exact ltac:(lia) Hpre)
    as [m1 [m2 [rem [Heq [Hrem [Hm1 [Hlo [Hm2 ->]]]]]]]].
  cbv zeta in *.
  set (e1 := fexp prec emax (Zdigits2 mz + ez')) in *.
  assert (He1 : (-1074 <= e1)%Z) by (unfold e1; rewrite fexp_eq; lia).
  assert (Hez'' : (-1074 <= ez')%Z) by (rewrite fexp_eq in Hez'; lia).
  assert (Hpos : (0 < m1)%Z).
  { destruct (Z_lt_le_dec 0 m1) as [| Hle]; [assumption | exfalso].
    assert (Hm0 : m1 = 0%Z) by lia.
    assert (He : e1 = (-1074)%Z).
    { destruct (Z.eq_dec e1 (-1074)) as [| Hne]; [assumption |].
      assert (2 ^ 52 <= m1)%Z by (apply Hlo; lia). lia. }
    assert (Hn : (e1 - ez')%Z = 0%Z) by lia.
    rewrite Hn, Hm0, Z.pow_0_r in *. lia. }
  assert (Hpos2 : (0 < m2)%Z) by (destruct Hm2 as [-> | [-> _]]; lia).
  unfold pack.
  destruct (Z.eqb_spec m2 0) as [| _]; [lia |].
  destruct (m2 =? 2 ^ 53)%Z.
  - destruct (e1 + 1 <=? 971)%Z; [left; eauto | now right].
  - destruct (e1 <=? 971)%Z; [left; eauto | now right].
Qed.

Lemma ltb_sf_pos (c x : float) (mc : positive) (ec : Z) :
  Prim2SF c = S754_finite false mc ec ->
  (c <? x)%float = true -> sf_pos (Prim2SF x).
Proof.
  intros Hc. rewrite FloatAxioms.ltb_spec, Hc. unfold SFltb, sf_pos.
  destruct (Prim2SF x) as [s | [] | | [] m e]; simpl; try discriminate; auto.
Qed.

(** Between such floats the difference is positive exactly when the
    subtrahend is the smaller one. *)
Lemma sub_gt_iff (x y : float) :
  sf_pos (Prim2SF x) -> sf_pos (Prim2SF y) ->
  (0 <? y - x)%float = (x <? y)%float.
Proof.
  intros Hx Hy. rewrite !FloatAxioms.ltb_spec, FloatAxioms.sub_spec.
  change (Prim2SF 0%float) with (S754_zero false).
  pose proof (Prim2SF_canonic x) as Hcx. pose proof (Prim2SF_canonic y) as Hcy.
  destruct (Prim2SF x) as [sx | [] | | [] mx ex]; try contradiction;
    destruct (Prim2SF y) as [sy | [] | | [] my ey]; try contradiction;
    try reflexivity.
  specialize (Hcx false mx ex eq_refl). specialize (Hcy false my ey eq_refl).
  unfold SFltb at 2. rewrite SFcompare_canonic by assumption.
  unfold SF64sub, SFsub.
  pose proof (shl_align_spec my ey (Z.min ey ex)) as [_ Hay].
  pose proof (shl_align_spec mx ex (Z.min ey ex)) as [_ Hax].
  replace (Z.min ey (Z.min ey ex)) with (Z.min ex ey) in Hay by lia.
  replace (Z.min ex (Z.min ey ex)) with (Z.min ex ey) in Hax by lia.
  unfold aligned. rewrite <- Hax, <- Hay.
  set (ax := Zpos (fst (shl_align mx ex (Z.min ey ex)))) in *.
  set (ay := Zpos (fst (shl_align my ey (Z.min ey ex)))) in *.
  change (cond_Zopp false ay - cond_Zopp false ax)%Z with (ay - ax)%Z.
  assert (Hez : (-1074 <= Z.min ey ex)%Z).
  { destruct Hcx as [_ [? _]]. destruct Hcy as [_ [? _]]. lia. }
  destruct (ay - ax)%Z as [| p | p] eqn:ED; unfold binary_normalize.
  - assert (E : (ax ?= ay)%Z = Eq) by (apply Z.compare_eq_iff; lia).
    rewrite E. reflexivity.
  - assert (E : (ax ?= ay)%Z = Lt) by (apply Z.compare_lt_iff; lia).
    rewrite E.
    destruct (binary_round_nonzero false p (Z.min ey ex) Hez)
      as [[m [e ->]] | ->]; reflexivity.
  - assert (E : (ax ?= ay)%Z = Gt) by (apply Z.compare_gt_iff; lia).
    rewrite E.
    destruct (binary_round_nonzero true p (Z.min ey ex) Hez)
      as [[m [e ->]] | ->]; reflexivity.
Qed.

(** The order of such floats is total and the strict one is
    irreflexive. *)
Lemma ltb_false_leb (x y : float) :
  sf_pos (Prim2SF x) -> sf_pos (Prim2SF y) ->
  (x <? y)%float = false -> (y <=? x)%float = true.
Proof.
  intros Hx Hy. rewrite FloatAxioms.ltb_spec, FloatAxioms.leb_spec.
  pose proof (Prim2SF_canonic x) as Hcx. pose proof (Prim2SF_canonic y) as Hcy.
  destruct (Prim2SF x) as [sx | [] | | [] mx ex]; try contradiction;
    destruct (Prim2SF y) as [sy | [] | | [] my ey]; try contradiction;
    try reflexivity; try discriminate.
  specialize (Hcx false mx ex eq_refl). specialize (Hcy false my ey eq_refl).
  unfold SFltb, SFleb. rewrite !SFcompare_canonic by assumption.
  rewrite (Z.min_comm ey ex). rewrite (Z.compare_antisym _ (aligned (Zpos my) _ _)).
  destruct (_ ?= _)%Z; simpl; congruence.
Qed.

Lemma ltb_leb (x y : float) :
  (x <? y)%float = true -> (x <=? y)%float = true.
Proof.
  rewrite FloatAxioms.ltb_spec, FloatAxioms.leb_spec. unfold SFltb, SFleb.
  destruct (SFcompare _ _) as [[] |]; congruence.
Qed.

Lemma ltb_not_eqb (x y : float) :
  (x <? y)%float = true -> (x =? y)%float = false.
Proof.
  rewrite FloatAxioms.ltb_spec, FloatAxioms.eqb_spec. unfold SFltb, SFeqb.
  destruct (SFcompare _ _) as [[] |]; congruence.
Qed.

End Binary64Facts.

Section Props.
Variable toLowerCase : string -> string.

Lemma size_intersection (a b : JS.StrSet) :
  NoDup a -> JS.size (JS.new_Set (common a b)) = length (filter (JS.has b) a).
Proof.
  intros Ha. unfold common, JS.spread, JS.size.
  rewrite SetFacts.new_Set_NoDup; [reflexivity | now apply NoDup_filter].
Qed.

Lemma add_overlap_sym (s : float) (a b : JS.StrSet) (w : float) :
  NoDup a -> NoDup b -> add_overlap s a b w = add_overlap s b a w.
Proof.
  intros Ha Hb. unfold add_overlap, union, JS.spread.
  rewrite (size_intersection a b Ha), (size_intersection b a Hb).
  rewrite (SetFacts.length_common_sym a b Ha Hb).
  rewrite (SetFacts.size_union_sym a b Ha Hb). reflexivity.
Qed.

Lemma NoDup_lowered (l : list string) : NoDup (lowered toLowerCase l).
Proof. apply SetFacts.NoDup_new_Set. Qed.

Lemma lit_0_1_not_gt : JS.gt JS.lit_0_1 JS.lit_0_1 = false.
Proof. vm_compute. reflexivity. Qed.

End Props.
Section Reasons.
Variable toLowerCase : string -> string.

Lemma has_filter (Q : string -> bool) (acc : JS.StrSet) (x : string) :
  Q x = true -> JS.has (filter Q acc) x = JS.has acc x.
Proof.
  intros HQ. apply eq_true_iff_eq. rewrite !SetFacts.has_In, filter_In. tauto.
Qed.

Lemma fold_add_filter (Q : string -> bool) (l : list string) (acc : JS.StrSet) :
  fold_left JS.add (filter Q l) (filter Q acc)
  = filter Q (fold_left JS.add l acc).
Proof.
  revert acc. induction l as [| x l IH]; intros acc; simpl; [reflexivity |].
  destruct (Q x) eqn:HQ; simpl.
  - rewrite <- IH. f_equal. unfold JS.add. rewrite has_filter by assumption.
    destruct (JS.has acc x); [reflexivity |].
    rewrite filter_app. simpl. now rewrite HQ.
  - rewrite <- IH. f_equal. unfold JS.add.
    destruct (JS.has acc x); [reflexivity |].
    rewrite filter_app. simpl. rewrite HQ. now rewrite app_nil_r.
Qed.

Lemma new_Set_filter (Q : string -> bool) (l : list string) :
  JS.new_Set (filter Q l) = filter Q (JS.new_Set l).
Proof. unfold JS.new_Set. now rewrite <- fold_add_filter. Qed.

Lemma map_filter_comm (A B : Type) (f : A -> B) (Q : B -> bool) (l : list A) :
  map f (filter (fun x => Q (f x)) l) = filter Q (map f l).
Proof.
  induction l as [| x l IH]; simpl; [reflexivity |].
  destruct (Q (f x)); simpl; now rewrite IH.
Qed.

(** The elements the engine lists are the lower-cased forms, without
    repeats, of the target's labels that the candidate has up to case. *)
Lemma common_lowered (a b : list string) :
  common (lowered toLowerCase a) (lowered toLowerCase b)
  = lowered toLowerCase (intersecting_original toLowerCase a b).
Proof.
  unfold common, lowered, intersecting_original, JS.spread.
  rewrite <- new_Set_filter. f_equal.
  rewrite <- map_filter_comm. f_equal.
  apply filter_ext. intros x.
  apply eq_true_iff_eq. rewrite SetFacts.has_In, SetFacts.In_new_Set.
  rewrite in_map_iff, existsb_exists. split.
  - intros [y [Hy Hin]]. exists y. split; [assumption |].
    apply String.eqb_eq. now symmetry.
  - intros [y [Hin Hy]]. exists y. apply String.eqb_eq in Hy. now split.
Qed.

Lemma intersecting_nonempty (a b : list string) :
  (0 <? length (intersecting_original toLowerCase a b))%nat
  = overlap toLowerCase a b.
Proof.
  unfold intersecting_original, overlap.
  induction a as [| x a IH]; simpl; [reflexivity |].
  destruct (existsb _ b); simpl; [reflexivity | assumption].
Qed.

Lemma lowered_nonempty (l : list string) :
  (0 <? length (lowered toLowerCase l))%nat = (0 <? length l)%nat.
Proof.
  apply eq_true_iff_eq. rewrite !Nat.ltb_lt.
  destruct l as [| x l]; [unfold lowered; simpl; lia |].
  split; [simpl; lia | intros _].
  assert (H : In (toLowerCase x) (lowered toLowerCase (x :: l))).
  { apply SetFacts.In_new_Set. now left. }
  destruct (lowered toLowerCase (x :: l)); [destruct H | simpl; lia].
Qed.

Lemma common_nonempty (a b : list string) :
  (0 <? length (common (lowered toLowerCase a) (lowered toLowerCase b)))%nat
  = overlap toLowerCase a b.
Proof.
  now rewrite common_lowered, lowered_nonempty, intersecting_nonempty.
Qed.

Lemma slice0_3 (l : list string) : JS.slice0 l 3 = firstn 3 l.
Proof. now rewrite ArrayFacts.slice0_nonneg. Qed.

Lemma slice0_2 (l : list string) : JS.slice0 l 2 = firstn 2 l.
Proof. now rewrite ArrayFacts.slice0_nonneg. Qed.

Lemma generateReasons_eq (t c : Recipe) :
  generateReasons toLowerCase t c
  = or_fallback (specific_reasons toLowerCase t c).
Proof.
  unfold generateReasons, specific_reasons, tags_reason, ingredients_reason.
  rewrite !common_nonempty, slice0_3, slice0_2, !common_lowered.
  destruct (cuisine t =? cuisine c)%string,
           (category t =? category c)%string,
           (overlap toLowerCase (tags t) (tags c)),
           (overlap toLowerCase (ingredients t) (ingredients c));
    reflexivity.
Qed.

End Reasons.
Section Score.
Variable toLowerCase : string -> string.

Lemma same_length (l1 l2 : list string) :
  NoDup l1 -> NoDup l2 -> (forall x, In x l1 <-> In x l2) ->
  length l1 = length l2.
Proof.
  intros H1 H2 H. apply Nat.le_antisymm; apply NoDup_incl_length; trivial;
    intros x Hx; now apply H.
Qed.

Lemma mem_In (x : string) (l : list string) : mem x l = true <-> In x l.
Proof. unfold mem. destruct (in_dec string_dec x l); split; congruence. Qed.

Lemma In_lower_set (l : list string) (x : string) :
  In x (lower_set toLowerCase l) <-> In x (lowered toLowerCase l).
Proof.
  unfold lower_set, lowered. now rewrite nodup_In, SetFacts.In_new_Set.
Qed.

Lemma size_intersection_spec (a b : list string) :
  JS.size (JS.new_Set (common (lowered toLowerCase a) (lowered toLowerCase b)))
  = inter_size toLowerCase a b.
Proof.
  rewrite size_intersection by apply NoDup_lowered.
  unfold inter_size. apply same_length.
  - apply NoDup_filter, NoDup_lowered.
  - apply NoDup_filter, NoDup_nodup.
  - intros x. rewrite !filter_In, SetFacts.has_In, mem_In, !In_lower_set.
    tauto.
Qed.

Lemma size_union_spec (a b : list string) :
  JS.size (union (lowered toLowerCase a) (lowered toLowerCase b))
  = union_size toLowerCase a b.
Proof.
  unfold union, union_size, JS.size, JS.spread. apply same_length.
  - apply SetFacts.NoDup_new_Set.
  - apply NoDup_nodup.
  - intros x. rewrite SetFacts.In_new_Set, nodup_In, !in_app_iff, !In_lower_set.
    tauto.
Qed.

Lemma add_overlap_spec (s : float) (a b : list string) (w : float) :
  add_overlap s (lowered toLowerCase a) (lowered toLowerCase b) w
  = if (union_size toLowerCase a b =? 0)%nat then s
    else (s + JS.of_size (inter_size toLowerCase a b)
              / JS.of_size (union_size toLowerCase a b) * w)%float.
Proof.
  unfold add_overlap. rewrite size_intersection_spec, size_union_spec.
  destruct (union_size toLowerCase a b); reflexivity.
Qed.

Lemma base_spec (cu ca : bool) :
  base cu ca
  = ((if cu then JS.lit_0_4 else 0) + (if ca then JS.lit_0_3 else 0))%float.
Proof. destruct cu, ca; vm_compute; reflexivity. Qed.

Lemma base_nonneg (cu ca : bool) : Binary64.nonneg (base cu ca).
Proof. destruct cu, ca; vm_compute; reflexivity. Qed.

Lemma lit_0_2_nonneg : Binary64.nonneg JS.lit_0_2.
Proof. vm_compute. reflexivity. Qed.

Lemma lit_0_1_nonneg : Binary64.nonneg JS.lit_0_1.
Proof. vm_compute. reflexivity. Qed.

Lemma ratio_nonneg (i u : nat) :
  Binary64.nonneg (JS.of_size i / JS.of_size u)%float.
Proof. apply FloatSign.nonneg_div; apply FloatSign.nonneg_of_size. Qed.

Lemma jaccard_nonneg (a b : list string) :
  Binary64.nonneg (jaccard toLowerCase a b).
Proof.
  unfold jaccard. destruct (_ =? 0)%nat; [vm_compute; reflexivity |].
  apply ratio_nonneg.
Qed.

(** One overlap block adds the weighted Jaccard ratio. *)
Lemma add_overlap_jaccard (s : float) (a b : list string) (w : float) :
  Binary64.nonneg s -> (w * 0 = 0)%float ->
  add_overlap s (lowered toLowerCase a) (lowered toLowerCase b) w
  = (s + w * jaccard toLowerCase a b)%float.
Proof.
  intros Hs Hw. rewrite add_overlap_spec. unfold jaccard.
  destruct (union_size toLowerCase a b =? 0)%nat.
  - rewrite Hw. symmetry. now apply FloatSign.add_zero_r.
  - f_equal. apply FloatSign.mul_comm.
Qed.

End Score.
Section Ranking.
Variable toLowerCase : string -> string.

Lemma getRecommendations_ranked (t : Recipe) (pool : list Recipe) (limit : Z) :
  getRecommendations toLowerCase t pool limit
  = JS.slice0 (ranked toLowerCase t pool) limit.
Proof. reflexivity. Qed.

Lemma inter_size_zero (a b : list string) :
  overlap toLowerCase a b = false -> inter_size toLowerCase a b = 0%nat.
Proof.
  intros H. rewrite <- size_intersection_spec.
  rewrite size_intersection by apply NoDup_lowered.
  rewrite <- common_nonempty in H. apply Nat.ltb_ge in H.
  unfold common, JS.spread in H. lia.
Qed.

Lemma add_overlap_null (s : float) (a b : list string) (w : float)
      (m : positive) (e : Z) :
  Prim2SF w = S754_finite false m e ->
  overlap toLowerCase a b = false ->
  Binary64.sf_null (Prim2SF s) ->
  Binary64.sf_null
    (Prim2SF (add_overlap s (lowered toLowerCase a) (lowered toLowerCase b) w)).
Proof.
  intros Hw Ho Hs. rewrite add_overlap_spec, (inter_size_zero _ _ Ho).
  destruct (_ =? 0)%nat; [assumption |].
  rewrite FloatAxioms.add_spec, FloatAxioms.mul_spec, FloatAxioms.div_spec.
  apply FloatSign.SFadd_null; [assumption |].
  eapply FloatSign.SFmul_null; [| exact Hw].
  apply FloatSign.SFdiv_zero_l.
Qed.

(** A candidate above the threshold matches in at least one factor. *)
Lemma passes_factor (t c : Recipe) :
  passes toLowerCase t c = true ->
  (cuisine t =? cuisine c)%string
  || (category t =? category c)%string
  || overlap toLowerCase (tags t) (tags c)
  || overlap toLowerCase (ingredients t) (ingredients c) = true.
Proof.
  intros Hp.
  destruct (cuisine t =? cuisine c)%string eqn:E1; [reflexivity |].
  destruct (category t =? category c)%string eqn:E2; [reflexivity |].
  destruct (overlap toLowerCase (tags t) (tags c)) eqn:E3; [reflexivity |].
  destruct (overlap toLowerCase (ingredients t) (ingredients c)) eqn:E4;
    [reflexivity |].
  exfalso. unfold passes in Hp.
  rewrite FloatSign.null_not_gt in Hp; [discriminate |].
  unfold calculateSimilarity. rewrite E1, E2.
  eapply add_overlap_null; [reflexivity | assumption |].
  eapply add_overlap_null; [reflexivity | assumption |].
  left. reflexivity.
Qed.

Lemma specific_not_fallback (t c : Recipe) :
  specific_reasons toLowerCase t c <> ["Similar recipe"%string].
Proof.
  unfold specific_reasons, when, tags_reason, ingredients_reason.
  destruct (cuisine t =? cuisine c)%string,
           (category t =? category c)%string,
           (overlap toLowerCase (tags t) (tags c)),
           (overlap toLowerCase (ingredients t) (ingredients c));
    simpl; intros H; congruence.
Qed.

Lemma specific_nonempty (t c : Recipe) :
  passes toLowerCase t c = true -> specific_reasons toLowerCase t c <> [].
Proof.
  intros Hp. apply passes_factor in Hp. unfold specific_reasons, when.
  destruct (cuisine t =? cuisine c)%string,
           (category t =? category c)%string,
           (overlap toLowerCase (tags t) (tags c)),
           (overlap toLowerCase (ingredients t) (ingredients c));
    simpl in *; congruence.
Qed.

End Ranking.
Module OrderFacts.
Import Binary64 Binary64Facts.
Local Open Scope Z_scope.

Lemma canonic_unique (m1 m2 : positive) (e1 e2 : Z) :
  canonic (Zpos m1) e1 -> canonic (Zpos m2) e2 ->
  aligned (Zpos m1) e1 (Z.min e1 e2) = aligned (Zpos m2) e2 (Z.min e1 e2) ->
  m1 = m2 /\ e1 = e2.
Proof.
  intros [Hm1 [He1 Hn1]] [Hm2 [He2 Hn2]]. unfold aligned.
  destruct (Z.compare_spec e1 e2) as [E | E | E].
  - subst e2. rewrite Z.min_id, Z.sub_diag, Z.pow_0_r, !Z.mul_1_r.
    intros H. split; [congruence | reflexivity].
  - rewrite Z.min_l by lia. rewrite Z.sub_diag, Z.pow_0_r, Z.mul_1_r.
    assert (2 <= 2 ^ (e2 - e1)).
    { change 2 with (2 ^ 1) at 1. apply Z.pow_le_mono_r; lia. }
    assert (2 ^ 52 <= Zpos m2) by (apply Hn2; lia).
    assert (2 ^ 52 * 2 <= Zpos m2 * 2 ^ (e2 - e1))
      by (apply Z.mul_le_mono_nonneg; lia).
    lia.
  - rewrite Z.min_r by lia. rewrite Z.sub_diag, Z.pow_0_r, Z.mul_1_r.
    assert (2 <= 2 ^ (e1 - e2)).
    { change 2 with (2 ^ 1) at 1. apply Z.pow_le_mono_r; lia. }
    assert (2 ^ 52 <= Zpos m1) by (apply Hn1; lia).
    assert (2 ^ 52 * 2 <= Zpos m1 * 2 ^ (e1 - e2))
      by (apply Z.mul_le_mono_nonneg; lia).
    lia.
Qed.

(** [===] on a float above the threshold is equality. *)
Lemma eqb_pos_eq (x v : float) :
  sf_pos (Prim2SF x) -> (x =? v)%float = true -> x = v.
Proof.
  intros Hx. rewrite FloatAxioms.eqb_spec. intros He. apply Prim2SF_inj.
  pose proof (Prim2SF_canonic x) as Hcx. pose proof (Prim2SF_canonic v) as Hcv.
  unfold SFeqb in He.
  destruct (Prim2SF x) as [sx | [] | | [] mx ex]; try contradiction;
    destruct (Prim2SF v) as [sv | [] | | [] mv ev]; try discriminate;
    try reflexivity.
  specialize (Hcx false mx ex eq_refl). specialize (Hcv false mv ev eq_refl).
  rewrite SFcompare_canonic in He by assumption.
  destruct (_ ?= _) eqn:E; try discriminate.
  apply Z.compare_eq_iff in E.
  destruct (canonic_unique _ _ _ _ Hcx Hcv E) as [-> ->]. reflexivity.
Qed.

Lemma ltb_irrefl (x : float) : (x <? x)%float = false.
Proof.
  rewrite FloatAxioms.ltb_spec. unfold SFltb.
  pose proof (Prim2SF_canonic x) as Hcx.
  destruct (Prim2SF x) as [sx | [] | | [] mx ex]; try reflexivity.
  - specialize (Hcx true mx ex eq_refl). simpl.
    rewrite Z.compare_refl, Pos.compare_cont_refl. reflexivity.
  - specialize (Hcx false mx ex eq_refl). simpl.
    rewrite Z.compare_refl, Pos.compare_cont_refl. reflexivity.
Qed.

Lemma aligned_le_F2R (m1 e1 m2 e2 : Z) :
  aligned m1 e1 (Z.min e1 e2) <= aligned m2 e2 (Z.min e1 e2) ->
  (F2R m1 e1 <= F2R m2 e2)%R.
Proof.
  intros H.
  rewrite <- (aligned_F2R m1 e1 (Z.min e1 e2)) by lia.
  rewrite <- (aligned_F2R m2 e2 (Z.min e1 e2)) by lia.
  unfold F2R. apply Rmult_le_compat_r.
  - pose proof (bpow_pos (Z.min e1 e2)). lra.
  - now apply IZR_le.
Qed.

(** [<=] is transitive on floats above the threshold. *)
Lemma leb_trans (x y z : float) :
  sf_pos (Prim2SF x) -> sf_pos (Prim2SF y) -> sf_pos (Prim2SF z) ->
  (x <=? y)%float = true -> (y <=? z)%float = true -> (x <=? z)%float = true.
Proof.
  intros Hx Hy Hz. rewrite !FloatAxioms.leb_spec.
  pose proof (Prim2SF_canonic x) as Hcx. pose proof (Prim2SF_canonic y) as Hcy.
  pose proof (Prim2SF_canonic z) as Hcz.
  destruct (Prim2SF x) as [sx | [] | | [] mx ex]; try contradiction;
    destruct (Prim2SF y) as [sy | [] | | [] my ey]; try contradiction;
    destruct (Prim2SF z) as [sz | [] | | [] mz ez]; try contradiction;
    try reflexivity; try discriminate; auto.
  specialize (Hcx false mx ex eq_refl). specialize (Hcy false my ey eq_refl).
  specialize (Hcz false mz ez eq_refl).
  unfold SFleb. rewrite !SFcompare_canonic by assumption.
  intros H1 H2.
  assert (L1 : aligned (Zpos mx) ex (Z.min ex ey)
               <= aligned (Zpos my) ey (Z.min ex ey)).
  { unfold Z.le. clear H2. revert H1.
    destruct (_ ?= _); congruence. }
  assert (L2 : aligned (Zpos my) ey (Z.min ey ez)
               <= aligned (Zpos mz) ez (Z.min ey ez)).
  { unfold Z.le. clear H1. revert H2.
    destruct (_ ?= _); congruence. }
  apply aligned_le_F2R in L1, L2.
  assert (L3 : (F2R (Zpos mx) ex <= F2R (Zpos mz) ez)%R) by lra.
  apply aligned_le in L3. clear H1 H2. revert L3. unfold Z.le.
  destruct (_ ?= _); intros H; [reflexivity | reflexivity | now elim H].
Qed.

End OrderFacts.
Section SortFacts.
Import Binary64 Binary64Facts OrderFacts.

Variable toLowerCase : string -> string.

Lemma gt_by_score (a b : RecommendationScore) :
  above a -> above b ->
  JS.gt (by_score a b) 0 = (score a <? score b)%float.
Proof. intros Ha Hb. unfold JS.gt, by_score. now apply sub_gt_iff. Qed.

Lemma desc_trans : Relation_Definitions.transitive _ desc.
Proof.
  intros a b c [Ha [Hb Hab]] [_ [Hc Hbc]]. repeat split; trivial.
  now apply (leb_trans (score c) (score b) (score a)).
Qed.

Lemma HdRel_insert (y x : RecommendationScore) (l : list RecommendationScore) :
  HdRel desc y l -> desc y x -> HdRel desc y (JS.insert_by by_score x l).
Proof.
  intros Hl Hx. destruct l as [| z l]; simpl.
  - now constructor.
  - destruct (JS.gt (by_score x z) 0); constructor; trivial.
    now inversion Hl.
Qed.

Lemma insert_by_sorted (x : RecommendationScore) (l : list RecommendationScore) :
  above x -> Forall above l -> Sorted desc l ->
  Sorted desc (JS.insert_by by_score x l).
Proof.
  intros Hx Hl Hs. induction l as [| y l IH]; simpl.
  - repeat constructor.
  - inversion Hl as [| ? ? Hy Hl']; subst. inversion Hs as [| ? ? Hs' Hhd]; subst.
    rewrite gt_by_score by assumption.
    destruct (score x <? score y)%float eqn:E.
    + constructor; [now apply IH |].
      apply HdRel_insert; [assumption |].
      repeat split; trivial. now apply ltb_leb.
    + constructor; [assumption |]. constructor.
      repeat split; trivial. now apply ltb_false_leb.
Qed.

Lemma Forall_sort (P : RecommendationScore -> Prop) (l : list RecommendationScore) :
  Forall P l -> Forall P (JS.sort by_score l).
Proof.
  rewrite !Forall_forall. intros H e He.
  apply ArrayFacts.In_sort in He. now apply H.
Qed.

Lemma sort_sorted (l : list RecommendationScore) :
  Forall above l -> Sorted desc (JS.sort by_score l).
Proof.
  induction l as [| x l IH]; intros Hl; simpl.
  - constructor.
  - inversion Hl; subst. apply insert_by_sorted; auto. now apply Forall_sort.
Qed.

Lemma StronglySorted_firstn (A : Type) (R : A -> A -> Prop) (k : nat) (l : list A) :
  StronglySorted R l -> StronglySorted R (firstn k l).
Proof.
  revert k. induction l as [| x l IH]; intros k H.
  - rewrite firstn_nil. constructor.
  - destruct k; simpl; [constructor |].
    inversion H as [| ? ? Hs Hf]; subst.
    constructor; [now apply IH |].
    rewrite Forall_forall in *. intros y Hy. apply Hf.
    rewrite <- (firstn_skipn k l). apply in_or_app. now left.
Qed.

Lemma StronglySorted_impl (A : Type) (R R' : A -> A -> Prop) (l : list A) :
  (forall a b, R a b -> R' a b) -> StronglySorted R l -> StronglySorted R' l.
Proof.
  intros HR. induction 1 as [| x l Hs IH Hf]; constructor; trivial.
  revert Hf. apply Forall_impl. apply HR.
Qed.

(** An element is moved only behind elements that differ from it under
    [P]; the elements that satisfy [P] keep their order. *)
Lemma insert_by_filter (P : RecommendationScore -> bool)
      (x : RecommendationScore) (l : list RecommendationScore) :
  (forall y, In y l -> JS.gt (by_score x y) 0 = true ->
             P x = true -> P y = true -> False) ->
  filter P (JS.insert_by by_score x l) = filter P (x :: l).
Proof.
  induction l as [| y l IH]; intros H; simpl; [reflexivity |].
  destruct (JS.gt (by_score x y) 0) eqn:E; [| reflexivity].
  simpl. rewrite IH by (intros z Hz; apply H; now right). simpl.
  destruct (P x) eqn:Px, (P y) eqn:Py; try reflexivity.
  exfalso. apply (H y); auto. now left.
Qed.

Lemma sort_filter (P : RecommendationScore -> bool) (l : list RecommendationScore) :
  (forall x y, In x l -> In y l -> JS.gt (by_score x y) 0 = true ->
               P x = true -> P y = true -> False) ->
  filter P (JS.sort by_score l) = filter P l.
Proof.
  induction l as [| x l IH]; intros H; simpl; [reflexivity |].
  rewrite insert_by_filter.
  - simpl. rewrite IH; [reflexivity |].
    intros a b Ha Hb. apply H; now right.
  - intros y Hy. apply ArrayFacts.In_sort in Hy. apply H; [now left | now right].
Qed.

Lemma scored_above (t : Recipe) (pool : list Recipe) :
  Forall above (scored toLowerCase t pool).
Proof.
  apply Forall_forall. intros e He. apply In_scored in He.
  destruct He as [c [_ [_ [Hp ->]]]]. unfold above, passes, JS.gt in *. simpl.
  apply (ltb_sf_pos JS.lit_0_1 _ 7205759403792794%positive (-56)%Z);
    [reflexivity | assumption].
Qed.

End SortFacts.
Section Sizes.
Variable toLowerCase : string -> string.

Lemma length_new_Set_le (l : list string) :
  (length (JS.new_Set l) <= length l)%nat.
Proof.
  apply NoDup_incl_length; [apply SetFacts.NoDup_new_Set |].
  intros x Hx. now apply SetFacts.In_new_Set.
Qed.

Lemma length_lowered_le (l : list string) :
  (length (lowered toLowerCase l) <= length l)%nat.
Proof.
  unfold lowered. etransitivity; [apply length_new_Set_le |].
  now rewrite length_map.
Qed.

Lemma length_filter_le (f : string -> bool) (l : list string) :
  (length (filter f l) <= length l)%nat.
Proof. pose proof (SetFacts.length_filter_split f l). lia. Qed.

(** The sizes as the engine computes them. *)
Lemma sizes_spec (a b : list string) :
  let A := lowered toLowerCase a in
  let B := lowered toLowerCase b in
  inter_size toLowerCase a b = length (filter (JS.has B) A)
  /\ (union_size toLowerCase a b + length (filter (JS.has B) A)
      = length A + length B)%nat.
Proof.
  cbv zeta. split.
  - rewrite <- size_intersection_spec. apply size_intersection, NoDup_lowered.
  - rewrite <- size_union_spec. unfold union, JS.spread.
    rewrite (SetFacts.length_common_sym _ _ (NoDup_lowered toLowerCase a)
                                        (NoDup_lowered toLowerCase b)).
    apply SetFacts.size_union; apply NoDup_lowered.
Qed.

Lemma inter_le_union (a b : list string) :
  (inter_size toLowerCase a b <= union_size toLowerCase a b)%nat.
Proof.
  destruct (sizes_spec a b) as [Hi Hu]. rewrite Hi.
  pose proof (length_filter_le (JS.has (lowered toLowerCase b))
                               (lowered toLowerCase a)).
  pose proof (SetFacts.length_common_sym _ _ (NoDup_lowered toLowerCase a)
                                         (NoDup_lowered toLowerCase b)).
  pose proof (length_filter_le (JS.has (lowered toLowerCase a))
                               (lowered toLowerCase b)).
  lia.
Qed.

Lemma union_size_le (a b : list string) :
  (union_size toLowerCase a b <= length a + length b)%nat.
Proof.
  destruct (sizes_spec a b) as [_ Hu].
  pose proof (length_lowered_le a). pose proof (length_lowered_le b). lia.
Qed.

Lemma filter_all (f : string -> bool) (l : list string) :
  length (filter f l) = length l <-> forall x, In x l -> f x = true.
Proof.
  induction l as [| y l IH]; simpl; [tauto |].
  pose proof (length_filter_le f l).
  destruct (f y) eqn:E; simpl.
  - split.
    + intros H0 x [<- | Hx]; [assumption |]. apply IH; [lia | assumption].
    + intros H0. f_equal. apply IH. auto.
  - split; [lia |]. intros H0. rewrite (H0 y) in E; [discriminate | now left].
Qed.

Lemma In_lowered (l : list string) (x : string) :
  In x (lowered toLowerCase l) <-> In x (map toLowerCase l).
Proof. apply SetFacts.In_new_Set. Qed.

(** The Jaccard ratio is a full one exactly for such sets. *)
Lemma same_labels_iff (a b : list string) :
  (inter_size toLowerCase a b = union_size toLowerCase a b
   /\ (0 < union_size toLowerCase a b)%nat)
  <-> same_labels toLowerCase a b.
Proof.
  destruct (sizes_spec a b) as [Hi Hu].
  set (A := lowered toLowerCase a) in *. set (B := lowered toLowerCase b) in *.
  pose proof (length_filter_le (JS.has B) A) as H1.
  pose proof (length_filter_le (JS.has A) B) as H2.
  pose proof (SetFacts.length_common_sym A B (NoDup_lowered toLowerCase a)
                                         (NoDup_lowered toLowerCase b)) as Hs.
  split.
  - intros [He Hpos].
    assert (HA : length (filter (JS.has B) A) = length A) by lia.
    assert (HB : length (filter (JS.has A) B) = length B) by lia.
    rewrite filter_all in HA, HB. split.
    + intros ->. unfold A, lowered in *. simpl in *. lia.
    + intros x. rewrite <- !In_lowered. fold A. fold B. split; intros Hx.
      * apply SetFacts.has_In. now apply HA.
      * apply SetFacts.has_In. now apply HB.
  - intros [Hne Heq].
    assert (HA : length (filter (JS.has B) A) = length A).
    { apply filter_all. intros x Hx. apply SetFacts.has_In.
      apply In_lowered, Heq, In_lowered. exact Hx. }
    assert (HB : length (filter (JS.has A) B) = length B).
    { apply filter_all. intros x Hx. apply SetFacts.has_In.
      apply In_lowered, Heq, In_lowered. exact Hx. }
    assert (Hpos : (0 < length A)%nat).
    { unfold A. rewrite <- Nat.ltb_lt, lowered_nonempty, Nat.ltb_lt.
      destruct a; [congruence | simpl; lia]. }
    lia.
Qed.

End Sizes.
Module ScoreBounds.

Import Binary64 Binary64Facts ScoreValues.
Local Open Scope R_scope.

Ltac numeric :=
  unfold v_0_1, v_0_2, v_0_4, v_0_7, v_0_75, v_0_9, v_max, v_1, v_ratio,
         w_0_1, w_0_2, w_0_9, w_max, F2R, bpow; simpl; lra.

Ltac canon := unfold canonic; simpl; lia.

Lemma fin_le_weaken (x : spec_float) (B B' : R) :
  fin_le x B -> B <= B' -> fin_le x B'.
Proof.
  intros [-> | [m [e [-> [Hc Hle]]]]] HB; [now left | right].
  exists m, e. split; [reflexivity |]. split; [assumption | lra].
Qed.

(** A float is bounded by its own value. *)
Lemma fin_le_self (x : float) (m : positive) (e : Z) :
  Prim2SF x = S754_finite false m e -> fin_le (Prim2SF x) (F2R (Zpos m) e).
Proof.
  intros H. right. exists m, e. split; [assumption |].
  split; [now apply (Prim2SF_canonic x false) | lra].
Qed.

Lemma fin_le_zero (B : R) : fin_le (Prim2SF 0%float) B.
Proof. now left. Qed.

(** A float that is bounded by a value below its own is not that float. *)
Lemma fin_le_neq (x c : float) (m : positive) (e : Z) (B : R) :
  Prim2SF c = S754_finite false m e -> B < F2R (Zpos m) e ->
  fin_le (Prim2SF x) B -> x <> c.
Proof.
  intros Hc HB Hx ->. rewrite Hc in Hx.
  destruct Hx as [Hx | [m' [e' [Hx [_ Hle]]]]]; [discriminate |].
  injection Hx as <- <-. lra.
Qed.

Lemma of_size_value (n : nat) :
  (0 < n)%nat -> (Z.of_nat n < 2 ^ 53)%Z ->
  exists m e,
    Prim2SF (JS.of_size n) = S754_finite false m e
    /\ canonic (Zpos m) e /\ (2 ^ 52 <= Zpos m)%Z /\ (-52 <= e <= 0)%Z
    /\ F2R (Zpos m) e = IZR (Z.of_nat n).
Proof. intros Hn Hb. apply of_Z_value. lia. Qed.

(** The ratio of two sizes is [1] when they agree and stays away from [1]
    otherwise. *)
Lemma ratio_cases (i u : nat) :
  (i <= u)%nat -> (0 < u)%nat -> (Z.of_nat u < 2 ^ 33)%Z ->
  (i = u /\ (JS.of_size i / JS.of_size u)%float = 1%float)
  \/ ((i < u)%nat
      /\ fin_le (Prim2SF (JS.of_size i / JS.of_size u)) v_ratio).
Proof.
  intros Hle Hu Hb.
  assert (Hb53 : (Z.of_nat u < 2 ^ 53)%Z).
  { assert (2 ^ 33 < 2 ^ 53)%Z by reflexivity. lia. }
  destruct (of_size_value u Hu Hb53) as [mu [eu [Hyu [Hcu [Hnu [Heu Hvu]]]]]].
  destruct (Nat.eq_dec i u) as [-> | Hne].
  - left. split; [reflexivity |]. exact (div_self _ mu eu Hyu Hnu).
  - right. split; [lia |].
    destruct (Nat.eq_dec i 0) as [-> | Hi0].
    + rewrite FloatAxioms.div_spec, Hyu.
      change (Prim2SF (JS.of_size 0)) with (S754_zero false). now left.
    + destruct (of_size_value i ltac:(lia) ltac:(lia))
        as [mi [ei [Hyi [Hci [Hni [Hei Hvi]]]]]].
      apply (div_bound _ _ mi mu ei eu); try assumption; try lia.
      * canon.
      * rewrite Hvi, Hvu.
        assert (H1 : IZR (Z.of_nat i) + 1 <= IZR (Z.of_nat u)).
        { rewrite <- plus_IZR. apply IZR_le. lia. }
        assert (H2 : IZR (Z.of_nat u) < IZR (2 ^ 33)) by now apply IZR_lt.
        assert (H3 : 0 < IZR (Z.of_nat u)) by (apply (IZR_lt 0); lia).
        replace (F2R (9007199254740992 - 1048576) (-53))
          with (1 - / IZR (2 ^ 33)) by numeric.
        assert (H4 : IZR (Z.of_nat u) * / IZR (2 ^ 33) < 1).
        { apply (Rmult_lt_reg_r (IZR (2 ^ 33))); [simpl; lra |].
          rewrite Rmult_assoc, Rinv_l by (simpl; lra). lra. }
        nra.
Qed.

Lemma tag_term (i u : nat) :
  (i <= u)%nat -> (0 < u)%nat -> (Z.of_nat u < 2 ^ 33)%Z ->
  (i = u /\ (JS.of_size i / JS.of_size u * JS.lit_0_2)%float = JS.lit_0_2)
  \/ ((i < u)%nat
      /\ fin_le (Prim2SF (JS.of_size i / JS.of_size u * JS.lit_0_2)) w_0_2).
Proof.
  intros Hle Hu Hb.
  destruct (ratio_cases i u Hle Hu Hb) as [[He ->] | [Hlt Hr]].
  - left. split; [assumption | reflexivity].
  - right. split; [assumption |].
    apply (mul_bound _ _ v_ratio 7205759403792794 (-55));
      [assumption | reflexivity | lia | canon | numeric].
Qed.

Lemma ingredient_term (i u : nat) :
  (i <= u)%nat -> (0 < u)%nat -> (Z.of_nat u < 2 ^ 33)%Z ->
  (i = u /\ (JS.of_size i / JS.of_size u * JS.lit_0_1)%float = JS.lit_0_1)
  \/ ((i < u)%nat
      /\ fin_le (Prim2SF (JS.of_size i / JS.of_size u * JS.lit_0_1)) w_0_1).
Proof.
  intros Hle Hu Hb.
  destruct (ratio_cases i u Hle Hu Hb) as [[He ->] | [Hlt Hr]].
  - left. split; [assumption | reflexivity].
  - right. split; [assumption |].
    apply (mul_bound _ _ v_ratio 7205759403792794 (-56));
      [assumption | reflexivity | lia | canon | numeric].
Qed.

(** The score before the overlaps is 0.7 when cuisine and category match
    and at most 0.4 otherwise. *)
Lemma base_cases (cu ca : bool) :
  (cu = true /\ ca = true) \/
  (cu && ca = false /\ fin_le (Prim2SF (base cu ca)) v_0_4).
Proof.
  destruct cu, ca; [left; now split | right | right | right];
    (split; [reflexivity |]).
  - apply (fin_le_self _ 7205759403792794 (-54)). reflexivity.
  - apply fin_le_weaken with (F2R 5404319552844595 (-54)); [| numeric].
    apply (fin_le_self _ 5404319552844595 (-54)). reflexivity.
  - apply fin_le_zero.
Qed.

Lemma base_le (cu ca : bool) : fin_le (Prim2SF (base cu ca)) v_0_7.
Proof.
  destruct (base_cases cu ca) as [[-> ->] | [_ H]].
  - apply (fin_le_self _ 6305039478318694 (-53)). reflexivity.
  - apply fin_le_weaken with v_0_4; [assumption | numeric].
Qed.

(** After the tags: 0.8999999999999999 when cuisine, category and all tags
    match, and otherwise at least [2 ^ 15] units in the last place less. *)
Lemma tags_cases (cu ca : bool) (i u : nat) :
  (i <= u)%nat -> (Z.of_nat u < 2 ^ 33)%Z ->
  (cu = true /\ ca = true /\ i = u /\ (0 < u)%nat
   /\ overlap_term (base cu ca) i u JS.lit_0_2
      = (base true true + JS.lit_0_2)%float)
  \/ (~ (cu = true /\ ca = true /\ i = u /\ (0 < u)%nat)
      /\ fin_le (Prim2SF (overlap_term (base cu ca) i u JS.lit_0_2)) w_0_9).
Proof.
  intros Hle Hb. unfold overlap_term.
  destruct (Nat.eqb_spec u 0) as [-> | Hu].
  - right. split; [lia |].
    apply fin_le_weaken with v_0_7; [apply base_le | numeric].
  - destruct (tag_term i u Hle ltac:(lia) Hb) as [[He ->] | [Hlt Ht]].
    + destruct (base_cases cu ca) as [[-> ->] | [Hf Hbase]].
      * left. repeat split; trivial. lia.
      * right. split; [intros [-> [-> _]]; discriminate |].
        apply (add_bound _ _ v_0_4 v_0_2); try assumption;
          [| numeric | numeric | canon | numeric].
        apply (fin_le_self _ 7205759403792794 (-55)). reflexivity.
    + right. split; [lia |].
      apply (add_bound _ _ v_0_7 w_0_2); try assumption;
        [apply base_le | numeric | numeric | canon | numeric].
Qed.

(** The score is the greatest one when everything matches, and otherwise
    at least [2 ^ 14] units in the last place less. *)
Lemma score_cases (cu ca : bool) (i1 u1 i2 u2 : nat) :
  (i1 <= u1)%nat -> (Z.of_nat u1 < 2 ^ 33)%Z ->
  (i2 <= u2)%nat -> (Z.of_nat u2 < 2 ^ 33)%Z ->
  (all_match cu ca i1 u1 i2 u2 /\ score_of cu ca i1 u1 i2 u2 = max_score)
  \/ (~ all_match cu ca i1 u1 i2 u2
      /\ fin_le (Prim2SF (score_of cu ca i1 u1 i2 u2)) w_max).
Proof.
  intros Hle1 Hb1 Hle2 Hb2. unfold score_of, all_match.
  pose proof (tags_cases cu ca i1 u1 Hle1 Hb1) as Htags.
  set (s1 := overlap_term (base cu ca) i1 u1 JS.lit_0_2) in *.
  unfold overlap_term.
  destruct Htags as [[Hcu [Hca [He1 [Hu1 Hs1e]]]] | [Hn Hs1]].
  - assert (Hs1 : fin_le (Prim2SF s1) v_0_9).
    { rewrite Hs1e. apply (fin_le_self _ 8106479329266892 (-53)). reflexivity. }
    destruct (Nat.eqb_spec u2 0) as [-> | Hu2].
    + right. split; [lia |].
      apply fin_le_weaken with v_0_9; [assumption | numeric].
    + destruct (ingredient_term i2 u2 Hle2 ltac:(lia) Hb2)
        as [[He2 ->] | [Hlt Ht]].
      * left. split; [repeat split; trivial; lia |].
        rewrite Hs1e. reflexivity.
      * right. split; [lia |].
        apply (add_bound _ _ v_0_9 w_0_1); try assumption;
          [numeric | numeric | canon | numeric].
  - right. split; [tauto |].
    destruct (Nat.eqb_spec u2 0) as [-> | Hu2].
    + apply fin_le_weaken with w_0_9; [assumption | numeric].
    + assert (Ht : fin_le (Prim2SF (JS.of_size i2 / JS.of_size u2 * JS.lit_0_1))
                          v_0_1).
      { destruct (ingredient_term i2 u2 Hle2 ltac:(lia) Hb2)
          as [[He2 ->] | [Hlt Ht]].
        - apply (fin_le_self _ 7205759403792794 (-56)). reflexivity.
        - apply fin_le_weaken with w_0_1; [assumption | numeric]. }
      apply (add_bound _ _ w_0_9 v_0_1); try assumption;
        [numeric | numeric | canon | numeric].
Qed.

(** The bounds of the score, and where the greatest one is reached. *)
Lemma score_of_bounds (cu ca : bool) (i1 u1 i2 u2 : nat) :
  (i1 <= u1)%nat -> (Z.of_nat u1 < 2 ^ 33)%Z ->
  (i2 <= u2)%nat -> (Z.of_nat u2 < 2 ^ 33)%Z ->
  let s := score_of cu ca i1 u1 i2 u2 in
  (0 <=? s)%float = true /\ (s <=? 1)%float = true
  /\ (s <=? max_score)%float = true /\ s <> 1%float
  /\ (s = max_score <-> all_match cu ca i1 u1 i2 u2).
Proof.
  intros Hle1 Hb1 Hle2 Hb2 s.
  assert (Hmax : Prim2SF max_score = S754_finite false 9007199254740991 (-53))
    by reflexivity.
  assert (Hs : fin_le (Prim2SF s) v_max).
  { destruct (score_cases cu ca i1 u1 i2 u2 Hle1 Hb1 Hle2 Hb2)
      as [[_ H] | [_ H]].
    - fold s in H. rewrite H. now apply fin_le_self.
    - apply fin_le_weaken with w_max; [assumption | numeric]. }
  split; [now apply (fin_le_nonneg s v_max) |].
  split; [apply (fin_le_leb s 1%float 4503599627370496 (-52)); [reflexivity |];
          apply fin_le_weaken with v_max; [assumption | numeric] |].
  split; [now apply (fin_le_leb s max_score 9007199254740991 (-53)) |].
  split; [apply (fin_le_neq s 1%float 4503599627370496 (-52) v_max);
          [reflexivity | numeric | assumption] |].
  destruct (score_cases cu ca i1 u1 i2 u2 Hle1 Hb1 Hle2 Hb2)
    as [[Ha H] | [Hn H]]; fold s in H.
  - tauto.
  - split; [| tauto]. intros He. exfalso.
    apply (fin_le_neq s max_score 9007199254740991 (-53) w_max);
      [reflexivity | numeric | assumption | assumption].
Qed.

End ScoreBounds.
Section ScoreTheorems.

Import Binary64 Binary64Facts ScoreValues ScoreBounds.
Variable toLowerCase : string -> string.

Lemma calculateSimilarity_score_of (t c : Recipe) :
  calculateSimilarity toLowerCase t c
  = score_of (cuisine t =? cuisine c)%string (category t =? category c)%string
             (inter_size toLowerCase (tags t) (tags c))
             (union_size toLowerCase (tags t) (tags c))
             (inter_size toLowerCase (ingredients t) (ingredients c))
             (union_size toLowerCase (ingredients t) (ingredients c)).
Proof.
  unfold calculateSimilarity, score_of, overlap_term.
  rewrite !add_overlap_spec. reflexivity.
Qed.

Lemma union_size_bound (a b : list string) :
  array_ok a -> array_ok b ->
  (Z.of_nat (union_size toLowerCase a b) < 2 ^ 33)%Z.
Proof.
  unfold array_ok. intros Ha Hb.
  pose proof (union_size_le toLowerCase a b).
  change (2 ^ 33)%Z with (2 ^ 32 + 2 ^ 32)%Z. lia.
Qed.

Lemma all_match_full (t c : Recipe) :
  all_match (cuisine t =? cuisine c)%string (category t =? category c)%string
            (inter_size toLowerCase (tags t) (tags c))
            (union_size toLowerCase (tags t) (tags c))
            (inter_size toLowerCase (ingredients t) (ingredients c))
            (union_size toLowerCase (ingredients t) (ingredients c))
  <-> full_match toLowerCase t c.
Proof.
  unfold all_match, full_match.
  rewrite <- !same_labels_iff, !String.eqb_eq. tauto.
Qed.

End ScoreTheorems.

(** ** The server route

    [GET /api/recipes/:id/recommendations] scores the rows of
    [SELECT * FROM recipes WHERE id != ?] with its own copy of the
    computation.  It returns what the engine returns. *)

Section Route.

Variable toLowerCase : string -> string.

Lemma common_spread (a b : JS.StrSet) :
  NoDup a -> JS.spread (JS.new_Set (common a b)) = common a b.
Proof.
  intros Ha. unfold JS.spread. apply SetFacts.new_Set_NoDup.
  now apply NoDup_filter.
Qed.

Lemma union_nonempty (a b : JS.StrSet) :
  NoDup a -> NoDup b ->
  (0 <? length (common a b))%nat = true ->
  (0 <? JS.size (union a b))%nat = true.
Proof.
  intros Ha Hb H. apply Nat.ltb_lt in H. apply Nat.ltb_lt.
  pose proof (SetFacts.size_union a b Ha Hb) as Hu.
  pose proof (SetFacts.length_filter_split (JS.has a) b) as Hs.
  pose proof (SetFacts.length_filter_split (JS.has b) a) as Hs'.
  pose proof (SetFacts.length_common_sym a b Ha Hb) as Hc.
  unfold union, common, JS.spread, JS.size in *. lia.
Qed.

Lemma route_overlap_eq (sr : float * list string) (a b : list string)
      (w : float) (label : string) (n : Z) :
  route_overlap sr (lowered toLowerCase a) (lowered toLowerCase b) w label n
  = (add_overlap (fst sr) (lowered toLowerCase a) (lowered toLowerCase b) w,
     if (0 <? length (common (lowered toLowerCase a)
                             (lowered toLowerCase b)))%nat
     then push (snd sr)
               (label ++ JS.join ", "
                           (JS.slice0 (common (lowered toLowerCase a)
                                              (lowered toLowerCase b)) n))%string
     else snd sr).
Proof.
  destruct sr as [s r]. unfold route_overlap, add_overlap. cbn [fst snd].
  rewrite common_spread by apply NoDup_lowered.
  rewrite size_intersection by apply NoDup_lowered.
  change (length (filter (JS.has (lowered toLowerCase b))
                         (lowered toLowerCase a)))
    with (length (common (lowered toLowerCase a) (lowered toLowerCase b))).
  destruct (0 <? length (common (lowered toLowerCase a)
                                (lowered toLowerCase b)))%nat eqn:E.
  - rewrite (union_nonempty _ _ (NoDup_lowered toLowerCase a)
                            (NoDup_lowered toLowerCase b) E).
    reflexivity.
  - destruct (0 <? JS.size _)%nat; reflexivity.
Qed.

Lemma route_entry_eq (t c : Recipe) :
  route_entry toLowerCase t c = entry toLowerCase t c.
Proof.
  unfold route_entry, entry, calculateSimilarity, generateReasons.
  rewrite !route_overlap_eq. cbn [fst snd].
  destruct (cuisine t =? cuisine c)%string eqn:E1;
    destruct (category t =? category c)%string eqn:E2;
    try (apply String.eqb_eq in E1; rewrite <- E1);
    try (apply String.eqb_eq in E2; rewrite <- E2);
    reflexivity.
Qed.

Lemma filter_map_comm (A B : Type) (f : A -> B) (P : B -> bool) (l : list A) :
  filter P (map f l) = map f (filter (fun x => P (f x)) l).
Proof.
  induction l as [| x l IH]; simpl; [reflexivity |].
  destruct (P (f x)); simpl; now rewrite IH.
Qed.

Lemma candidates_all (t : Recipe) (rows : list Recipe) :
  Forall (fun row => id row <> id t) rows -> candidates t rows = rows.
Proof.
  unfold candidates. induction 1 as [| row rows Hrow _ IH]; simpl.
  - reflexivity.
  - apply String.eqb_neq in Hrow. rewrite Hrow. simpl. now rewrite IH.
Qed.

(** On the rows of the query, an integer limit gives the result of the
    engine. *)
Lemma route_eq (t : Recipe) (rows : list Recipe) (limit : Z) :
  Forall (fun row => id row <> id t) rows ->
  route toLowerCase t rows (Some limit)
  = getRecommendations toLowerCase t rows limit.
Proof.
  intros H. unfold route, getRecommendations. cbn [JS.slice0_number].
  rewrite scored_eq, (candidates_all t rows H), filter_map_comm.
  do 2 f_equal.
  rewrite (map_ext _ _ (route_entry_eq t)).
  f_equal. apply filter_ext. intros c. now rewrite route_entry_eq.
Qed.

End Route.

(** ** The properties of the engine *)

Section Claims.

Import Binary64 Binary64Facts OrderFacts ScoreValues ScoreBounds.

Variable toLowerCase : string -> string.

(** C1.  For every pair of recipes, [calculateSimilarity] is the sum the
    specification gives: 0.4 if the cuisines are equal (equality of
    strings, case-sensitive) else 0, plus 0.3 if the categories are equal
    else 0, plus 0.2 times the Jaccard ratio of the lower-cased tag sets,
    plus 0.1 times that of the lower-cased ingredient sets, a ratio being
    0 when the union is empty.  The sum, the products and the quotients
    are those of binary64, taken from left to right. *)
Theorem calculateSimilarity_formula (target candidate : Recipe) :
  calculateSimilarity toLowerCase target candidate
  = score_spec toLowerCase target candidate.
Proof.
  unfold calculateSimilarity, score_spec.
  change (if (category target =? category candidate)%string
          then ((if (cuisine target =? cuisine candidate)%string
                 then (0 + JS.lit_0_4)%float else 0%float) + JS.lit_0_3)%float
          else (if (cuisine target =? cuisine candidate)%string
                then (0 + JS.lit_0_4)%float else 0%float))
    with (base (cuisine target =? cuisine candidate)%string
               (category target =? category candidate)%string).
  rewrite <- base_spec.
  rewrite (add_overlap_jaccard toLowerCase (base _ _) (tags target));
    [| apply base_nonneg | reflexivity].
  rewrite add_overlap_jaccard; [reflexivity | | reflexivity].
  apply FloatSign.nonneg_add; [apply base_nonneg |].
  apply FloatSign.nonneg_mul; [apply lit_0_2_nonneg | apply jaccard_nonneg].
Qed.

(** C2.  For every target, pool and limit, every entry of the result of
    [getRecommendations] carries the score of its recipe, and that score
    is strictly greater than 0.1; it is never exactly 0.1, so a candidate
    that scores exactly 0.1 is filtered out. *)
Theorem threshold_exclusive (t : Recipe) (pool : list Recipe) (limit : Z) :
  Forall (fun e => score e = calculateSimilarity toLowerCase t (recipe e)
                   /\ (JS.lit_0_1 <? score e)%float = true
                   /\ score e <> JS.lit_0_1)
         (getRecommendations toLowerCase t pool limit).
Proof.
  apply Forall_forall. intros e He.
  apply In_getRecommendations in He.
  destruct He as [c [_ [_ [Hp ->]]]]. simpl. unfold passes, JS.gt in Hp.
  repeat split; [assumption |].
  intros Heq. rewrite Heq in Hp. discriminate Hp.
Qed.

(** C3.  For every target, pool and limit, the scores of the result are
    non-increasing: every entry scores at least as much as every later
    one.  The result is a prefix of the sorted array [ranked], which is a
    permutation of the filtered candidate sequence [scored] in which the
    entries of any one score keep the order they had in [scored]: the sort
    is stable and has no second key. *)
Theorem ranking_sorted_stable (t : Recipe) (pool : list Recipe) (limit : Z) :
  StronglySorted (fun a b => (score b <=? score a)%float = true)
                 (getRecommendations toLowerCase t pool limit)
  /\ (exists k, getRecommendations toLowerCase t pool limit
                = firstn k (ranked toLowerCase t pool))
  /\ Permutation (ranked toLowerCase t pool) (scored toLowerCase t pool)
  /\ forall v,
       filter (fun e => (score e =? v)%float) (ranked toLowerCase t pool)
       = filter (fun e => (score e =? v)%float) (scored toLowerCase t pool).
Proof.
  pose proof (scored_above toLowerCase t pool) as Ha.
  split; [| split; [| split]].
  - rewrite getRecommendations_ranked.
    destruct (ArrayFacts.slice0_firstn _ (ranked toLowerCase t pool) limit)
      as [k ->].
    apply StronglySorted_firstn.
    apply (StronglySorted_impl _ desc); [intros a b [_ [_ H]]; exact H |].
    apply Sorted_StronglySorted; [exact desc_trans |].
    now apply sort_sorted.
  - rewrite getRecommendations_ranked. apply ArrayFacts.slice0_firstn.
  - apply ArrayFacts.sort_perm.
  - intros v. apply sort_filter. intros x y Hx Hy Hgt Px Py.
    rewrite Forall_forall in Ha.
    assert (Ax : above x) by now apply Ha.
    assert (Ay : above y) by now apply Ha.
    rewrite gt_by_score in Hgt by assumption.
    apply eqb_pos_eq in Px, Py; trivial.
    rewrite Px, Py, ltb_irrefl in Hgt. discriminate.
Qed.

(** C4, as amended.  For every target and pool and every integer limit
    that is not negative, the result of [getRecommendations] is the first
    [limit] entries of the sorted array and has at most [limit] entries;
    for the limit 0 it is empty.  For a negative limit, [slice] counts
    from the end: the result is the sorted array without its last
    [- limit] entries. *)
Theorem truncation (t : Recipe) (pool : list Recipe) (limit : Z) :
  ((0 <= limit)%Z ->
     getRecommendations toLowerCase t pool limit
     = firstn (Z.to_nat limit) (ranked toLowerCase t pool)
     /\ (Z.of_nat (length (getRecommendations toLowerCase t pool limit))
         <= limit)%Z)
  /\ (limit = 0%Z -> getRecommendations toLowerCase t pool limit = [])
  /\ ((limit < 0)%Z ->
        getRecommendations toLowerCase t pool limit
        = firstn (length (ranked toLowerCase t pool) - Z.to_nat (- limit))
                 (ranked toLowerCase t pool)).
Proof.
  rewrite getRecommendations_ranked. repeat split.
  - now apply ArrayFacts.slice0_nonneg.
  - rewrite ArrayFacts.slice0_nonneg by assumption.
    pose proof (firstn_le_length (Z.to_nat limit) (ranked toLowerCase t pool)).
    rewrite length_firstn. lia.
  - intros ->. now rewrite ArrayFacts.slice0_nonneg.
  - intros H. now apply ArrayFacts.slice0_neg.
Qed.

(** C5, as amended.  For every pair with a non-empty case-insensitive tag
    intersection, the reasons contain ["Similar tags: "] followed by up to
    the first 3 intersecting tags, comma-joined, in lower case and without
    repeats: the lower-cased forms of the target's intersecting tags, each
    once, in the order of their first occurrence.  Likewise the
    ingredients, with up to the first 2. *)
Theorem reasons_lower_cased (t c : Recipe) :
  (overlap toLowerCase (tags t) (tags c) = true ->
     In ("Similar tags: "
           ++ JS.join ", "
                (firstn 3 (lowered toLowerCase
                             (intersecting_original toLowerCase
                                                    (tags t) (tags c)))))%string
        (generateReasons toLowerCase t c))
  /\ (overlap toLowerCase (ingredients t) (ingredients c) = true ->
        In ("Similar ingredients: "
              ++ JS.join ", "
                   (firstn 2 (lowered toLowerCase
                                (intersecting_original
                                   toLowerCase
                                   (ingredients t) (ingredients c)))))%string
           (generateReasons toLowerCase t c)).
Proof.
  rewrite generateReasons_eq.
  unfold specific_reasons, when, tags_reason, ingredients_reason.
  split; intros ->;
    destruct (cuisine t =? cuisine c)%string,
             (category t =? category c)%string;
    try destruct (overlap toLowerCase (tags t) (tags c));
    try destruct (overlap toLowerCase (ingredients t) (ingredients c));
    simpl; auto 6.
Qed.

(** C6.  For every target, pool and limit, no entry of the result of
    [getRecommendations] has the id of the target: the pool entries with
    that id are removed before any scoring. *)
Theorem target_excluded (t : Recipe) (pool : list Recipe) (limit : Z) :
  Forall (fun e => id (recipe e) <> id t)
         (getRecommendations toLowerCase t pool limit)
  /\ Forall (fun c => id c <> id t) (candidates t pool).
Proof.
  split.
  - apply Forall_forall. intros e He.
    apply In_getRecommendations in He.
    destruct He as [c [_ [Hi [_ ->]]]]. simpl.
    now apply String.eqb_neq.
  - apply Forall_forall. intros c Hc. unfold candidates in Hc.
    apply filter_In in Hc. destruct Hc as [_ Hc].
    apply negb_true_iff in Hc. now apply String.eqb_neq.
Qed.

(** C7, as amended.  For every pair of recipes whose tag and ingredient
    arrays have fewer than [2 ^ 32] elements, the score lies in the closed
    interval from 0 to 1.  The value 1 is never reached: the greatest
    score is [max_score], the binary64 number 0.9999999999999999 that
    [0.4 + 0.3 + 0.2 + 0.1] evaluates to, and it is reached exactly when
    the cuisines are equal, the categories are equal, the lower-cased tag
    sets are equal and not empty, and the lower-cased ingredient sets are
    equal and not empty. *)
Theorem score_bounds (t c : Recipe) :
  well_formed t -> well_formed c ->
  (0 <=? calculateSimilarity toLowerCase t c)%float = true
  /\ (calculateSimilarity toLowerCase t c <=? 1)%float = true
  /\ calculateSimilarity toLowerCase t c <> 1%float
  /\ (calculateSimilarity toLowerCase t c <=? max_score)%float = true
  /\ (calculateSimilarity toLowerCase t c = max_score
      <-> full_match toLowerCase t c).
Proof.
  intros [Htt Hti] [Hct Hci].
  rewrite calculateSimilarity_score_of, <- all_match_full.
  pose proof (score_of_bounds
                (cuisine t =? cuisine c)%string (category t =? category c)%string
                _ _ _ _
                (inter_le_union toLowerCase (tags t) (tags c))
                (union_size_bound toLowerCase _ _ Htt Hct)
                (inter_le_union toLowerCase (ingredients t) (ingredients c))
                (union_size_bound toLowerCase _ _ Hti Hci)) as H.
  cbv zeta in H. tauto.
Qed.

(** C8.  For every pair of recipes, [generateReasons] returns a non-empty
    list: the cuisine reason, the category reason, the tags reason and the
    ingredients reason in this order, each present exactly when its factor
    matches, or the single fallback ["Similar recipe"] when none is. *)
Theorem explain_order (t c : Recipe) :
  generateReasons toLowerCase t c <> [] /\
  generateReasons toLowerCase t c
  = or_fallback
      (when (cuisine t =? cuisine c)%string
            ("Same cuisine (" ++ cuisine t ++ ")")%string
       ++ when (category t =? category c)%string
               ("Same category (" ++ category t ++ ")")%string
       ++ when (overlap toLowerCase (tags t) (tags c))
               (tags_reason toLowerCase t c)
       ++ when (overlap toLowerCase (ingredients t) (ingredients c))
               (ingredients_reason toLowerCase t c)).
Proof.
  split; [| apply generateReasons_eq].
  rewrite generateReasons_eq.
  destruct (specific_reasons toLowerCase t c) eqn:E; simpl; discriminate.
Qed.

(** C9.  For every pair of recipes [A] and [B], the score of [B] for the
    target [A] is the score of [A] for the target [B]. *)
Theorem calculateSimilarity_sym (A B : Recipe) :
  calculateSimilarity toLowerCase A B = calculateSimilarity toLowerCase B A.
Proof.
  unfold calculateSimilarity.
  rewrite (String.eqb_sym (cuisine A)), (String.eqb_sym (category A)).
  rewrite (add_overlap_sym _ _ _ _ (NoDup_lowered toLowerCase (tags A))
                           (NoDup_lowered toLowerCase (tags B))).
  rewrite (add_overlap_sym _ _ _ _ (NoDup_lowered toLowerCase (ingredients A))
                           (NoDup_lowered toLowerCase (ingredients B))).
  reflexivity.
Qed.

(** C10.  For every target, pool and limit (a positive one in particular),
    no entry of the result of [getRecommendations] has the fallback list
    ["Similar recipe"] as its reasons: an entry passed the threshold, so
    its cuisine or its category matches or a case-insensitive tag or
    ingredient intersection is not empty, and its reasons are the non-empty
    list of the specific reasons. *)
Theorem fallback_unreachable (t : Recipe) (pool : list Recipe) (limit : Z) :
  Forall (fun e =>
            reasons e <> ["Similar recipe"%string]
            /\ reasons e = specific_reasons toLowerCase t (recipe e)
            /\ specific_reasons toLowerCase t (recipe e) <> []
            /\ (cuisine t =? cuisine (recipe e))%string
               || (category t =? category (recipe e))%string
               || overlap toLowerCase (tags t) (tags (recipe e))
               || overlap toLowerCase (ingredients t) (ingredients (recipe e))
               = true)
         (getRecommendations toLowerCase t pool limit).
Proof.
  apply Forall_forall. intros e He.
  apply In_getRecommendations in He. destruct He as [c [_ [_ [Hp ->]]]].
  simpl. pose proof (specific_nonempty _ _ _ Hp) as Hne.
  assert (Hr : generateReasons toLowerCase t c = specific_reasons toLowerCase t c).
  { rewrite generateReasons_eq.
    destruct (specific_reasons toLowerCase t c); [congruence | reflexivity]. }
  rewrite Hr. repeat split; auto.
  - apply specific_not_fallback.
  - now apply passes_factor.
Qed.

End Claims.

(** ** Facts about the string built-ins *)

Module StringFacts.

Import JSString.
Local Open Scope string_scope.

Lemma truthy_iff (s : string) : truthy s = true <-> s <> "".
Proof.
  unfold truthy. rewrite negb_true_iff. apply String.eqb_neq.
Qed.

Lemma occurrences_app (c : ascii) (a b : string) :
  occurrences c (a ++ b) = (occurrences c a + occurrences c b)%nat.
Proof.
  induction a as [| x a IH]; simpl; [reflexivity |].
  destruct (Ascii.eqb x c); rewrite IH; reflexivity.
Qed.

Lemma append_nil_r_aux (s : string) : s ++ "" = s.
Proof. induction s as [| c s IH]; simpl; [reflexivity | now rewrite IH]. Qed.

(** *** [split] *)

Lemma split_nonempty (sep : ascii) (s : string) : split sep s <> [].
Proof.
  destruct s as [| c s]; simpl; [discriminate |].
  destruct (Ascii.eqb c sep); [discriminate |].
  destruct (split sep s); discriminate.
Qed.

Lemma split_absent (sep : ascii) (s : string) :
  occurrences sep s = 0%nat -> split sep s = [s].
Proof.
  induction s as [| c s IH]; simpl; [reflexivity |].
  destruct (Ascii.eqb c sep); [discriminate |].
  intros H. rewrite (IH H). reflexivity.
Qed.

Lemma split_app (sep : ascii) (x rest : string) :
  occurrences sep x = 0%nat ->
  split sep (x ++ String sep rest) = x :: split sep rest.
Proof.
  induction x as [| c x IH]; simpl.
  - rewrite Ascii.eqb_refl. reflexivity.
  - destruct (Ascii.eqb c sep); [discriminate |].
    intros H. rewrite (IH H). reflexivity.
Qed.

Lemma split_pieces (sep : ascii) (s : string) :
  Forall (fun p => occurrences sep p = 0%nat) (split sep s).
Proof.
  induction s as [| c s IH]; simpl.
  - constructor; [reflexivity | constructor].
  - destruct (Ascii.eqb c sep) eqn:E.
    + constructor; [reflexivity | assumption].
    + destruct (split sep s) as [| p r].
      * constructor; [| constructor]. simpl. rewrite E. reflexivity.
      * inversion IH as [| ? ? Hp Hr]; subst.
        constructor; [| assumption]. simpl. rewrite E. assumption.
Qed.

Lemma length_split (sep : ascii) (s : string) :
  length (split sep s) = S (occurrences sep s).
Proof.
  induction s as [| c s IH]; simpl; [reflexivity |].
  destruct (Ascii.eqb c sep); simpl; [now rewrite IH |].
  destruct (split sep s) as [| p r]; simpl in *; [discriminate | assumption].
Qed.

(** Joining the pieces with the separator gives the string back. *)
Lemma join_split (sep : ascii) (s : string) :
  JS.join (String sep "") (split sep s) = s.
Proof.
  induction s as [| c s IH]; simpl; [reflexivity |].
  pose proof (split_nonempty sep s) as Hn.
  destruct (Ascii.eqb_spec c sep) as [-> | Hne].
  - destruct (split sep s) as [| p r]; [contradiction |].
    simpl in *. rewrite IH. reflexivity.
  - destruct (split sep s) as [| p r]; [contradiction |].
    destruct r as [| q r]; simpl in *; rewrite <- IH; reflexivity.
Qed.

(** *** [trim] *)

Lemma trimStart_headOk (s : string) : headOk (trimStart s) = true.
Proof.
  induction s as [| c s IH]; simpl; [reflexivity |].
  destruct (isWhiteSpace c) eqn:E; [assumption |]. simpl. now rewrite E.
Qed.

Lemma headOk_trimStart (s : string) : headOk s = true -> trimStart s = s.
Proof.
  destruct s as [| c s]; simpl; [reflexivity |].
  destruct (isWhiteSpace c); [discriminate | reflexivity].
Qed.

Lemma headOk_trimEnd (s : string) :
  headOk s = true -> headOk (trimEnd s) = true.
Proof.
  destruct s as [| c s]; simpl; [reflexivity |]. intros H.
  destruct (trimEnd s); [| exact H].
  destruct (isWhiteSpace c) eqn:W; simpl; [reflexivity | now rewrite W].
Qed.

Lemma trimEnd_idem (s : string) : trimEnd (trimEnd s) = trimEnd s.
Proof.
  induction s as [| c s IH]; simpl; [reflexivity |].
  destruct (trimEnd s) as [| d t] eqn:E.
  - destruct (isWhiteSpace c) eqn:W; simpl; [reflexivity | now rewrite W].
  - change (trimEnd (String c (String d t)))
      with (match trimEnd (String d t) with
            | EmptyString =>
                if isWhiteSpace c then EmptyString else String c EmptyString
            | String _ _ as t' => String c t'
            end).
    rewrite IH. reflexivity.
Qed.

Lemma trim_idem (s : string) : trim (trim s) = trim s.
Proof.
  unfold trim.
  rewrite (headOk_trimStart (trimEnd (trimStart s))).
  - apply trimEnd_idem.
  - apply headOk_trimEnd, trimStart_headOk.
Qed.

Lemma trim_space (c : ascii) (s : string) :
  isWhiteSpace c = true -> trim (String c s) = trim s.
Proof. intros H. unfold trim. simpl. now rewrite H. Qed.

Lemma occurrences_trimStart (c : ascii) (s : string) :
  occurrences c s = 0%nat -> occurrences c (trimStart s) = 0%nat.
Proof.
  induction s as [| x s IH]; simpl; [reflexivity |]. intros H.
  destruct (Ascii.eqb x c) eqn:E; [discriminate |].
  destruct (isWhiteSpace x); [now apply IH |]. simpl. now rewrite E.
Qed.

Lemma occurrences_trimEnd (c : ascii) (s : string) :
  occurrences c s = 0%nat -> occurrences c (trimEnd s) = 0%nat.
Proof.
  induction s as [| x s IH]; simpl; [reflexivity |]. intros H.
  destruct (Ascii.eqb x c) eqn:E; [discriminate |].
  specialize (IH H).
  destruct (trimEnd s) as [| d t].
  - destruct (isWhiteSpace x); simpl; [reflexivity | now rewrite E].
  - change (occurrences c (String x (String d t)))
      with (if Ascii.eqb x c then S (occurrences c (String d t))
            else occurrences c (String d t)).
    rewrite E. exact IH.
Qed.

Lemma occurrences_trim (c : ascii) (s : string) :
  occurrences c s = 0%nat -> occurrences c (trim s) = 0%nat.
Proof.
  intros H. unfold trim. now apply occurrences_trimEnd, occurrences_trimStart.
Qed.

End StringFacts.

(** ** Facts about the comma-separated columns *)

Module ColumnFacts.

Import JSString StringFacts.
Local Open Scope string_scope.

Lemma cleanItem_iff (x : string) :
  cleanItem x = true
  <-> x <> "" /\ occurrences "," x = 0%nat /\ trim x = x.
Proof.
  unfold cleanItem. rewrite !andb_true_iff, truthy_iff, Nat.eqb_eq.
  rewrite String.eqb_eq. tauto.
Qed.

Lemma splitColumn_items (text : option string) :
  splitColumn text
  = match text with
    | None => []
    | Some s => if truthy s then items s else []
    end.
Proof. reflexivity. Qed.

Lemma items_empty : items "" = [].
Proof. reflexivity. Qed.

Lemma splitColumn_Some (s : string) : splitColumn (Some s) = items s.
Proof.
  rewrite splitColumn_items. destruct (truthy s) eqn:E; [reflexivity |].
  unfold truthy in E. apply negb_false_iff, String.eqb_eq in E. now subst.
Qed.

Lemma items_clean (s : string) :
  Forall (fun x => cleanItem x = true) (items s).
Proof.
  apply Forall_forall. intros x Hx. unfold items in Hx.
  apply filter_In in Hx. destruct Hx as [Hx Ht].
  apply in_map_iff in Hx. destruct Hx as [p [<- Hp]].
  apply cleanItem_iff. split; [now apply truthy_iff |].
  split; [| apply trim_idem].
  apply occurrences_trim.
  pose proof (split_pieces "," s) as H. rewrite Forall_forall in H.
  now apply H.
Qed.

Lemma splitColumn_items_clean (text : option string) :
  Forall (fun x => cleanItem x = true) (splitColumn text).
Proof.
  rewrite splitColumn_items. destruct text as [s |]; [| constructor].
  destruct (truthy s); [apply items_clean | constructor].
Qed.

Lemma join_cons (sep x y : string) (l : list string) :
  JS.join sep (x :: y :: l) = x ++ sep ++ JS.join sep (y :: l).
Proof. reflexivity. Qed.

Lemma map_trim_split_space (s : string) :
  map trim (split "," (String " " s)) = map trim (split "," s).
Proof.
  pose proof (split_nonempty "," s) as Hn.
  change (split "," (String " " s))
    with (match split "," s with
          | [] => [String " " EmptyString]
          | piece :: rest => String " " piece :: rest
          end).
  destruct (split "," s) as [| p r]; [contradiction |].
  simpl. rewrite trim_space by reflexivity. reflexivity.
Qed.

(** Clean items joined with either separator are read back as they
    were. *)
Lemma items_join (spaced : bool) (l : list string) :
  Forall (fun x => cleanItem x = true) l -> l <> [] ->
  items (JS.join (separator spaced) l) = l.
Proof.
  induction l as [| x l IH]; [contradiction |]. intros Hc _.
  inversion Hc as [| ? ? Hx Hl]; subst.
  apply cleanItem_iff in Hx. destruct Hx as [Hne [Hno Htrim]].
  destruct l as [| y l'].
  - unfold items. simpl JS.join. rewrite split_absent by assumption.
    simpl. rewrite Htrim.
    destruct (truthy x) eqn:E; [reflexivity |].
    apply truthy_iff in Hne. congruence.
  - rewrite join_cons.
    assert (IH' : items (JS.join (separator spaced) (y :: l')) = y :: l')
      by (apply IH; [assumption | discriminate]).
    set (J := JS.join (separator spaced) (y :: l')) in *.
    assert (Hs : map trim (split "," (x ++ separator spaced ++ J))
                 = x :: map trim (split "," J)).
    { destruct spaced; unfold separator.
      - change (x ++ ", " ++ J) with (x ++ String "," (String " " J)).
        rewrite split_app by assumption. cbn [map].
        rewrite Htrim, map_trim_split_space. reflexivity.
      - change (x ++ "," ++ J) with (x ++ String "," J).
        rewrite split_app by assumption. cbn [map]. now rewrite Htrim. }
    unfold items in *. rewrite Hs. simpl filter.
    destruct (truthy x) eqn:E.
    + now rewrite IH'.
    + apply truthy_iff in Hne. congruence.
Qed.

Lemma join_nonempty (sep x : string) (l : list string) :
  x <> "" -> JS.join sep (x :: l) <> "".
Proof.
  intros Hx. destruct l as [| y l]; simpl; [assumption |].
  destruct x; [contradiction | discriminate].
Qed.

Lemma splitColumn_join (spaced : bool) (l : list string) :
  Forall (fun x => cleanItem x = true) l ->
  splitColumn (Some (JS.join (separator spaced) l)) = l.
Proof.
  intros Hc. rewrite splitColumn_Some.
  destruct l as [| x l]; [reflexivity |].
  apply items_join; [assumption | discriminate].
Qed.

Lemma filter_app_last (id : string) (l : list string) :
  ~ In id l ->
  filter (fun x => negb (x =? id)) (l ++ [id]) = l.
Proof.
  intros H. rewrite filter_app. simpl. rewrite String.eqb_refl. simpl.
  rewrite app_nil_r. induction l as [| y l IH]; [reflexivity |].
  simpl. destruct (String.eqb_spec y id) as [-> | Hne].
  - exfalso. apply H. now left.
  - simpl. rewrite IH; [reflexivity |]. intros Hin. apply H. now right.
Qed.

Lemma includes_In (l : list string) (x : string) :
  includes l x = true <-> In x l.
Proof.
  unfold includes. rewrite existsb_exists. split.
  - intros [y [Hy E]]. apply String.eqb_eq in E. now subst.
  - intros H. exists x. split; [assumption | apply String.eqb_refl].
Qed.

Lemma occurrences_placeholders (A : Type) (l : list A) :
  l <> [] ->
  occurrences "?" (JS.join "," (map (fun _ => "?") l)) = length l.
Proof.
  induction l as [| x l IH]; [contradiction |]. intros _.
  destruct l as [| y l]; [reflexivity |].
  change (map (fun _ : A => "?") (x :: y :: l))
    with ("?" :: map (fun _ : A => "?") (y :: l)).
  change (map (fun _ : A => "?") (y :: l))
    with ("?" :: map (fun _ : A => "?") l) at 1.
  rewrite join_cons. rewrite !occurrences_app.
  change ("?" :: map (fun _ : A => "?") l)
    with (map (fun _ : A => "?") (y :: l)).
  rewrite IH by discriminate. reflexivity.
Qed.

End ColumnFacts.

(** ** Binary64: lower bounds through the operations *)

Module Binary64LowerFacts.

Import Binary64 Binary64Facts Binary64Lower.
Local Open Scope R_scope.

(** The packed result is at least the truncated value. *)
Lemma pack_fin_ge (m1 m2 e1 : Z) (B : R) :
  (0 < m1 < 2 ^ 53)%Z -> (-1074 <= e1)%Z -> (-1074 < e1 -> 2 ^ 52 <= m1)%Z ->
  (m1 <= m2 <= m1 + 1)%Z ->
  B <= F2R m1 e1 ->
  fin_ge (pack false m2 e1) B.
Proof.
  intros Hm1 He1 Hlo Hm2 HB. unfold pack, fin_ge.
  pose proof (bpow_pos e1) as Hp.
  destruct (Z.eqb_spec m2 0) as [| _]; [lia |].
  destruct (Z.eqb_spec m2 (2 ^ 53)) as [Hx | Hx].
  - destruct (Z.leb_spec (e1 + 1) 971) as [Hs | _]; [right | now left].
    exists (Z.to_pos (2 ^ 52)), (e1 + 1)%Z.
    change (Z.pos (Z.to_pos (2 ^ 52))) with (2 ^ 52)%Z.
    split; [reflexivity |]. split; [unfold canonic; lia |].
    unfold F2R in *. rewrite bpow_add.
    replace (bpow 1) with 2 by (unfold bpow; simpl; lra).
    assert (IZR m1 <= IZR (2 ^ 52) * 2).
    { rewrite <- mult_IZR. apply IZR_le. lia. }
    nra.
  - destruct (Z.leb_spec e1 971) as [Hs | _]; [right | now left].
    destruct m2 as [| p | p]; try lia.
    exists p, e1. split; [reflexivity |]. split; [unfold canonic; lia |].
    unfold F2R in *. assert (IZR m1 <= IZR (Zpos p)) by (apply IZR_le; lia).
    nra.
Qed.

(** Rounding a value whose truncation is at least a float gives at least
    that float. *)
Lemma round_fin_ge (mx ex : Z) (lx : location) (mc ec : Z) :
  (0 <= mx)%Z -> (ex <= fexp prec emax (Zdigits2 mx + ex))%Z ->
  canonic mc ec ->
  F2R mc ec <= F2R mx ex ->
  fin_ge (binary_round_aux prec emax false mx ex lx) (F2R mc ec).
Proof.
  intros Hm He Hc Hle.
  destruct (round_aux_spec false mx ex lx Hm He)
    as [m1 [m2 [rem [Heq [Hrem [Hm1 [Hlo [Hm2 ->]]]]]]]].
  set (e1 := fexp prec emax (Zdigits2 mx + ex)) in *.
  assert (He1 : (-1074 <= e1)%Z) by (unfold e1; rewrite fexp_eq; lia).
  destruct Hc as [Hmc [Hec Hnc]].
  pose proof (bpow_split e1 ex He) as HB1.
  pose proof (bpow_pos ex) as HP. pose proof (bpow_pos ec) as HQ.
  pose proof (bpow_pos e1) as HP1.
  set (N := (2 ^ (e1 - ex))%Z) in *.
  assert (HN : (1 <= N)%Z)
    by (unfold N; pose proof (Z.pow_pos_nonneg 2 (e1 - ex)); lia).
  assert (Hval : F2R mx ex < (IZR m1 + 1) * bpow e1).
  { unfold F2R. rewrite Heq, plus_IZR, mult_IZR, HB1.
    assert (IZR rem < IZR N) by (apply IZR_lt; lia). nra. }
  assert (Hmc0 : 0 < IZR mc) by (apply (IZR_lt 0); lia).
  assert (Hkey : F2R mc ec <= F2R m1 e1).
  { destruct (Z.compare_spec e1 ec) as [E | E | E].
    - (* the same exponent *)
      rewrite E in *. unfold F2R in *.
      apply Rmult_le_compat_r; [lra |]. apply IZR_le.
      assert (IZR mc < IZR m1 + 1) by nra.
      rewrite <- plus_IZR in H. apply lt_IZR in H. lia.
    - (* a smaller exponent cannot hold the value *)
      exfalso.
      assert (Hmc52 : (2 ^ 52 <= mc)%Z) by (apply Hnc; lia).
      assert (Hs : bpow ec = IZR (2 ^ (ec - e1)) * bpow e1)
        by (apply bpow_split; lia).
      assert (H2 : (2 <= 2 ^ (ec - e1))%Z).
      { change 2%Z with (2 ^ 1)%Z at 1. apply Z.pow_le_mono_r; lia. }
      apply IZR_le in H2. apply IZR_le in Hmc52.
      assert (Hm1' : IZR m1 + 1 <= IZR (2 ^ 53)).
      { rewrite <- plus_IZR. apply IZR_le. lia. }
      replace (IZR (2 ^ 53)) with (IZR (2 ^ 52) * 2) in Hm1'
        by (rewrite <- mult_IZR; reflexivity).
      assert (H52 : 0 < IZR (2 ^ 52)) by (apply (IZR_lt 0); reflexivity).
      unfold F2R in *. rewrite Hs in Hle.
      assert (IZR mc * IZR (2 ^ (ec - e1)) < IZR m1 + 1) by nra.
      nra.
    - (* a larger exponent: the result is normal *)
      assert (Hm152 : (2 ^ 52 <= m1)%Z) by (apply Hlo; lia).
      assert (Hs : bpow e1 = IZR (2 ^ (e1 - ec)) * bpow ec)
        by (apply bpow_split; lia).
      assert (H2 : (2 <= 2 ^ (e1 - ec))%Z).
      { change 2%Z with (2 ^ 1)%Z at 1. apply Z.pow_le_mono_r; lia. }
      apply IZR_le in H2. apply IZR_le in Hm152.
      assert (Hmc' : IZR mc <= IZR (2 ^ 52) * 2).
      { rewrite <- mult_IZR. apply IZR_le. lia. }
      assert (H52 : 0 < IZR (2 ^ 52)) by (apply (IZR_lt 0); reflexivity).
      unfold F2R. rewrite Hs.
      assert (IZR mc <= IZR m1 * IZR (2 ^ (e1 - ec))) by nra.
      nra. }
  assert (Hpos : (0 < m1)%Z).
  { apply lt_IZR. unfold F2R in Hkey. nra. }
  apply (pack_fin_ge m1 m2 e1); auto; [lia |].
  destruct Hm2 as [-> | [-> _]]; lia.
Qed.

(** Adding a non-negative finite value never gives less. *)
Lemma add_ge (x y : float) (By : R) (mc ec : Z) :
  fin_ge (Prim2SF x) (F2R mc ec) -> fin_le (Prim2SF y) By ->
  canonic mc ec ->
  fin_ge (Prim2SF (x + y)) (F2R mc ec).
Proof.
  intros Hx Hy Hc. rewrite FloatAxioms.add_spec.
  destruct Hx as [-> | [mx [ex [-> [Hcx Hlx]]]]];
    destruct Hy as [-> | [my [ey [-> [Hcy Hly]]]]].
  - now left.
  - now left.
  - right. exists mx, ex. auto.
  - unfold SF64add, SFadd.
    pose proof (shl_align_spec mx ex (Z.min ex ey)) as [_ Hax].
    pose proof (shl_align_spec my ey (Z.min ex ey)) as [_ Hay].
    replace (Z.min ex (Z.min ex ey)) with (Z.min ex ey) in Hax by lia.
    replace (Z.min ey (Z.min ex ey)) with (Z.min ex ey) in Hay by lia.
    set (ax := fst (shl_align mx ex (Z.min ex ey))) in *.
    set (ay := fst (shl_align my ey (Z.min ex ey))) in *.
    change (cond_Zopp false (Zpos ax) + cond_Zopp false (Zpos ay))%Z
      with (Zpos (ax + ay)).
    unfold binary_normalize.
    destruct (binary_round_eq false (ax + ay) (Z.min ex ey))
      as [mz [ez [Hr [Hmz [Hez [Hmz' Hpre]]]]]].
    rewrite Hr. apply round_fin_ge; try assumption; [lia |].
    rewrite Hmz', F2R_shift by lia.
    rewrite Pos2Z.inj_add, F2R_add, Hax, Hay, !F2R_shift by lia.
    pose proof (F2R_pos (Zpos my) ey ltac:(lia)). lra.
Qed.

(** The quotient of two normal floats is at least a float that the exact
    quotient exceeds by more than one part in [2 ^ 52]. *)
Lemma div_ge (x y : float) (mx my : positive) (ex ey mc ec : Z) :
  Prim2SF x = S754_finite false mx ex ->
  Prim2SF y = S754_finite false my ey ->
  (2 ^ 52 <= Zpos mx)%Z -> (2 ^ 52 <= Zpos my)%Z -> (-1021 <= ex - ey)%Z ->
  canonic mc ec ->
  F2R mc ec * F2R (Zpos my) ey * (1 + / IZR (2 ^ 52)) <= F2R (Zpos mx) ex ->
  fin_ge (Prim2SF (x / y)) (F2R mc ec).
Proof.
  intros Hx Hy Hnx Hny He Hc Hle.
  pose proof (Prim2SF_canonic x _ _ _ Hx) as [Hmx _].
  pose proof (Prim2SF_canonic y _ _ _ Hy) as [Hmy _].
  rewrite FloatAxioms.div_spec, Hx, Hy. unfold SF64div, SFdiv.
  rewrite div_core_normal by lia. change (xorb false false) with false.
  set (q := (Zpos mx * 2 ^ 53 / Zpos my)%Z).
  assert (Hq : (2 ^ 52 <= q)%Z).
  { unfold q. apply Z.div_le_lower_bound; [lia |].
    assert (Zpos my * 2 ^ 52 <= 2 ^ 53 * 2 ^ 52)%Z
      by (apply Z.mul_le_mono_nonneg_r; lia).
    assert (2 ^ 52 * 2 ^ 53 <= Zpos mx * 2 ^ 53)%Z
      by (apply Z.mul_le_mono_nonneg_r; lia).
    lia. }
  apply round_fin_ge; try assumption.
  - lia.
  - assert (H53 : (52 + 1 <= Zdigits2 q)%Z) by (apply Zdigits2_ge; lia).
    rewrite fexp_eq. lia.
  - assert (Hqm : (Zpos mx * 2 ^ 53 < (q + 1) * Zpos my)%Z).
    { unfold q.
      pose proof (Z.mod_pos_bound (Zpos mx * 2 ^ 53) (Zpos my) ltac:(lia)).
      pose proof (Z.div_mod (Zpos mx * 2 ^ 53) (Zpos my) ltac:(lia)). nia. }
    apply IZR_lt in Hqm. rewrite !mult_IZR, plus_IZR in Hqm.
    unfold F2R in *.
    replace (ex - ey - 53)%Z with ((ex - 53) + - ey)%Z by lia.
    rewrite bpow_add.
    assert (Hex : bpow ex = IZR (2 ^ 53) * bpow (ex - 53)).
    { rewrite (bpow_split ex (ex - 53)) by lia.
      replace (ex - (ex - 53))%Z with 53%Z by lia. reflexivity. }
    assert (Hey : bpow ey * bpow (- ey) = 1).
    { rewrite <- bpow_add. replace (ey + - ey)%Z with 0%Z by lia. reflexivity. }
    pose proof (bpow_pos (ex - 53)) as P1. pose proof (bpow_pos ey) as P2.
    pose proof (bpow_pos (- ey)) as P3. pose proof (bpow_pos ec) as P4.
    assert (Hmy0 : 0 < IZR (Zpos my)) by (apply (IZR_lt 0); lia).
    assert (Hq0 : IZR (2 ^ 52) <= IZR q) by (now apply IZR_le).
    assert (H52 : 0 < IZR (2 ^ 52)) by (apply (IZR_lt 0); reflexivity).
    rewrite Hex in Hle.
    set (C := IZR mc * bpow ec) in *.
    set (u := bpow (ex - 53)) in *.
    set (Y := IZR (Zpos my)) in *.
    set (X := IZR (Zpos mx) * IZR (2 ^ 53)) in *.
    assert (HC : 0 < C).
    { unfold C. destruct Hc as [? _].
      apply Rmult_lt_0_compat; [apply (IZR_lt 0); lia | assumption]. }
    (* C * (Y * bpow ey) * (1 + e) <= X * u  and  X < (q + 1) * Y *)
    assert (H1 : C * (Y * bpow ey) * (1 + / IZR (2 ^ 52)) < (IZR q + 1) * Y * u).
    { apply Rle_lt_trans with (IZR (Zpos mx) * (IZR (2 ^ 53) * u)); [exact Hle |].
      replace (IZR (Zpos mx) * (IZR (2 ^ 53) * u)) with (X * u)
        by (unfold X; ring).
      apply Rmult_lt_compat_r; assumption. }
    assert (H2 : IZR q + 1 <= IZR q * (1 + / IZR (2 ^ 52))).
    { assert (1 <= IZR q * / IZR (2 ^ 52)).
      { apply (Rmult_le_reg_r (IZR (2 ^ 52))); [assumption |].
        rewrite Rmult_assoc, Rinv_l by lra. lra. }
      lra. }
    assert (Hinv : 0 < 1 + / IZR (2 ^ 52)).
    { pose proof (Rinv_0_lt_compat _ H52). lra. }
    assert (H3 : C * (Y * bpow ey) < IZR q * Y * u).
    { apply (Rmult_lt_reg_r (1 + / IZR (2 ^ 52))); [assumption |].
      apply Rlt_le_trans with ((IZR q + 1) * Y * u); [exact H1 |].
      replace (IZR q * Y * u * (1 + / IZR (2 ^ 52)))
        with (IZR q * (1 + / IZR (2 ^ 52)) * (Y * u)) by ring.
      replace ((IZR q + 1) * Y * u) with ((IZR q + 1) * (Y * u)) by ring.
      apply Rmult_le_compat_r; [| exact H2].
      apply Rlt_le, Rmult_lt_0_compat; assumption. }
    apply Rlt_le.
    apply (Rmult_lt_reg_r (Y * bpow ey));
      [apply Rmult_lt_0_compat; assumption |].
    replace (IZR q * (u * bpow (- ey)) * (Y * bpow ey))
      with (IZR q * Y * u * (bpow ey * bpow (- ey))) by ring.
    rewrite Hey. lra.
Qed.

(** *** Comparing with a float *)

Lemma aligned_lt_of (m1 e1 m2 e2 : Z) :
  F2R m1 e1 < F2R m2 e2 ->
  (aligned m1 e1 (Z.min e1 e2) < aligned m2 e2 (Z.min e1 e2))%Z.
Proof.
  intros H.
  rewrite <- (aligned_F2R m1 e1 (Z.min e1 e2)) in H by lia.
  rewrite <- (aligned_F2R m2 e2 (Z.min e1 e2)) in H by lia.
  unfold F2R in H. apply lt_IZR.
  apply (Rmult_lt_reg_r (bpow (Z.min e1 e2))); [apply bpow_pos | assumption].
Qed.

Lemma fin_ge_ltb (c x : float) (mc : positive) (ec : Z) (B : R) :
  Prim2SF c = S754_finite false mc ec ->
  fin_ge (Prim2SF x) B -> F2R (Zpos mc) ec < B ->
  (c <? x)%float = true.
Proof.
  intros Hc Hx Hlt. rewrite FloatAxioms.ltb_spec, Hc. unfold SFltb.
  destruct Hx as [-> | [m [e [-> [Hcm Hle]]]]]; [reflexivity |].
  rewrite SFcompare_canonic; [| now apply (Prim2SF_canonic c false) | assumption].
  assert (H : F2R (Zpos mc) ec < F2R (Zpos m) e) by lra.
  apply aligned_lt_of, Z.compare_lt_iff in H. now rewrite H.
Qed.

Lemma fin_ge_not_ltb (c x : float) (mc : positive) (ec : Z) (B : R) :
  Prim2SF c = S754_finite false mc ec ->
  fin_ge (Prim2SF x) B -> F2R (Zpos mc) ec <= B ->
  (x <? c)%float = false.
Proof.
  intros Hc Hx Hlt. rewrite FloatAxioms.ltb_spec, Hc. unfold SFltb.
  destruct Hx as [-> | [m [e [-> [Hcm Hle]]]]]; [reflexivity |].
  rewrite SFcompare_canonic; [| assumption | now apply (Prim2SF_canonic c false)].
  assert (H : F2R (Zpos mc) ec <= F2R (Zpos m) e) by lra.
  apply aligned_le in H. rewrite Z.min_comm in H.
  apply Z.compare_ge_iff in H.
  destruct (_ ?= _)%Z; congruence.
Qed.

Lemma fin_le_ltb (c x : float) (mc : positive) (ec : Z) (B : R) :
  Prim2SF c = S754_finite false mc ec ->
  fin_le (Prim2SF x) B -> B < F2R (Zpos mc) ec ->
  (x <? c)%float = true.
Proof.
  intros Hc Hx Hlt. rewrite FloatAxioms.ltb_spec, Hc. unfold SFltb.
  destruct Hx as [-> | [m [e [-> [Hcm Hle]]]]]; [reflexivity |].
  rewrite SFcompare_canonic; [| assumption | now apply (Prim2SF_canonic c false)].
  assert (H : F2R (Zpos m) e < F2R (Zpos mc) ec) by lra.
  apply aligned_lt_of, Z.compare_lt_iff in H. now rewrite H.
Qed.

Lemma fin_le_not_gt (c x : float) (mc : positive) (ec : Z) (B : R) :
  Prim2SF c = S754_finite false mc ec ->
  fin_le (Prim2SF x) B -> B <= F2R (Zpos mc) ec ->
  (c <? x)%float = false.
Proof.
  intros Hc Hx Hlt. rewrite FloatAxioms.ltb_spec, Hc. unfold SFltb.
  destruct Hx as [-> | [m [e [-> [Hcm Hle]]]]]; [reflexivity |].
  rewrite SFcompare_canonic; [| now apply (Prim2SF_canonic c false) | assumption].
  assert (H : F2R (Zpos m) e <= F2R (Zpos mc) ec) by lra.
  apply aligned_le in H. rewrite Z.min_comm in H.
  apply Z.compare_ge_iff in H.
  destruct (_ ?= _)%Z; congruence.
Qed.

End Binary64LowerFacts.

(** ** The score and the threshold *)

Module ThresholdFacts.

Import Binary64 Binary64Facts ScoreValues ScoreBounds.
Import Binary64Lower Binary64LowerFacts.
Local Open Scope R_scope.

Ltac value := unfold F2R, bpow; simpl; lra.

Lemma term_finite (i u : nat) (w : float) :
  w = JS.lit_0_2 \/ w = JS.lit_0_1 ->
  (i <= u)%nat -> (0 < u)%nat -> (Z.of_nat u < 2 ^ 33)%Z ->
  fin_le (Prim2SF (JS.of_size i / JS.of_size u * w)) v_0_2.
Proof.
  intros [-> | ->] Hle Hu Hb.
  - destruct (tag_term i u Hle Hu Hb) as [[_ ->] | [_ H]].
    + apply (fin_le_self _ 7205759403792794 (-55)). reflexivity.
    + apply fin_le_weaken with w_0_2; [assumption | numeric].
  - destruct (ingredient_term i u Hle Hu Hb) as [[_ ->] | [_ H]].
    + apply fin_le_weaken with (F2R 7205759403792794 (-56)); [| numeric].
      apply (fin_le_self _ 7205759403792794 (-56)). reflexivity.
    + apply fin_le_weaken with w_0_1; [assumption | numeric].
Qed.

Lemma overlap_term_ge (s : float) (i u : nat) (w : float) (mc ec : Z) :
  w = JS.lit_0_2 \/ w = JS.lit_0_1 ->
  (i <= u)%nat -> (Z.of_nat u < 2 ^ 33)%Z ->
  canonic mc ec -> fin_ge (Prim2SF s) (F2R mc ec) ->
  fin_ge (Prim2SF (overlap_term s i u w)) (F2R mc ec).
Proof.
  intros Hw Hle Hb Hc Hs. unfold overlap_term.
  destruct (Nat.eqb_spec u 0) as [| Hu]; [assumption |].
  apply (add_ge _ _ v_0_2); [assumption | | assumption].
  apply term_finite; try assumption. lia.
Qed.

(** With the cuisine or the category matching, the score before the
    overlaps is 0.3 or more. *)
Lemma base_ge (cu ca : bool) :
  cu || ca = true ->
  fin_ge (Prim2SF (base cu ca)) (F2R 5404319552844595 (-54)).
Proof.
  destruct cu, ca; try discriminate; intros _; right.
  - exists 6305039478318694%positive, (-53)%Z.
    split; [reflexivity |]. split; [canon | value].
  - exists 7205759403792794%positive, (-54)%Z.
    split; [reflexivity |]. split; [canon | value].
  - exists 5404319552844595%positive, (-54)%Z.
    split; [reflexivity |]. split; [canon | value].
Qed.

Lemma score_of_ge (cu ca : bool) (i1 u1 i2 u2 : nat) :
  cu || ca = true ->
  (i1 <= u1)%nat -> (Z.of_nat u1 < 2 ^ 33)%Z ->
  (i2 <= u2)%nat -> (Z.of_nat u2 < 2 ^ 33)%Z ->
  fin_ge (Prim2SF (score_of cu ca i1 u1 i2 u2)) (F2R 5404319552844595 (-54)).
Proof.
  intros Hm H1 B1 H2 B2. unfold score_of.
  apply overlap_term_ge; auto; [canon |].
  apply overlap_term_ge; auto; [canon |].
  now apply base_ge.
Qed.

Lemma fin_ge_leb (c x : float) (mc : positive) (ec : Z) :
  Prim2SF c = S754_finite false mc ec ->
  fin_ge (Prim2SF x) (F2R (Zpos mc) ec) ->
  (c <=? x)%float = true.
Proof.
  intros Hc Hx. rewrite FloatAxioms.leb_spec, Hc. unfold SFleb.
  destruct Hx as [-> | [m [e [-> [Hcm Hle]]]]]; [reflexivity |].
  rewrite SFcompare_canonic; [| now apply (Prim2SF_canonic c false) | assumption].
  apply aligned_le in Hle. apply Z.compare_le_iff in Hle.
  destruct (_ ?= _)%Z; congruence.
Qed.

(** Without a shared tag the tags add nothing to a score of [0]. *)
Lemma tagless_term (u : nat) :
  (Z.of_nat u < 2 ^ 33)%Z ->
  overlap_term 0%float 0 u JS.lit_0_2 = 0%float.
Proof.
  intros Hb. unfold overlap_term.
  destruct (Nat.eqb_spec u 0) as [| Hu]; [reflexivity |].
  assert (Hb53 : (Z.of_nat u < 2 ^ 53)%Z).
  { assert (2 ^ 33 < 2 ^ 53)%Z by reflexivity. lia. }
  destruct (of_size_value u ltac:(lia) Hb53) as [m [e [Hy _]]].
  apply Prim2SF_inj.
  rewrite FloatAxioms.add_spec, FloatAxioms.mul_spec, FloatAxioms.div_spec, Hy.
  reflexivity.
Qed.

(** With neither cuisine nor category nor a tag shared, the score is at
    most 0.1. *)
Lemma score_of_tagless (u1 i2 u2 : nat) :
  (Z.of_nat u1 < 2 ^ 33)%Z ->
  (i2 <= u2)%nat -> (Z.of_nat u2 < 2 ^ 33)%Z ->
  fin_le (Prim2SF (score_of false false 0 u1 i2 u2))
         (F2R 7205759403792794 (-56)).
Proof.
  intros B1 H2 B2. unfold score_of.
  change (base false false) with 0%float.
  rewrite tagless_term by assumption.
  unfold overlap_term.
  destruct (Nat.eqb_spec u2 0) as [| Hu]; [apply fin_le_zero |].
  destruct (ingredient_term i2 u2 H2 ltac:(lia) B2) as [[_ ->] | [_ H]].
  - apply (fin_le_self _ 7205759403792794 (-56)). reflexivity.
  - apply (add_bound _ _ 0 w_0_1); try assumption.
    + apply fin_le_zero.
    + lra.
    + unfold w_0_1. apply Rlt_le, F2R_pos. reflexivity.
    + canon.
    + numeric.
Qed.

End ThresholdFacts.

(** ** The aspect ratio of an image *)

Module ImageFacts.

Import Binary64 Binary64Facts Binary64Lower Binary64LowerFacts.
Import Image.
Local Open Scope R_scope.

Ltac value := unfold F2R, bpow; simpl; lra.

Lemma number_value (z : Z) :
  (0 < z < 2 ^ 53)%Z ->
  exists m e,
    Prim2SF (number z) = S754_finite false m e
    /\ canonic (Zpos m) e /\ (2 ^ 52 <= Zpos m)%Z /\ (-52 <= e <= 0)%Z
    /\ F2R (Zpos m) e = IZR z.
Proof. apply of_Z_value. Qed.

(** The two ratios that are exactly [10] and [0.1], for every side the
    dimension checks let through. *)
Lemma aspect_exact :
  forallb (fun k =>
             let side := Z.of_nat k in
             negb (JS.gt (number (10 * side) / number side) 10%float)
             && negb (number side / number (10 * side) <? JS.lit_0_1)%float)
          (seq 100 301)
  = true.
Proof. vm_compute. reflexivity. Qed.

Lemma aspect_exact_at (side : Z) :
  (100 <= side <= 400)%Z ->
  JS.gt (number (10 * side) / number side) 10%float = false
  /\ (number side / number (10 * side) <? JS.lit_0_1)%float = false.
Proof.
  intros H. pose proof aspect_exact as Hall.
  rewrite forallb_forall in Hall.
  specialize (Hall (Z.to_nat side)).
  rewrite Z2Nat.id in Hall by lia. cbv zeta in Hall.
  assert (Hin : In (Z.to_nat side) (seq 100 301)) by (apply in_seq; lia).
  apply Hall in Hin. apply andb_true_iff in Hin.
  destruct Hin as [H1 H2]. apply negb_true_iff in H1, H2. now split.
Qed.

Section Ratio.

Variables w h : Z.
Hypothesis Hw : (100 <= w <= 4000)%Z.
Hypothesis Hh : (100 <= h <= 4000)%Z.

Lemma sides_real :
  100 <= IZR w <= 4000 /\ 100 <= IZR h <= 4000.
Proof.
  repeat split; apply IZR_le; lia.
Qed.

(** The ratio is above [10] exactly when the width is more than ten
    times the height. *)
Lemma aspect_gt :
  JS.gt (number w / number h) 10%float = (10 * h <? w)%Z.
Proof.
  destruct (number_value w ltac:(lia)) as [mw [ew [Hyw [Hcw [Hnw [Hew Hvw]]]]]].
  destruct (number_value h ltac:(lia)) as [mh [eh [Hyh [Hch [Hnh [Heh Hvh]]]]]].
  pose proof sides_real as [[Hw1 Hw2] [Hh1 Hh2]].
  destruct (Z.compare_spec w (10 * h)) as [E | E | E].
  - rewrite E. rewrite Z.ltb_irrefl. apply aspect_exact_at. lia.
  - replace (10 * h <? w)%Z with false by (symmetry; apply Z.ltb_ge; lia).
    unfold JS.gt.
    apply (fin_le_not_gt 10%float _ 5629499534213120 (-49)
                         (F2R 5629499534213120 (-49)));
      [reflexivity | | lra].
    apply (div_bound _ _ mw mh ew eh); try assumption; [lia | unfold canonic; simpl; lia |].
    rewrite Hvw, Hvh.
    replace (F2R 5629499534213120 (-49)) with 10 by value.
    apply IZR_lt in E. rewrite mult_IZR in E. lra.
  - replace (10 * h <? w)%Z with true by (symmetry; apply Z.ltb_lt; lia).
    unfold JS.gt.
    apply (fin_ge_ltb 10%float _ 5629499534213120 (-49)
                      (F2R 5629636973166592 (-49)));
      [reflexivity | | value].
    apply (div_ge _ _ mw mh ew eh); try assumption; [lia | unfold canonic; simpl; lia |].
    rewrite Hvw, Hvh.
    assert (Hc : F2R 5629636973166592 (-49) * (1 + / IZR (2 ^ 52))
                 <= 10 + / 4000) by value.
    assert (E' : 10 * IZR h + 1 <= IZR w).
    { rewrite <- mult_IZR, <- plus_IZR. apply IZR_le. lia. }
    assert (Hpos : 0 < F2R 5629636973166592 (-49)) by (apply F2R_pos; reflexivity).
    replace (F2R 5629636973166592 (-49) * IZR h * (1 + / IZR (2 ^ 52)))
      with (F2R 5629636973166592 (-49) * (1 + / IZR (2 ^ 52)) * IZR h) by ring.
    apply Rle_trans with ((10 + / 4000) * IZR h); [| lra].
    apply Rmult_le_compat_r; lra.
Qed.

(** The ratio is below the literal [0.1] exactly when the height is more
    than ten times the width. *)
Lemma aspect_lt :
  (number w / number h <? JS.lit_0_1)%float = (10 * w <? h)%Z.
Proof.
  destruct (number_value w ltac:(lia)) as [mw [ew [Hyw [Hcw [Hnw [Hew Hvw]]]]]].
  destruct (number_value h ltac:(lia)) as [mh [eh [Hyh [Hch [Hnh [Heh Hvh]]]]]].
  pose proof sides_real as [[Hw1 Hw2] [Hh1 Hh2]].
  destruct (Z.compare_spec h (10 * w)) as [E | E | E].
  - rewrite E. rewrite Z.ltb_irrefl. apply aspect_exact_at. lia.
  - replace (10 * w <? h)%Z with false by (symmetry; apply Z.ltb_ge; lia).
    apply (fin_ge_not_ltb JS.lit_0_1 _ 7205759403792794 (-56)
                          (F2R 7205759403792794 (-56)));
      [reflexivity | | lra].
    apply (div_ge _ _ mw mh ew eh); try assumption; [lia | unfold canonic; simpl; lia |].
    rewrite Hvw, Hvh.
    assert (Hc : F2R 7205759403792794 (-56) * (1 + / IZR (2 ^ 52))
                 <= / 10 + / 50000) by value.
    assert (E' : IZR h + 1 <= 10 * IZR w).
    { rewrite <- mult_IZR, <- plus_IZR. apply IZR_le. lia. }
    replace (F2R 7205759403792794 (-56) * IZR h * (1 + / IZR (2 ^ 52)))
      with (F2R 7205759403792794 (-56) * (1 + / IZR (2 ^ 52)) * IZR h) by ring.
    apply Rle_trans with ((/ 10 + / 50000) * IZR h); [| lra].
    apply Rmult_le_compat_r; lra.
  - replace (10 * w <? h)%Z with true by (symmetry; apply Z.ltb_lt; lia).
    apply (fin_le_ltb JS.lit_0_1 _ 7205759403792794 (-56)
                      (F2R 7204659892165018 (-56)));
      [reflexivity | | value].
    apply (div_bound _ _ mw mh ew eh); try assumption; [lia | unfold canonic; simpl; lia |].
    rewrite Hvw, Hvh.
    assert (Hc : / 10 - / 50000 <= F2R 7204659892165018 (-56)) by value.
    assert (E' : 10 * IZR w + 1 <= IZR h).
    { rewrite <- mult_IZR, <- plus_IZR. apply IZR_le. lia. }
    apply Rlt_le_trans with ((/ 10 - / 50000) * IZR h); [lra |].
    apply Rmult_le_compat_r; lra.
Qed.

End Ratio.

End ImageFacts.

(** ** Concrete runs *)

Local Open Scope string_scope.

(** The first example scenario of the specification: the score prints as
    0.7999999999999999 and the reasons are the four specific ones. *)
Example scenario_shared_labels :
  calculateSimilarity ascii_toLowerCase tiramisu cannoli
  = 0x1.9999999999999p-1%float
  /\ generateReasons ascii_toLowerCase tiramisu cannoli
     = ["Same cuisine (Italian)"; "Same category (Dessert)";
        "Similar tags: sweet"; "Similar ingredients: flour"].
Proof. split; vm_compute; reflexivity. Qed.

(** A pool with the target itself, a candidate at exactly the threshold,
    an unrelated candidate and three qualifying ones: the target, the
    candidate at 0.1 and the unrelated one are left out, the rest comes by
    decreasing score. *)
Example scenario_ranking :
  calculateSimilarity ascii_toLowerCase tiramisu shortbread = JS.lit_0_1
  /\ map (fun e => id (recipe e))
         (getRecommendations_default ascii_toLowerCase tiramisu
            [tiramisu; shortbread; flan; cannoli; horiatiki; zuppa])
     = ["4"; "2"; "3"].
Proof. split; vm_compute; reflexivity. Qed.

(** The limit 0 gives the empty result although candidates qualify. *)
Example scenario_limit_zero :
  getRecommendations ascii_toLowerCase tiramisu [cannoli; flan] 0 = [].
Proof. vm_compute; reflexivity. Qed.

(** The route of the server gives the result of the engine on the rows the
    query returns. *)
Example scenario_route :
  route ascii_toLowerCase tiramisu [flan; cannoli] (Some 6%Z)
  = getRecommendations ascii_toLowerCase tiramisu [flan; cannoli] 6.
Proof. vm_compute; reflexivity. Qed.

(** C4: with the limit [-1] and two qualifying candidates, the result is
    the sorted array without its last entry: it holds one entry, which is
    more than the limit, and it is not empty. *)
Lemma negative_limit_counterexample :
  map (fun e => id (recipe e))
      (getRecommendations ascii_toLowerCase tiramisu [cannoli; flan] (-1))
  = ["2"]
  /\ (Z.of_nat (length (getRecommendations ascii_toLowerCase tiramisu
                          [cannoli; flan] (-1)))
      <=? -1)%Z = false.
Proof. split; vm_compute; reflexivity. Qed.

(** C4 at the limit 1 and at the limit [-1]. *)
Lemma truncation_witness :
  (getRecommendations ascii_toLowerCase tiramisu [cannoli; flan] 1
   = firstn 1 (ranked ascii_toLowerCase tiramisu [cannoli; flan])
   /\ (Z.of_nat (length (getRecommendations ascii_toLowerCase tiramisu
                           [cannoli; flan] 1)) <= 1)%Z)
  /\ getRecommendations ascii_toLowerCase tiramisu [cannoli; flan] (-1)
     = firstn (length (ranked ascii_toLowerCase tiramisu [cannoli; flan])
               - Z.to_nat (- (-1)))
              (ranked ascii_toLowerCase tiramisu [cannoli; flan]).
Proof.
  split.
  - apply (truncation ascii_toLowerCase tiramisu [cannoli; flan] 1). lia.
  - apply (truncation ascii_toLowerCase tiramisu [cannoli; flan] (-1)). lia.
Defined.

(** C5: the target spells its tag ["Sweet"] and the candidate ["sweet"];
    the reason the specification words is ["Similar tags: Sweet"], the
    reasons of the engine hold ["Similar tags: sweet"] instead. *)
Lemma reasons_casing_counterexample :
  overlap ascii_toLowerCase (tags cx_target) (tags cx_candidate) = true
  /\ tags_reason_spec ascii_toLowerCase cx_target cx_candidate
     = "Similar tags: Sweet"
  /\ ingredients_reason_spec ascii_toLowerCase cx_target cx_candidate
     = "Similar ingredients: Flour"
  /\ generateReasons ascii_toLowerCase cx_target cx_candidate
     = ["Similar tags: sweet"; "Similar ingredients: flour"]
  /\ existsb (String.eqb (tags_reason_spec ascii_toLowerCase
                                           cx_target cx_candidate))
             (generateReasons ascii_toLowerCase cx_target cx_candidate)
     = false.
Proof. repeat split; vm_compute; reflexivity. Qed.

(** C5 on the same pair. *)
Lemma reasons_lower_cased_witness :
  In "Similar tags: sweet"
     (generateReasons ascii_toLowerCase cx_target cx_candidate)
  /\ In "Similar ingredients: flour"
        (generateReasons ascii_toLowerCase cx_target cx_candidate).
Proof.
  split.
  - apply (proj1 (reasons_lower_cased ascii_toLowerCase
                                      cx_target cx_candidate)).
    reflexivity.
  - apply (proj2 (reasons_lower_cased ascii_toLowerCase
                                      cx_target cx_candidate)).
    reflexivity.
Defined.

(** C7: [zuppa] has the cuisine, the category, the tags and the
    ingredients of [tiramisu], and the score is [max_score], which is less
    than 1; [dakos] has the cuisine and the category of [horiatiki] and,
    like it, no tag and no ingredient, and the score is 0.7. *)
Lemma score_one_counterexample :
  full_match ascii_toLowerCase tiramisu zuppa
  /\ calculateSimilarity ascii_toLowerCase tiramisu zuppa = max_score
  /\ (max_score <? 1)%float = true
  /\ (calculateSimilarity ascii_toLowerCase tiramisu zuppa =? 1)%float = false
  /\ cuisine horiatiki = cuisine dakos
  /\ category horiatiki = category dakos
  /\ tags horiatiki = tags dakos
  /\ ingredients horiatiki = ingredients dakos
  /\ calculateSimilarity ascii_toLowerCase horiatiki dakos
     = 0x1.6666666666666p-1%float.
Proof.
  repeat split; try (vm_compute; reflexivity); try discriminate;
    intros H; exact H.
Qed.

(** C7 on the pair that matches in full. *)
Lemma score_bounds_witness :
  (0 <=? calculateSimilarity ascii_toLowerCase tiramisu zuppa)%float = true
  /\ (calculateSimilarity ascii_toLowerCase tiramisu zuppa <=? 1)%float = true
  /\ calculateSimilarity ascii_toLowerCase tiramisu zuppa <> 1%float
  /\ (calculateSimilarity ascii_toLowerCase tiramisu zuppa <=? max_score)%float
     = true
  /\ (calculateSimilarity ascii_toLowerCase tiramisu zuppa = max_score
      <-> full_match ascii_toLowerCase tiramisu zuppa).
Proof.
  apply (score_bounds ascii_toLowerCase tiramisu zuppa);
    split; reflexivity.
Defined.

Local Close Scope string_scope.

(** ** Further properties: the server routes *)

Section ServerProperties.

Import JSString StringFacts ColumnFacts.
Local Open Scope string_scope.

(** X10.  Whatever text a column holds, every item the routes read from
    it is not empty, holds no comma and has no white space at either
    end; a [NULL] or empty column gives no item. *)
Theorem splitColumn_clean (text : option string) :
  Forall (fun item => item <> "" /\ occurrences "," item = 0%nat
                      /\ trim item = item)
         (splitColumn text)
  /\ splitColumn None = [] /\ splitColumn (Some "") = [].
Proof.
  split; [| split; reflexivity].
  pose proof (splitColumn_items_clean text) as H.
  rewrite Forall_forall in *. intros x Hx. apply cleanItem_iff. now apply H.
Qed.

(** X11.  An array stored by the routes that create or update a recipe
    (joined with [", "]) is read back as the same array exactly when each
    of its items is not empty, holds no comma and has no white space at
    either end. *)
Theorem column_round_trip (l : list string) :
  splitColumn (Some (joinColumn l)) = l
  <-> Forall (fun item => cleanItem item = true) l.
Proof.
  split.
  - intros <-. apply splitColumn_items_clean.
  - apply (splitColumn_join true).
Qed.

(** X12.  Storing the array read from a column and reading it again gives
    the same array: one passage through the routes makes a text
    stable. *)
Theorem column_stable (text : option string) :
  splitColumn (Some (joinColumn (splitColumn text))) = splitColumn text.
Proof.
  apply (splitColumn_join true), splitColumn_items_clean.
Qed.

(** X13.  Adding a favorite whose id is not empty, holds no comma and has
    no white space at either end: if the id is already among the parsed
    favorites nothing is written; otherwise the text written parses to
    the former favorites followed by the new id. *)
Theorem addFavorite_appends (favorite_recipes : option string)
        (recipeId : string) :
  cleanItem recipeId = true ->
  match addFavorite favorite_recipes recipeId with
  | AlreadyFavorite => In recipeId (splitColumn favorite_recipes)
  | UpdateFavorites updatedFavorites =>
      ~ In recipeId (splitColumn favorite_recipes)
      /\ splitColumn (Some updatedFavorites)
         = (splitColumn favorite_recipes ++ [recipeId])%list
  end.
Proof.
  intros Hc. unfold addFavorite.
  destruct (includes (splitColumn favorite_recipes) recipeId) eqn:E.
  - now apply includes_In.
  - split.
    + intros Hin. apply includes_In in Hin. congruence.
    + unfold push. apply (splitColumn_join false).
      apply Forall_app. split; [apply splitColumn_items_clean |].
      constructor; [assumption | constructor].
Qed.

(** X14.  Removing a favorite writes a value that parses to the former
    favorites without the removed id, in their order; the id is never
    left, and the column is set to [NULL] exactly when no other favorite
    remains. *)
Theorem removeFavorite_removes (favorite_recipes : option string)
        (recipeId : string) :
  splitColumn (removeFavorite favorite_recipes recipeId)
  = filter (fun id => negb (id =? recipeId)) (splitColumn favorite_recipes)
  /\ ~ In recipeId (splitColumn (removeFavorite favorite_recipes recipeId))
  /\ (removeFavorite favorite_recipes recipeId = None
      <-> forall id, In id (splitColumn favorite_recipes) -> id = recipeId).
Proof.
  assert (Hparse :
    splitColumn (removeFavorite favorite_recipes recipeId)
    = filter (fun id => negb (id =? recipeId)) (splitColumn favorite_recipes)).
  { unfold removeFavorite.
    set (updated := filter (fun id => negb (id =? recipeId))
                           (splitColumn favorite_recipes)).
    assert (Hc : Forall (fun x => cleanItem x = true) updated).
    { pose proof (splitColumn_items_clean favorite_recipes) as H.
      rewrite Forall_forall in *. intros x Hx. apply H.
      unfold updated in Hx. now apply filter_In in Hx. }
    destruct updated as [| x l] eqn:E; [reflexivity |].
    change (0 <? length (x :: l))%nat with true. cbv iota.
    now apply (splitColumn_join false). }
  split; [exact Hparse |]. split.
  - rewrite Hparse. intros Hin. apply filter_In in Hin.
    destruct Hin as [_ Hin]. now rewrite String.eqb_refl in Hin.
  - unfold removeFavorite.
    set (updated := filter (fun id => negb (id =? recipeId))
                           (splitColumn favorite_recipes)).
    assert (Hu : updated = [] <->
                 forall id, In id (splitColumn favorite_recipes) ->
                            id = recipeId).
    { split.
      - intros Hnil id Hin.
        destruct (String.eqb_spec id recipeId) as [| Hne]; [assumption |].
        assert (Hin' : In id updated).
        { apply filter_In. split; [assumption |].
          apply negb_true_iff. now apply String.eqb_neq. }
        rewrite Hnil in Hin'. contradiction.
      - intros Hall. destruct updated as [| x l] eqn:E; [reflexivity |].
        assert (Hx : In x updated) by (rewrite E; now left).
        apply filter_In in Hx. destruct Hx as [Hx Hne].
        apply Hall in Hx. subst x. now rewrite String.eqb_refl in Hne. }
    rewrite <- Hu. destruct updated as [| x l]; simpl.
    + tauto.
    + split; discriminate.
Qed.

(** X15.  Removing a favorite right after it was added gives back the
    former list of favorites: for an id that is not empty, holds no comma,
    has no white space at either end and is not yet a favorite, the text
    written by the addition, passed to the removal, parses to the
    favorites there were before. *)
Theorem favorite_add_remove (favorite_recipes : option string)
        (recipeId : string) :
  cleanItem recipeId = true ->
  ~ In recipeId (splitColumn favorite_recipes) ->
  exists updatedFavorites,
    addFavorite favorite_recipes recipeId = UpdateFavorites updatedFavorites
    /\ splitColumn (removeFavorite (Some updatedFavorites) recipeId)
       = splitColumn favorite_recipes.
Proof.
  intros Hc Hnot. unfold addFavorite.
  destruct (includes (splitColumn favorite_recipes) recipeId) eqn:E.
  - apply includes_In in E. contradiction.
  - eexists. split; [reflexivity |].
    assert (Hall : Forall (fun x => cleanItem x = true)
                          (splitColumn favorite_recipes ++ [recipeId])%list).
    { apply Forall_app. split; [apply splitColumn_items_clean |].
      constructor; [assumption | constructor]. }
    unfold removeFavorite, push.
    rewrite (splitColumn_join false) by assumption.
    rewrite filter_app_last by assumption.
    pose proof (splitColumn_items_clean favorite_recipes) as Hcl.
    destruct (splitColumn favorite_recipes) as [| x l] eqn:El;
      [reflexivity |].
    change (0 <? length (x :: l))%nat with true. cbv iota.
    now apply (splitColumn_join false).
Qed.

(** X16.  The route that lists the favorites queries the recipes only
    when the column parses to at least one id; the statement then holds
    exactly one placeholder for each id, and the ids are its parameters.
    In every other case the parsed list is empty and the route answers
    with the empty list. *)
Theorem favoritesQuery_placeholders (favorite_recipes : option string) :
  match favoritesQuery favorite_recipes with
  | None => splitColumn favorite_recipes = []
  | Some (query, params) =>
      params = splitColumn favorite_recipes
      /\ params <> []
      /\ occurrences "?" query = length params
  end.
Proof.
  unfold favoritesQuery. destruct favorite_recipes as [s |]; [| reflexivity].
  rewrite splitColumn_Some.
  destruct (truthy s) eqn:Ht; simpl negb; cbv iota.
  - fold (items s).
    destruct (items s) as [| x l] eqn:E; [reflexivity |].
    change (length (x :: l) =? 0)%nat with false. cbv iota.
    split; [reflexivity |]. split; [discriminate |].
    rewrite !occurrences_app.
    rewrite occurrences_placeholders by discriminate. simpl. lia.
  - unfold truthy in Ht. apply negb_false_iff, String.eqb_eq in Ht.
    now subst.
Qed.

(** X17.  A token made by [register] or [login] is accepted and gives the
    user's id back: for an id that holds no underscore (a number written
    in decimal holds none), the header [Bearer mock_token_<id>_<time>]
    makes [authenticateUser] look for the user [<id>]. *)
Theorem token_round_trip (id now : string) :
  occurrences "_" id = 0%nat ->
  authenticateUser (Some (bearer (mockToken id now))) = FindUser id.
Proof.
  intros Hid. unfold authenticateUser, bearer, mockToken.
  change ("Bearer " ++ "mock_token_" ++ id ++ "_" ++ now)
    with ("Bearer mock_token_" ++ id ++ String "_" now).
  change (truthy ("Bearer mock_token_" ++ id ++ String "_" now)) with true.
  change (startsWith ("Bearer mock_token_" ++ id ++ String "_" now) "Bearer ")
    with true.
  cbv [negb orb].
  change (substring 7 ("Bearer mock_token_" ++ id ++ String "_" now))
    with ("mock" ++ String "_" ("token" ++ String "_" (id ++ String "_" now))).
  rewrite (split_app "_" "mock") by reflexivity.
  rewrite (split_app "_" "token") by reflexivity.
  rewrite (split_app "_" id) by assumption.
  reflexivity.
Qed.

(** X18.  [authenticateUser] goes on to look for a user exactly when the
    header is [Bearer mock_token_<id>] followed by nothing or by an
    underscore and any text: the id is the text up to the next underscore
    (it may be empty) and what follows it is not examined. *)
Theorem authenticateUser_accepts (authHeader : option string)
        (userId : string) :
  authenticateUser authHeader = FindUser userId
  <-> exists rest,
        authHeader = Some ("Bearer mock_token_" ++ userId ++ rest)
        /\ occurrences "_" userId = 0%nat
        /\ (rest = "" \/ exists r, rest = String "_" r).
Proof.
  split.
  - unfold authenticateUser. destruct authHeader as [h |]; [| discriminate].
    destruct (truthy h); [| discriminate].
    destruct (startsWith h "Bearer ") eqn:Hp; [| discriminate].
    cbv [negb orb].
    assert (Hh : h = "Bearer " ++ substring 7 h).
    { clear -Hp. unfold startsWith in Hp.
      do 7 (destruct h as [| ? h]; [discriminate |];
            cbn [prefix] in Hp;
            match type of Hp with
            | context [ascii_dec ?a ?b] =>
                destruct (ascii_dec a b) as [<- |]; [| discriminate]
            end).
      reflexivity. }
    remember (substring 7 h) as token eqn:Htoken. clear Htoken.
    pose proof (join_split "_" token) as Hj.
    pose proof (split_pieces "_" token) as Hpieces.
    destruct (split "_" token) as [| p0 [| p1 [| p2 ps]]];
      try discriminate.
    cbn [length Nat.ltb Nat.leb nth orb].
    destruct (String.eqb_spec p0 "mock") as [-> | _]; [| discriminate].
    destruct (String.eqb_spec p1 "token") as [-> | _]; [| discriminate].
    cbv [negb orb]. intros [= <-].
    apply Forall_inv_tail, Forall_inv_tail, Forall_inv in Hpieces.
    destruct ps as [| q ps].
    + exists "". rewrite Hh, <- Hj. split; [| split; [assumption | now left]].
      simpl. now rewrite append_nil_r_aux.
    + exists (String "_" (JS.join "_" (q :: ps))).
      rewrite Hh, <- Hj. split; [| split; [assumption | right; eauto]].
      reflexivity.
  - intros [rest [-> [Hid Hrest]]]. unfold authenticateUser.
    change (truthy ("Bearer mock_token_" ++ userId ++ rest)) with true.
    change (startsWith ("Bearer mock_token_" ++ userId ++ rest) "Bearer ")
      with true.
    cbv [negb orb].
    change (substring 7 ("Bearer mock_token_" ++ userId ++ rest))
      with ("mock" ++ String "_" ("token" ++ String "_" (userId ++ rest))).
    rewrite (split_app "_" "mock") by reflexivity.
    rewrite (split_app "_" "token") by reflexivity.
    destruct Hrest as [-> | [r ->]].
    + rewrite append_nil_r_aux, split_absent by assumption. reflexivity.
    + rewrite split_app by assumption. reflexivity.
Qed.

(** X19.  The statement of the list of recipes holds exactly one
    placeholder for each parameter passed with it, whichever of the
    filters cuisine, category and search are given; the values of the
    filters occur in the parameters only. *)
Theorem recipesQuery_placeholders (cuisine category search : option string) :
  occurrences "?" (fst (recipesQuery cuisine category search))
  = length (snd (recipesQuery cuisine category search))
  /\ exists n, (n < 8)%nat /\
       fst (recipesQuery cuisine category search)
       = nth n ["SELECT * FROM recipes WHERE 1=1 ORDER BY name";
                "SELECT * FROM recipes WHERE 1=1 AND cuisine = ? ORDER BY name";
                "SELECT * FROM recipes WHERE 1=1 AND category = ? ORDER BY name";
                "SELECT * FROM recipes WHERE 1=1 AND cuisine = ? AND category = ? ORDER BY name";
                "SELECT * FROM recipes WHERE 1=1 AND (name LIKE ? OR tags LIKE ?) ORDER BY name";
                "SELECT * FROM recipes WHERE 1=1 AND cuisine = ? AND (name LIKE ? OR tags LIKE ?) ORDER BY name";
                "SELECT * FROM recipes WHERE 1=1 AND category = ? AND (name LIKE ? OR tags LIKE ?) ORDER BY name";
                "SELECT * FROM recipes WHERE 1=1 AND cuisine = ? AND category = ? AND (name LIKE ? OR tags LIKE ?) ORDER BY name"]
             "".
Proof.
  unfold recipesQuery.
  destruct cuisine as [cu |]; [destruct (truthy cu) |];
    (destruct category as [ca |]; [destruct (truthy ca) |]);
    (destruct search as [se |]; [destruct (truthy se) |]);
    (split; [reflexivity |]);
    first [ exists 0%nat; split; [lia | reflexivity]
          | exists 1%nat; split; [lia | reflexivity]
          | exists 2%nat; split; [lia | reflexivity]
          | exists 3%nat; split; [lia | reflexivity]
          | exists 4%nat; split; [lia | reflexivity]
          | exists 5%nat; split; [lia | reflexivity]
          | exists 6%nat; split; [lia | reflexivity]
          | exists 7%nat; split; [lia | reflexivity] ].
Qed.

End ServerProperties.

(** ** Further properties: the ranking *)

Section RankingProperties.

Import Binary64 Binary64Facts OrderFacts.

Variable toLowerCase : string -> string.

Lemma StronglySorted_app_inv (A : Type) (R : A -> A -> Prop) (l1 l2 : list A) :
  StronglySorted R (l1 ++ l2) ->
  forall a b, In a l1 -> In b l2 -> R a b.
Proof.
  induction l1 as [| x l1 IH]; simpl; intros Hs a b Ha Hb; [contradiction |].
  apply StronglySorted_inv in Hs. destruct Hs as [Hs Hx].
  destruct Ha as [<- | Ha].
  - rewrite Forall_forall in Hx. apply Hx, in_or_app. now right.
  - now apply IH.
Qed.

Lemma ranked_sorted (t : Recipe) (pool : list Recipe) :
  StronglySorted desc (ranked toLowerCase t pool).
Proof.
  apply Sorted_StronglySorted; [exact desc_trans |].
  apply sort_sorted, scored_above.
Qed.

Lemma length_ranked (t : Recipe) (pool : list Recipe) :
  length (ranked toLowerCase t pool)
  = length (filter (passes toLowerCase t) (candidates t pool)).
Proof.
  unfold ranked.
  rewrite (Permutation_length (ArrayFacts.sort_perm _ by_score _)).
  rewrite scored_eq. apply length_map.
Qed.

Lemma NoDup_map_filter (A B : Type) (f : A -> B) (P : A -> bool) (l : list A) :
  NoDup (map f l) -> NoDup (map f (filter P l)).
Proof.
  induction l as [| x l IH]; simpl; intros H; [constructor |].
  inversion H as [| ? ? Hx Hl]; subst.
  destruct (P x); [| now apply IH].
  simpl. constructor; [| now apply IH].
  intros Hin. apply Hx. apply in_map_iff in Hin.
  destruct Hin as [y [Hy Hin]]. apply filter_In in Hin.
  apply in_map_iff. exists y. tauto.
Qed.

(** X3.  What the truncation cuts off never scores more than what it
    keeps: for every limit, the sorted array is the result followed by a
    rest, and every entry of the rest scores at most as much as every
    entry of the result. *)
Theorem truncation_keeps_best (t : Recipe) (pool : list Recipe) (limit : Z) :
  exists rest,
    ranked toLowerCase t pool
    = getRecommendations toLowerCase t pool limit ++ rest
    /\ Forall (fun kept =>
         Forall (fun cut => (score cut <=? score kept)%float = true) rest)
         (getRecommendations toLowerCase t pool limit).
Proof.
  rewrite getRecommendations_ranked.
  destruct (ArrayFacts.slice0_firstn _ (ranked toLowerCase t pool) limit)
    as [k ->].
  exists (skipn k (ranked toLowerCase t pool)).
  split; [symmetry; apply firstn_skipn |].
  pose proof (ranked_sorted t pool) as Hs.
  rewrite <- (firstn_skipn k (ranked toLowerCase t pool)) in Hs.
  apply Forall_forall. intros a Ha. apply Forall_forall. intros b Hb.
  now destruct (StronglySorted_app_inv _ _ _ _ Hs a b Ha Hb) as [_ [_ H]].
Qed.

(** X4.  For a limit that is not negative, the result holds exactly
    [limit] entries when at least that many candidates pass the
    threshold, and all of those that pass otherwise. *)
Theorem result_length (t : Recipe) (pool : list Recipe) (limit : Z) :
  (0 <= limit)%Z ->
  length (getRecommendations toLowerCase t pool limit)
  = Nat.min (Z.to_nat limit)
            (length (filter (passes toLowerCase t) (candidates t pool))).
Proof.
  intros H. rewrite getRecommendations_ranked.
  rewrite ArrayFacts.slice0_nonneg by assumption.
  rewrite length_firstn, length_ranked. reflexivity.
Qed.

(** X5.  If the recipes of the pool have distinct ids, so have the
    recipes of the result: no candidate is returned twice. *)
Theorem result_ids_distinct (t : Recipe) (pool : list Recipe) (limit : Z) :
  NoDup (map id pool) ->
  NoDup (map (fun e => id (recipe e))
             (getRecommendations toLowerCase t pool limit)).
Proof.
  intros Hnd. rewrite getRecommendations_ranked.
  destruct (ArrayFacts.slice0_firstn _ (ranked toLowerCase t pool) limit)
    as [k ->].
  assert (Hr : NoDup (map (fun e => id (recipe e))
                          (ranked toLowerCase t pool))).
  { apply (Permutation_NoDup
             (l := map (fun e => id (recipe e)) (scored toLowerCase t pool))).
    - apply Permutation_map, Permutation_sym, ArrayFacts.sort_perm.
    - rewrite scored_eq, map_map. simpl.
      apply NoDup_map_filter. unfold candidates.
      now apply NoDup_map_filter. }
  rewrite <- (firstn_skipn k (ranked toLowerCase t pool)), map_app in Hr.
  now apply NoDup_app_remove_r in Hr.
Qed.

(** X6.  With a limit of at least the size of the pool nothing is cut
    off: the result is the whole sorted array, and every recipe of the
    pool with another id than the target's that passes the threshold is
    in it, with its score and its reasons. *)
Theorem large_limit_complete (t : Recipe) (pool : list Recipe) (limit : Z) :
  (Z.of_nat (length pool) <= limit)%Z ->
  getRecommendations toLowerCase t pool limit = ranked toLowerCase t pool
  /\ forall c, In c pool -> id c <> id t ->
               JS.gt (calculateSimilarity toLowerCase t c) JS.lit_0_1 = true ->
               In {| recipe := c;
                     score := calculateSimilarity toLowerCase t c;
                     reasons := generateReasons toLowerCase t c |}
                  (getRecommendations toLowerCase t pool limit).
Proof.
  intros H.
  assert (Hall : getRecommendations toLowerCase t pool limit
                 = ranked toLowerCase t pool).
  { rewrite getRecommendations_ranked.
    rewrite ArrayFacts.slice0_nonneg by lia.
    apply firstn_all2. rewrite length_ranked.
    pose proof (filter_length_le (passes toLowerCase t) (candidates t pool)).
    pose proof (filter_length_le
                  (fun recipe => negb (id recipe =? id t)%string) pool).
    unfold candidates in *. lia. }
  split; [exact Hall |].
  intros c Hc Hid Hp. rewrite Hall. unfold ranked.
  apply ArrayFacts.In_sort, In_scored. exists c.
  split; [assumption |]. split; [now apply String.eqb_neq |].
  split; [exact Hp | reflexivity].
Qed.

(** X7.  The score reads the tags and the ingredients as sets of
    lower-cased labels: two candidates with the same cuisine and
    category whose tags, and whose ingredients, have the same lower-cased
    forms score the same, whatever the order, the repetitions and the
    case of their labels. *)
Theorem score_labels_as_sets (t c c' : Recipe) :
  cuisine c = cuisine c' -> category c = category c' ->
  (forall x, In x (map toLowerCase (tags c))
             <-> In x (map toLowerCase (tags c'))) ->
  (forall x, In x (map toLowerCase (ingredients c))
             <-> In x (map toLowerCase (ingredients c'))) ->
  calculateSimilarity toLowerCase t c = calculateSimilarity toLowerCase t c'.
Proof.
  intros Hcu Hca Htags Hing.
  assert (Hsizes : forall a b b',
    (forall x, In x (map toLowerCase b) <-> In x (map toLowerCase b')) ->
    inter_size toLowerCase a b = inter_size toLowerCase a b'
    /\ union_size toLowerCase a b = union_size toLowerCase a b').
  { intros a b b' Hb.
    pose proof (sizes_spec toLowerCase a b) as [Hi Hu].
    pose proof (sizes_spec toLowerCase a b') as [Hi' Hu'].
    assert (Hf : filter (JS.has (lowered toLowerCase b))
                        (lowered toLowerCase a)
                 = filter (JS.has (lowered toLowerCase b'))
                          (lowered toLowerCase a)).
    { apply filter_ext. intros x.
      destruct (JS.has (lowered toLowerCase b') x) eqn:E.
      - apply SetFacts.has_In, In_lowered, Hb, In_lowered.
        now apply SetFacts.has_In.
      - apply SetFacts.has_false. intros Hin.
        apply SetFacts.has_false in E. apply E.
        now apply In_lowered, Hb, In_lowered. }
    assert (Hl : length (lowered toLowerCase b)
                 = length (lowered toLowerCase b')).
    { apply same_length; try apply NoDup_lowered.
      intros x. rewrite !In_lowered. apply Hb. }
    rewrite Hf in *. lia. }
  rewrite !calculateSimilarity_score_of, Hcu, Hca.
  destruct (Hsizes (tags t) _ _ Htags) as [-> ->].
  destruct (Hsizes (ingredients t) _ _ Hing) as [-> ->].
  reflexivity.
Qed.

End RankingProperties.

(** ** Further properties: the threshold *)

Section ThresholdProperties.

Import Binary64 Binary64Facts ScoreValues ScoreBounds.
Import Binary64Lower Binary64LowerFacts ThresholdFacts.

Variable toLowerCase : string -> string.

(** X8.  Shared ingredients alone never make a recommendation: for
    recipes whose arrays have fewer than [2 ^ 32] elements, a candidate
    that has neither the cuisine nor the category of the target and
    shares no tag with it (up to case) scores at most 0.1 and so does
    not pass the threshold, however many ingredients it shares. *)
Theorem ingredients_alone_rejected (t c : Recipe) :
  well_formed t -> well_formed c ->
  cuisine t <> cuisine c -> category t <> category c ->
  overlap toLowerCase (tags t) (tags c) = false ->
  (calculateSimilarity toLowerCase t c <=? JS.lit_0_1)%float = true
  /\ JS.gt (calculateSimilarity toLowerCase t c) JS.lit_0_1 = false.
Proof.
  intros [Htt Hti] [Hct Hci] Hcu Hca Hov.
  rewrite calculateSimilarity_score_of.
  apply String.eqb_neq in Hcu, Hca. rewrite Hcu, Hca.
  rewrite (inter_size_zero toLowerCase _ _ Hov).
  pose proof (score_of_tagless
                (union_size toLowerCase (tags t) (tags c)) _ _
                (union_size_bound toLowerCase _ _ Htt Hct)
                (inter_le_union toLowerCase (ingredients t) (ingredients c))
                (union_size_bound toLowerCase _ _ Hti Hci)) as H.
  split.
  - now apply (fin_le_leb _ JS.lit_0_1 7205759403792794 (-56)).
  - unfold JS.gt.
    apply (fin_le_not_gt JS.lit_0_1 _ 7205759403792794 (-56)
                         (F2R 7205759403792794 (-56)));
      [reflexivity | exact H | lra].
Qed.

(** X9.  The cuisine or the category alone makes a recommendation: for
    recipes whose arrays have fewer than [2 ^ 32] elements, a candidate
    with the cuisine or the category of the target scores 0.3 or more and
    passes the threshold, whatever its tags and ingredients. *)
Theorem cuisine_or_category_qualifies (t c : Recipe) :
  well_formed t -> well_formed c ->
  cuisine t = cuisine c \/ category t = category c ->
  (JS.lit_0_3 <=? calculateSimilarity toLowerCase t c)%float = true
  /\ JS.gt (calculateSimilarity toLowerCase t c) JS.lit_0_1 = true.
Proof.
  intros [Htt Hti] [Hct Hci] Hm.
  rewrite calculateSimilarity_score_of.
  assert (Hb : (cuisine t =? cuisine c)%string
               || (category t =? category c)%string = true).
  { apply orb_true_iff.
    destruct Hm as [E | E]; [left | right]; now apply String.eqb_eq. }
  pose proof (score_of_ge _ _ _ _ _ _ Hb
                (inter_le_union toLowerCase (tags t) (tags c))
                (union_size_bound toLowerCase _ _ Htt Hct)
                (inter_le_union toLowerCase (ingredients t) (ingredients c))
                (union_size_bound toLowerCase _ _ Hti Hci)) as H.
  split.
  - now apply (fin_ge_leb JS.lit_0_3 _ 5404319552844595 (-54)).
  - unfold JS.gt.
    apply (fin_ge_ltb JS.lit_0_1 _ 7205759403792794 (-56)
                      (F2R 5404319552844595 (-54)));
      [reflexivity | exact H | unfold F2R, bpow; simpl; lra].
Qed.

End ThresholdProperties.

(** ** Further properties: the uploaded image *)

Section ImageProperties.

Import JSString ColumnFacts Image ImageFacts.
Local Open Scope string_scope.
Local Open Scope Z_scope.

(** X20.  [validateImage] accepts an image exactly when the file has at
    most 5 MB (5242880 bytes), the format is one of jpeg, jpg, png and
    webp, both sides have between 100 and 4000 pixels, and neither side
    is more than ten times the other (a ratio of exactly 10 or 0.1 is
    accepted); it then reports the format, the sides and the size it was
    given. *)
Theorem validateImage_accepts (size : Z) (metadata : Metadata)
        (f : string) (w h s : Z) :
  validateImage size metadata = Valid f w h s
  <-> size <= 5242880 /\ s = size
      /\ format metadata = Some f
      /\ In f ["jpeg"; "jpg"; "png"; "webp"]
      /\ width metadata = Some w /\ height metadata = Some h
      /\ 100 <= w <= 4000 /\ 100 <= h <= 4000
      /\ w <= 10 * h /\ h <= 10 * w.
Proof.
  unfold validateImage, MAX_FILE_SIZE, MIN_DIMENSIONS, MAX_DIMENSIONS.
  cbn [fst snd].
  destruct (Z.ltb_spec (5 * 1024 * 1024) size) as [Hs | Hs].
  { split; [discriminate | lia]. }
  destruct (format metadata) as [f' |].
  2: { split; [discriminate | intros [_ [_ [H _]]]; discriminate]. }
  destruct (includes ALLOWED_FORMATS f') eqn:Hf.
  2: { assert (Hn : negb (truthy f') || negb false = true)
         by (destruct (truthy f'); reflexivity).
       rewrite Hn. split; [discriminate |].
       intros [_ [_ [[= ->] [Hin _]]]].
       apply includes_In in Hin. unfold ALLOWED_FORMATS in Hf. congruence. }
  assert (Hin : In f' ["jpeg"; "jpg"; "png"; "webp"])
    by now apply includes_In.
  assert (Ht : truthy f' = true).
  { simpl in Hin. decompose [or] Hin; subst; try reflexivity; contradiction. }
  rewrite Ht. cbn [negb orb].
  destruct (width metadata) as [w' |].
  2: { split; [discriminate | intros [_ [_ [_ [_ [H _]]]]]; discriminate]. }
  destruct (height metadata) as [h' |].
  2: { split; [discriminate |].
       intros [_ [_ [_ [_ [_ [H _]]]]]]; discriminate. }
  destruct (Z.eqb_spec w' 0) as [Hw0 | Hw0]; cbn [orb].
  { split; [discriminate |].
    intros [_ [_ [_ [_ [[= <-] [_ [? _]]]]]]]. lia. }
  destruct (Z.eqb_spec h' 0) as [Hh0 | Hh0].
  { split; [discriminate |].
    intros [_ [_ [_ [_ [_ [[= <-] [_ [? _]]]]]]]]. lia. }
  destruct (Z.ltb_spec w' 100) as [Hw1 | Hw1]; cbn [orb].
  { split; [discriminate |].
    intros [_ [_ [_ [_ [[= <-] [_ [? _]]]]]]]. lia. }
  destruct (Z.ltb_spec h' 100) as [Hh1 | Hh1].
  { split; [discriminate |].
    intros [_ [_ [_ [_ [_ [[= <-] [_ [? _]]]]]]]]. lia. }
  destruct (Z.ltb_spec 4000 w') as [Hw2 | Hw2]; cbn [orb].
  { split; [discriminate |].
    intros [_ [_ [_ [_ [[= <-] [_ [? _]]]]]]]. lia. }
  destruct (Z.ltb_spec 4000 h') as [Hh2 | Hh2].
  { split; [discriminate |].
    intros [_ [_ [_ [_ [_ [[= <-] [_ [? _]]]]]]]]. lia. }
  cbv zeta.
  rewrite (aspect_gt w' h') by lia.
  rewrite (aspect_lt w' h') by lia.
  destruct (Z.ltb_spec (10 * h') w') as [Ha | Ha]; cbn [orb].
  { split; [discriminate |].
    intros [_ [_ [_ [_ [[= <-] [[= <-] [_ [_ [? _]]]]]]]]]. lia. }
  destruct (Z.ltb_spec (10 * w') h') as [Hb | Hb].
  { split; [discriminate |].
    intros [_ [_ [_ [_ [[= <-] [[= <-] [_ [_ [_ ?]]]]]]]]]. lia. }
  split.
  - intros [= <- <- <- <-]. repeat split; auto; lia.
  - intros [_ [-> [[= <-] [_ [[= <-] [[= <-] _]]]]]]. reflexivity.
Qed.

End ImageProperties.

(** ** Further properties: the route of the recommendations *)

Section RouteProperties.

Variable toLowerCase : string -> string.

(** X1.  For every target and candidate, the computation the server route
    runs in line gives the score of [calculateSimilarity] and the reasons
    of [generateReasons]: the two copies of the scoring agree, although
    the route names the candidate's cuisine and category in the reasons
    and takes the shown labels from the intersection set. *)
Theorem route_entry_agrees (t c : Recipe) :
  route_entry toLowerCase t c
  = {| recipe := c;
       score := calculateSimilarity toLowerCase t c;
       reasons := generateReasons toLowerCase t c |}.
Proof. apply route_entry_eq. Qed.

(** X2.  On rows that do not hold the target's id (the query excludes
    it), the route returns what [getRecommendations] returns for the same
    target, pool and limit; a limit that [parseInt] cannot read gives the
    empty list. *)
Theorem route_agrees (t : Recipe) (rows : list Recipe) (limit : Z) :
  Forall (fun row => id row <> id t) rows ->
  route toLowerCase t rows (Some limit)
  = getRecommendations toLowerCase t rows limit
  /\ route toLowerCase t rows None = [].
Proof.
  intros H. split; [now apply route_eq |].
  unfold route, JS.slice0_number.
  now rewrite ArrayFacts.slice0_nonneg.
Qed.

End RouteProperties.

(** ** Concrete runs of the further properties *)

Local Open Scope string_scope.

(** X2 on the rows [flan] and [cannoli]. *)
Lemma route_agrees_witness :
  route ascii_toLowerCase tiramisu [flan; cannoli] (Some 6%Z)
  = getRecommendations ascii_toLowerCase tiramisu [flan; cannoli] 6
  /\ route ascii_toLowerCase tiramisu [flan; cannoli] None = [].
Proof.
  apply (route_agrees ascii_toLowerCase tiramisu [flan; cannoli] 6).
  repeat constructor; intros H; discriminate H.
Defined.

(** X4: two candidates pass, the limit is 1. *)
Lemma result_length_witness :
  length (getRecommendations ascii_toLowerCase tiramisu [cannoli; flan] 1)
  = Nat.min (Z.to_nat 1)
            (length (filter (passes ascii_toLowerCase tiramisu)
                            (candidates tiramisu [cannoli; flan]))).
Proof.
  apply (result_length ascii_toLowerCase tiramisu [cannoli; flan] 1). lia.
Defined.

(** X5 on a pool of three recipes. *)
Lemma result_ids_distinct_witness :
  NoDup (map (fun e => id (recipe e))
             (getRecommendations ascii_toLowerCase tiramisu
                                 [cannoli; flan; zuppa] 6)).
Proof.
  apply (result_ids_distinct ascii_toLowerCase tiramisu
                             [cannoli; flan; zuppa] 6).
  repeat constructor; simpl; intuition discriminate.
Defined.

(** X6: the limit 6 on a pool of three recipes. *)
Lemma large_limit_complete_witness :
  getRecommendations ascii_toLowerCase tiramisu [cannoli; flan; shortbread] 6
  = ranked ascii_toLowerCase tiramisu [cannoli; flan; shortbread]
  /\ forall c, In c [cannoli; flan; shortbread] -> id c <> id tiramisu ->
       JS.gt (calculateSimilarity ascii_toLowerCase tiramisu c) JS.lit_0_1
       = true ->
       In {| recipe := c;
             score := calculateSimilarity ascii_toLowerCase tiramisu c;
             reasons := generateReasons ascii_toLowerCase tiramisu c |}
          (getRecommendations ascii_toLowerCase tiramisu
                              [cannoli; flan; shortbread] 6).
Proof.
  apply (large_limit_complete ascii_toLowerCase tiramisu
                              [cannoli; flan; shortbread] 6).
  simpl. lia.
Defined.

(** X7: [cannoli_again] scores what [cannoli] scores. *)
Lemma score_labels_as_sets_witness :
  calculateSimilarity ascii_toLowerCase tiramisu cannoli
  = calculateSimilarity ascii_toLowerCase tiramisu cannoli_again.
Proof.
  apply (score_labels_as_sets ascii_toLowerCase tiramisu cannoli cannoli_again);
    try reflexivity; intros x; simpl; tauto.
Defined.

(** X8: [shortbread] has the two ingredients of [tiramisu] and nothing
    else in common with it. *)
Lemma ingredients_alone_rejected_witness :
  (calculateSimilarity ascii_toLowerCase tiramisu shortbread
   <=? JS.lit_0_1)%float = true
  /\ JS.gt (calculateSimilarity ascii_toLowerCase tiramisu shortbread)
           JS.lit_0_1 = false.
Proof.
  apply (ingredients_alone_rejected ascii_toLowerCase tiramisu shortbread);
    try (split; reflexivity); try reflexivity; intros H; discriminate H.
Defined.

(** X9: [flan] has the category of [tiramisu] and nothing else. *)
Lemma cuisine_or_category_qualifies_witness :
  (JS.lit_0_3 <=? calculateSimilarity ascii_toLowerCase tiramisu flan)%float
  = true
  /\ JS.gt (calculateSimilarity ascii_toLowerCase tiramisu flan) JS.lit_0_1
     = true.
Proof.
  apply (cuisine_or_category_qualifies ascii_toLowerCase tiramisu flan);
    try (split; reflexivity).
  right. reflexivity.
Defined.

(** X13: a third favorite. *)
Lemma addFavorite_appends_witness :
  ~ In "3" (splitColumn two_favorites)
  /\ splitColumn (Some "1,2,3") = (splitColumn two_favorites ++ ["3"])%list.
Proof.
  exact (addFavorite_appends two_favorites "3" eq_refl).
Defined.

(** X15: the third favorite added and removed. *)
Lemma favorite_add_remove_witness :
  exists updatedFavorites,
    addFavorite two_favorites "3" = UpdateFavorites updatedFavorites
    /\ splitColumn (removeFavorite (Some updatedFavorites) "3")
       = splitColumn two_favorites.
Proof.
  apply (favorite_add_remove two_favorites "3"); [reflexivity |].
  simpl. intuition discriminate.
Defined.

(** X17: the token of the user 12. *)
Lemma token_round_trip_witness :
  authenticateUser header_12 = FindUser "12".
Proof.
  exact (token_round_trip "12" "1700000000000" eq_refl).
Defined.

(** A recipe stored with an item that holds a comma is read back with
    that item in two. *)
Example column_splits_item :
  splitColumn (Some (joinColumn ["salt, to taste"; "flour"]))
  = ["salt"; "to taste"; "flour"].
Proof. reflexivity. Qed.

(** An image of 4000 by 400 pixels is accepted, one of 4000 by 399 is
    not. *)
Example aspect_ratio_limit :
  Image.validateImage 1000 {| Image.format := Some "png";
                              Image.width := Some 4000%Z;
                              Image.height := Some 400%Z |}
  = Image.Valid "png" 4000 400 1000
  /\ Image.validateImage 1000 {| Image.format := Some "png";
                                 Image.width := Some 4000%Z;
                                 Image.height := Some 399%Z |}
     = Image.Invalid Image.UnusualAspectRatio.
Proof. split; vm_compute; reflexivity. Qed.

Local Close Scope string_scope.
